(** * caddy-tailscale-auth: the address-to-device resolution cache

  A shallow embedding of [tailscale.go], in its two versions: the
  handler that keeps the whole device directory in a cache guarded by a
  [sync.RWMutex] and mirrored to a JSON file ([Module Cached]), and the
  earlier handler that asks the whois endpoint on every request
  ([Module Direct]).

  How the Go program is read:
  - a Go string is a byte string: [string], one [ascii] per byte; JSON
    text and file contents are [list ascii];
  - a pointer is an [option] ([None] is nil), a map is a [gmap], a
    slice is a [list] (the nil slice and the empty slice are both [[]]);
    a result [(T, error)] is a pair of options;
  - a method of the cached handler is a function from the state (the
    handler and the world around it: directory service, requests sent,
    disk, log) to an outcome: it returns, or it waits on the mutex for
    ever, or it panics;
  - the library calls the behaviour depends on are modelled as far as
    the handler uses them: [unicode/utf8], [encoding/json] (the printer
    of MarshalIndent, the scanner and the decoding into the structs of
    this package by their tags), [strings], [path/filepath], [net],
    [net/textproto], [net/url], [net/http], [os] and [sync], and of
    Caddy the token dispenser of its Caddyfile reader.

  The properties follow the definitions: first those that settle the
  statements of the specification, each naming its statement, then
  further properties of the same code. *)

From Stdlib Require Import ZArith NArith Ascii String List Lia Bool.
From stdpp Require Import base gmap strings list sorting.

Ltac Zify.zify_post_hook ::= Z.to_euclidean_division_equations.

Set Warnings "-register-all".

Local Open Scope N_scope.

Abbreviation text := (list ascii).

Definition code (c : ascii) : N := N_of_ascii c.
Definition ch (n : N) : ascii := ascii_of_N n.
Definition txt (s : string) : text := list_ascii_of_string s.
Definition in_range (lo hi x : N) : bool := (lo <=? x) && (x <=? hi).

(** ** unicode/utf8 *)

Module utf8.

Definition RuneError : N := 0xFFFD.
Definition MaxRune : N := 0x10FFFF.
Definition RuneSelf : N := 0x80.

(** [utf8.DecodeRune]: the first rune of [p] and its width in bytes;
    [(RuneError, 0)] on empty input, [(RuneError, 1)] on an invalid
    encoding.  The masks and shifts of the Go code are written as the
    equal subtractions and multiplications (p0&mask2 = p0-0xC0 for a
    two-byte leader, b&maskx = b-0x80 for a continuation byte). *)
Definition DecodeRune (p : text) : N * nat :=
  match p with
  | [] => (RuneError, 0%nat)
  | c0 :: p1 =>
    let p0 := code c0 in
    if p0 <? RuneSelf then (p0, 1%nat)
    else if (p0 <? 0xC2) || (0xF4 <? p0) then (RuneError, 1%nat)
    else
      match p1 with
      | [] => (RuneError, 1%nat)
      | c1 :: p2 =>
        let b1 := code c1 in
        let lo := if p0 =? 0xE0 then 0xA0 else if p0 =? 0xF0 then 0x90 else 0x80 in
        let hi := if p0 =? 0xED then 0x9F else if p0 =? 0xF4 then 0x8F else 0xBF in
        if negb (in_range lo hi b1) then (RuneError, 1%nat)
        else if p0 <? 0xE0 then ((p0 - 0xC0) * 64 + (b1 - 0x80), 2%nat)
        else
          match p2 with
          | [] => (RuneError, 1%nat)
          | c2 :: p3 =>
            let b2 := code c2 in
            if negb (in_range 0x80 0xBF b2) then (RuneError, 1%nat)
            else if p0 <? 0xF0
            then ((p0 - 0xE0) * 4096 + (b1 - 0x80) * 64 + (b2 - 0x80), 3%nat)
            else
              match p3 with
              | [] => (RuneError, 1%nat)
              | c3 :: _ =>
                let b3 := code c3 in
                if negb (in_range 0x80 0xBF b3) then (RuneError, 1%nat)
                else ((p0 - 0xF0) * 262144 + (b1 - 0x80) * 4096
                      + (b2 - 0x80) * 64 + (b3 - 0x80), 4%nat)
              end
          end
      end
  end.

(** [utf8.EncodeRune] / [utf8.AppendRune]. *)
Definition EncodeRune (r : N) : text :=
  if r <=? 0x7F then [ch r]
  else if r <=? 0x7FF then [ch (0xC0 + r / 64); ch (0x80 + r mod 64)]
  else if (MaxRune <? r) || in_range 0xD800 0xDFFF r
  then [ch 0xEF; ch 0xBF; ch 0xBD]
  else if r <=? 0xFFFF
  then [ch (0xE0 + r / 4096); ch (0x80 + (r / 64) mod 64); ch (0x80 + r mod 64)]
  else [ch (0xF0 + r / 262144); ch (0x80 + (r / 4096) mod 64);
        ch (0x80 + (r / 64) mod 64); ch (0x80 + r mod 64)].

(** One decoding step is an encoding error. *)
Definition invalid_step (rs : N * nat) : bool :=
  (rs.1 =? RuneError) && (rs.2 =? 1)%nat.

(** [utf8.Valid], by the same steps as the loops of encoding/json. *)
Fixpoint valid_go (fuel : nat) (p : text) : bool :=
  match fuel, p with
  | _, [] => true
  | O, _ => false
  | S fuel', _ :: _ =>
    let rs := DecodeRune p in
    negb (invalid_step rs) && valid_go fuel' (drop rs.2 p)
  end.

Definition Valid (p : text) : bool := valid_go (length p) p.
Definition ValidString (s : string) : bool := Valid (txt s).

End utf8.

(** ** encoding/json: text level *)

Module json.

Inductive value :=
| JNull
| JBool (b : bool)
| JNumber (lit : text)
| JString (s : string)
| JArray (xs : list value)
| JObject (kvs : list (string * value)).

(** *** Encoder: string literals ([appendString] with escapeHTML) *)

Definition hexdigit (n : N) : ascii :=
  if n <? 10 then ch (0x30 + n) else ch (0x61 + (n - 10)).

(** [htmlSafeSet]: the ASCII bytes copied unescaped. *)
Definition htmlSafe (b : N) : bool :=
  (0x20 <=? b)
  && negb ((b =? 0x22) || (b =? 0x26) || (b =? 0x3C) || (b =? 0x3E) || (b =? 0x5C)).

Definition escape_ascii (b : N) : text :=
  if (b =? 0x5C) || (b =? 0x22) then [ch 0x5C; ch b]
  else if b =? 0x08 then [ch 0x5C; ch 0x62]
  else if b =? 0x0C then [ch 0x5C; ch 0x66]
  else if b =? 0x0A then [ch 0x5C; ch 0x6E]
  else if b =? 0x0D then [ch 0x5C; ch 0x72]
  else if b =? 0x09 then [ch 0x5C; ch 0x74]
  else ch 0x5C :: txt "u00" ++ [hexdigit (b / 16); hexdigit (b mod 16)].

Fixpoint appendString_go (fuel : nat) (src : text) : text :=
  match fuel, src with
  | _, [] => []
  | O, _ => []
  | S fuel', c :: rest =>
    let b := code c in
    if b <? utf8.RuneSelf then
      (if htmlSafe b then [c] else escape_ascii b) ++ appendString_go fuel' rest
    else
      let rs := utf8.DecodeRune src in
      if utf8.invalid_step rs
      then ch 0x5C :: txt "ufffd" ++ appendString_go fuel' rest
      else if (rs.1 =? 0x2028) || (rs.1 =? 0x2029)
      then ch 0x5C :: txt "u202" ++ [hexdigit (rs.1 mod 16)] ++ appendString_go fuel' (drop rs.2 src)
      else take rs.2 src ++ appendString_go fuel' (drop rs.2 src)
  end.

Definition quote (s : string) : text :=
  [ch 0x22] ++ appendString_go (length (txt s)) (txt s) ++ [ch 0x22].

(** *** Encoder: [MarshalIndent v "" "  "] on a value tree *)

Fixpoint indent (depth : nat) : text :=
  match depth with
  | O => []
  | S d => ch 0x20 :: ch 0x20 :: indent d
  end.

Definition newline (depth : nat) : text := ch 0x0A :: indent depth.

Fixpoint print (depth : nat) (v : value) : text :=
  match v with
  | JNull => txt "null"
  | JBool true => txt "true"
  | JBool false => txt "false"
  | JNumber lit => lit
  | JString s => quote s
  | JArray [] => txt "[]"
  | JArray (x :: xs) =>
    txt "[" ++ newline (S depth) ++ print (S depth) x
    ++ (fix more (l : list value) : text :=
          match l with
          | [] => []
          | y :: l' => txt "," ++ newline (S depth) ++ print (S depth) y ++ more l'
          end) xs
    ++ newline depth ++ txt "]"
  | JObject [] => txt "{}"
  | JObject ((k, x) :: kvs) =>
    txt "{" ++ newline (S depth) ++ quote k ++ txt ": " ++ print (S depth) x
    ++ (fix more (l : list (string * value)) : text :=
          match l with
          | [] => []
          | (k', y) :: l' =>
            txt "," ++ newline (S depth) ++ quote k' ++ txt ": "
            ++ print (S depth) y ++ more l'
          end) kvs
    ++ newline depth ++ txt "}"
  end.

(** *** Decoder: the scanner *)

Inductive token :=
| TLBrace | TRBrace | TLBrack | TRBrack | TComma | TColon
| TTrue | TFalse | TNull
| TNumber (lit : text)
| TString (s : string).

Definition isSpace (b : N) : bool :=
  (b =? 0x20) || (b =? 0x09) || (b =? 0x0D) || (b =? 0x0A).

Definition isDigit (b : N) : bool := in_range 0x30 0x39 b.

Definition isHex (b : N) : bool :=
  in_range 0x30 0x39 b || in_range 0x61 0x66 b || in_range 0x41 0x46 b.

(** The escapes the scanner admits after a backslash, [u] apart. *)
Definition isSimpleEscape (b : N) : bool :=
  (b =? 0x62) || (b =? 0x66) || (b =? 0x6E) || (b =? 0x72) || (b =? 0x74)
  || (b =? 0x5C) || (b =? 0x2F) || (b =? 0x22).

Definition prepend (pre : text) (r : option (text * text)) : option (text * text) :=
  match r with
  | Some (raw, rest) => Some (pre ++ raw, rest)
  | None => None
  end.

(** The scanner inside a string literal (states [stateInString],
    [stateInStringEsc], [stateInStringEscU...]): the input starts after
    the opening quote; the result is the raw literal and the input
    after the closing quote. *)
Fixpoint scan_string (s : text) : option (text * text) :=
  match s with
  | [] => None
  | c :: s1 =>
    if code c =? 0x22 then Some ([], s1)
    else if code c =? 0x5C then
      match s1 with
      | [] => None
      | e :: s2 =>
        if isSimpleEscape (code e) then prepend [c; e] (scan_string s2)
        else if code e =? 0x75 then
          match s2 with
          | h1 :: h2 :: h3 :: h4 :: s3 =>
            if isHex (code h1) && isHex (code h2) && isHex (code h3) && isHex (code h4)
            then prepend [c; e; h1; h2; h3; h4] (scan_string s3)
            else None
          | _ => None
          end
        else None
      end
    else if code c <? 0x20 then None
    else prepend [c] (scan_string s1)
  end.

Fixpoint span_digits (s : text) : text * text :=
  match s with
  | c :: s' =>
    if isDigit (code c) then let '(ds, rest) := span_digits s' in (c :: ds, rest)
    else ([], s)
  | [] => ([], [])
  end.

(** A number literal: an optional minus sign; then 0, or a digit 1-9
    followed by digits; then optionally a dot and one or more digits;
    then optionally e or E, an optional sign and one or more digits. *)
Definition scan_number (s : text) : option (text * text) :=
  let '(sign, s0) :=
    match s with
    | c :: s' => if code c =? 0x2D then ([c], s') else ([], s)
    | [] => ([], s)
    end in
  let '(ip, s1) :=
    match s0 with
    | c :: s' => if code c =? 0x30 then ([c], s') else span_digits s0
    | [] => ([], [])
    end in
  match ip with
  | [] => None
  | _ =>
    let frac :=
      match s1 with
      | c :: s' =>
        if code c =? 0x2E then
          let '(ds, rest) := span_digits s' in
          match ds with [] => None | _ => Some (c :: ds, rest) end
        else Some ([], s1)
      | [] => Some ([], s1)
      end in
    match frac with
    | None => None
    | Some (fp, s2) =>
      let expo :=
        match s2 with
        | c :: s' =>
          if (code c =? 0x65) || (code c =? 0x45) then
            let '(sg, s'') :=
              match s' with
              | d :: t => if (code d =? 0x2B) || (code d =? 0x2D) then ([d], t) else ([], s')
              | [] => ([], s')
              end in
            let '(ds, rest) := span_digits s'' in
            match ds with [] => None | _ => Some (c :: sg ++ ds, rest) end
          else Some ([], s2)
        | [] => Some ([], s2)
        end in
      match expo with
      | None => None
      | Some (ep, s3) => Some (sign ++ ip ++ fp ++ ep, s3)
      end
    end
  end.

(** *** Decoder: [unquote] *)

Definition hexval (c : ascii) : option N :=
  let b := code c in
  if in_range 0x30 0x39 b then Some (b - 0x30)
  else if in_range 0x61 0x66 b then Some (b - 0x61 + 10)
  else if in_range 0x41 0x46 b then Some (b - 0x41 + 10)
  else None.

(** [getu4]: the code unit of a [\uXXXX] at the head of [s]. *)
Definition getu4 (s : text) : option N :=
  match s with
  | bs :: u :: h1 :: h2 :: h3 :: h4 :: _ =>
    if (code bs =? 0x5C) && (code u =? 0x75) then
      match hexval h1, hexval h2, hexval h3, hexval h4 with
      | Some a, Some b, Some c, Some d => Some (((a * 16 + b) * 16 + c) * 16 + d)
      | _, _, _, _ => None
      end
    else None
  | _ => None
  end.

Definition IsSurrogate (r : N) : bool := (0xD800 <=? r) && (r <? 0xE000).

(** [utf16.DecodeRune], on an optional second code unit. *)
Definition utf16_DecodeRune (r1 : N) (r2 : option N) : N :=
  match r2 with
  | Some r2 =>
    if (0xD800 <=? r1) && (r1 <? 0xDC00) && (0xDC00 <=? r2) && (r2 <? 0xE000)
    then (r1 - 0xD800) * 1024 + (r2 - 0xDC00) + 0x10000
    else utf8.RuneError
  | None => utf8.RuneError
  end.

Definition unescape_simple (b : N) : option ascii :=
  if (b =? 0x22) || (b =? 0x5C) || (b =? 0x2F) || (b =? 0x27) then Some (ch b)
  else if b =? 0x62 then Some (ch 0x08)
  else if b =? 0x66 then Some (ch 0x0C)
  else if b =? 0x6E then Some (ch 0x0A)
  else if b =? 0x72 then Some (ch 0x0D)
  else if b =? 0x74 then Some (ch 0x09)
  else None.

(** [unquoteBytes] on the raw literal (without its quotes): escapes
    are resolved and invalid UTF-8 is replaced by U+FFFD. *)
Fixpoint unquote_go (fuel : nat) (s : text) : option text :=
  match fuel, s with
  | _, [] => Some []
  | O, _ => None
  | S fuel', c :: rest =>
    let b := code c in
    if b =? 0x5C then
      match rest with
      | [] => None
      | e :: rest' =>
        if code e =? 0x75 then
          match getu4 s with
          | None => None
          | Some rr =>
            let after := drop 6 s in
            if IsSurrogate rr then
              let dec := utf16_DecodeRune rr (getu4 after) in
              if negb (dec =? utf8.RuneError)
              then (utf8.EncodeRune dec ++.) <$> unquote_go fuel' (drop 6 after)
              else (utf8.EncodeRune utf8.RuneError ++.) <$> unquote_go fuel' after
            else (utf8.EncodeRune rr ++.) <$> unquote_go fuel' after
          end
        else
          match unescape_simple (code e) with
          | Some x => (x ::.) <$> unquote_go fuel' rest'
          | None => None
          end
      end
    else if (b =? 0x22) || (b <? 0x20) then None
    else if b <? utf8.RuneSelf then (c ::.) <$> unquote_go fuel' rest
    else
      let rs := utf8.DecodeRune s in
      (utf8.EncodeRune rs.1 ++.) <$> unquote_go fuel' (drop rs.2 s)
  end.

Definition unquote (raw : text) : option string :=
  string_of_list_ascii <$> unquote_go (length raw) raw.

(** *** Decoder: tokens *)

Fixpoint lex_go (fuel : nat) (s : text) : option (list token) :=
  match fuel, s with
  | _, [] => Some []
  | O, _ => None
  | S fuel', c :: s1 =>
    let b := code c in
    if isSpace b then lex_go fuel' s1
    else if b =? 0x7B then (TLBrace ::.) <$> lex_go fuel' s1
    else if b =? 0x7D then (TRBrace ::.) <$> lex_go fuel' s1
    else if b =? 0x5B then (TLBrack ::.) <$> lex_go fuel' s1
    else if b =? 0x5D then (TRBrack ::.) <$> lex_go fuel' s1
    else if b =? 0x2C then (TComma ::.) <$> lex_go fuel' s1
    else if b =? 0x3A then (TColon ::.) <$> lex_go fuel' s1
    else if b =? 0x22 then
      match scan_string s1 with
      | Some (raw, rest) =>
        match unquote raw with
        | Some str => (TString str ::.) <$> lex_go fuel' rest
        | None => None
        end
      | None => None
      end
    else if b =? 0x74 then
      match s1 with
      | r :: u :: e :: rest =>
        if (code r =? 0x72) && (code u =? 0x75) && (code e =? 0x65)
        then (TTrue ::.) <$> lex_go fuel' rest else None
      | _ => None
      end
    else if b =? 0x66 then
      match s1 with
      | a :: l :: s' :: e :: rest =>
        if (code a =? 0x61) && (code l =? 0x6C) && (code s' =? 0x73) && (code e =? 0x65)
        then (TFalse ::.) <$> lex_go fuel' rest else None
      | _ => None
      end
    else if b =? 0x6E then
      match s1 with
      | u :: l :: l' :: rest =>
        if (code u =? 0x75) && (code l =? 0x6C) && (code l' =? 0x6C)
        then (TNull ::.) <$> lex_go fuel' rest else None
      | _ => None
      end
    else if (b =? 0x2D) || isDigit b then
      match scan_number s with
      | Some (lit, rest) => (TNumber lit ::.) <$> lex_go fuel' rest
      | None => None
      end
    else None
  end.

Definition lex (s : text) : option (list token) := lex_go (S (length s)) s.

(** *** Decoder: the grammar *)

Fixpoint parse_value (fuel : nat) (ts : list token) : option (value * list token) :=
  match fuel with
  | O => None
  | S fuel' =>
    match ts with
    | TNull :: r => Some (JNull, r)
    | TTrue :: r => Some (JBool true, r)
    | TFalse :: r => Some (JBool false, r)
    | TNumber lit :: r => Some (JNumber lit, r)
    | TString s :: r => Some (JString s, r)
    | TLBrack :: TRBrack :: r => Some (JArray [], r)
    | TLBrack :: r => parse_elements fuel' r []
    | TLBrace :: TRBrace :: r => Some (JObject [], r)
    | TLBrace :: r => parse_members fuel' r []
    | _ => None
    end
  end
with parse_elements (fuel : nat) (ts : list token) (acc : list value)
  : option (value * list token) :=
  match fuel with
  | O => None
  | S fuel' =>
    match parse_value fuel' ts with
    | Some (v, TComma :: r) => parse_elements fuel' r (v :: acc)
    | Some (v, TRBrack :: r) => Some (JArray (rev (v :: acc)), r)
    | _ => None
    end
  end
with parse_members (fuel : nat) (ts : list token) (acc : list (string * value))
  : option (value * list token) :=
  match fuel with
  | O => None
  | S fuel' =>
    match ts with
    | TString k :: TColon :: r =>
      match parse_value fuel' r with
      | Some (v, TComma :: r') => parse_members fuel' r' ((k, v) :: acc)
      | Some (v, TRBrace :: r') => Some (JObject (rev ((k, v) :: acc)), r')
      | _ => None
      end
    | _ => None
    end
  end.

(** The syntax check and tree of a whole document; [None] is a
    [SyntaxError]. *)
Definition parse (data : text) : option value :=
  match lex data with
  | Some ts =>
    match parse_value (S (length ts)) ts with
    | Some (v, []) => Some v
    | _ => None
    end
  | None => None
  end.

End json.

(** ** Package strings, path/filepath, net, net/textproto, net/url *)

Module golib.

Definition str (t : text) : string := string_of_list_ascii t.

(** [strings.Cut] on a single-byte separator. *)
Fixpoint cut (sep : N) (s : text) : text * option text :=
  match s with
  | [] => ([], None)
  | c :: r =>
    if code c =? sep then ([], Some r)
    else let '(a, b) := cut sep r in (c :: a, b)
  end.

(** [strings.Join]. *)
Fixpoint Join (elems : list string) (sep : string) : string :=
  match elems with
  | [] => ""
  | [e] => e
  | e :: es => e +:+ sep +:+ Join es sep
  end.

(** White space as [unicode.IsSpace] has it, by UTF-8 encoding. *)
Definition space_prefix (s : text) : option text :=
  match s with
  | c0 :: r0 =>
    let b0 := code c0 in
    if in_range 0x09 0x0D b0 || (b0 =? 0x20) then Some r0
    else
      match r0 with
      | c1 :: r1 =>
        let b1 := code c1 in
        if (b0 =? 0xC2) && ((b1 =? 0x85) || (b1 =? 0xA0)) then Some r1
        else
          match r1 with
          | c2 :: r2 =>
            let b2 := code c2 in
            if (b0 =? 0xE1) && (b1 =? 0x9A) && (b2 =? 0x80) then Some r2
            else if (b0 =? 0xE2) && (b1 =? 0x80)
                    && (in_range 0x80 0x8A b2 || (b2 =? 0xA8) || (b2 =? 0xA9) || (b2 =? 0xAF))
            then Some r2
            else if (b0 =? 0xE2) && (b1 =? 0x81) && (b2 =? 0x9F) then Some r2
            else if (b0 =? 0xE3) && (b1 =? 0x80) && (b2 =? 0x80) then Some r2
            else None
          | [] => None
          end
      | [] => None
      end
  | [] => None
  end.

Definition space_suffix (s : text) : option text :=
  match reverse s with
  | c0 :: r0 =>
    let b0 := code c0 in
    if in_range 0x09 0x0D b0 || (b0 =? 0x20) then Some (reverse r0)
    else
      match r0 with
      | c1 :: r1 =>
        let b1 := code c1 in
        if (b1 =? 0xC2) && ((b0 =? 0x85) || (b0 =? 0xA0)) then Some (reverse r1)
        else
          match r1 with
          | c2 :: r2 =>
            match space_prefix [c2; c1; c0] with
            | Some [] => Some (reverse r2)
            | _ => None
            end
          | [] => None
          end
      | [] => None
      end
  | [] => None
  end.

Fixpoint trim_left (fuel : nat) (s : text) : text :=
  match fuel with
  | O => s
  | S fuel' => match space_prefix s with Some r => trim_left fuel' r | None => s end
  end.

Fixpoint trim_right (fuel : nat) (s : text) : text :=
  match fuel with
  | O => s
  | S fuel' => match space_suffix s with Some r => trim_right fuel' r | None => s end
  end.

(** [strings.TrimSpace]. *)
Definition TrimSpace (s : string) : string :=
  let t := txt s in
  str (trim_right (length t) (trim_left (length t) t)).

(** [path/filepath.Clean] and [Dir] (Unix). *)
Fixpoint split_slash (s : text) : list text :=
  match s with
  | [] => [[]]
  | c :: r =>
    if code c =? 0x2F then [] :: split_slash r
    else match split_slash r with
         | seg :: segs => (c :: seg) :: segs
         | [] => [[c]]
         end
  end.

Definition dotdot : text := txt "..".

(** The cleaned components, kept in reverse. *)
Definition clean_step (rooted : bool) (out : list text) (seg : text) : list text :=
  if bool_decide (seg = []) || bool_decide (seg = txt ".") then out
  else if bool_decide (seg = dotdot) then
    match out with
    | prev :: out' => if bool_decide (prev = dotdot) then seg :: out else out'
    | [] => if rooted then [] else [seg]
    end
  else seg :: out.

Fixpoint join_slash (segs : list text) : text :=
  match segs with
  | [] => []
  | [x] => x
  | x :: xs => x ++ ch 0x2F :: join_slash xs
  end.

Definition Clean (path : text) : text :=
  match path with
  | [] => txt "."
  | c :: _ =>
    let rooted := code c =? 0x2F in
    let segs := reverse (fold_left (clean_step rooted) (split_slash path) []) in
    let body := join_slash segs in
    if rooted then ch 0x2F :: body
    else match body with [] => txt "." | _ => body end
  end.

Fixpoint drop_to_slash (rev_path : text) : text :=
  match rev_path with
  | [] => []
  | c :: r => if code c =? 0x2F then rev_path else drop_to_slash r
  end.

Definition Dir (path : string) : string :=
  str (Clean (reverse (drop_to_slash (reverse (txt path))))).

Definition IsAbs (path : string) : bool :=
  match txt path with
  | c :: _ => code c =? 0x2F
  | [] => false
  end.

(** [strings.Index] and [LastIndex] for one byte. *)
Fixpoint IndexByte (s : text) (b : N) : option nat :=
  match s with
  | [] => None
  | c :: r => if code c =? b then Some O else S <$> IndexByte r b
  end.

Fixpoint LastIndexByte (s : text) (b : N) : option nat :=
  match s with
  | [] => None
  | c :: r =>
    match LastIndexByte r b with
    | Some i => Some (S i)
    | None => if code c =? b then Some O else None
    end
  end.

(** [net.SplitHostPort]: the host, or [None] for an [AddrError]. *)
Definition SplitHostPort (hostport : string) : option string :=
  let hp := txt hostport in
  match LastIndexByte hp 0x3A with
  | None => None
  | Some i =>
    let bracketed := match hp with c :: _ => code c =? 0x5B | [] => false end in
    let parts : option (text * nat * nat) :=
      if bracketed then
        match IndexByte hp 0x5D with
        | None => None
        | Some e =>
          if (S e =? i)%nat then Some (take (e - 1) (drop 1 hp), 1%nat, S e) else None
        end
      else
        let host := take i hp in
        match IndexByte host 0x3A with
        | Some _ => None
        | None => Some (host, O, O)
        end in
    match parts with
    | None => None
    | Some (host, j, k) =>
      match IndexByte (drop j hp) 0x5B, IndexByte (drop k hp) 0x5D with
      | None, None => Some (str host)
      | _, _ => None
      end
    end
  end.

(** [net/textproto]: header names. *)
Definition isAlpha (b : N) : bool := in_range 0x41 0x5A b || in_range 0x61 0x7A b.

Definition validHeaderFieldByte (b : N) : bool :=
  isAlpha b || in_range 0x30 0x39 b
  || existsb (N.eqb b)
       [0x21; 0x23; 0x24; 0x25; 0x26; 0x27; 0x2A; 0x2B; 0x2D; 0x2E; 0x5E; 0x5F; 0x60; 0x7C; 0x7E].

Fixpoint canonical_go (upper : bool) (a : text) : text :=
  match a with
  | [] => []
  | c :: r =>
    let b := code c in
    let b' := if upper && in_range 0x61 0x7A b then b - 0x20
              else if negb upper && in_range 0x41 0x5A b then b + 0x20
              else b in
    ch b' :: canonical_go (b' =? 0x2D) r
  end.

Definition CanonicalMIMEHeaderKey (s : string) : string :=
  let a := txt s in
  if forallb (fun c => validHeaderFieldByte (code c)) a
  then str (canonical_go true a) else s.

(** [http.Header]. *)
Abbreviation Header := (gmap string (list string)).

Definition Header_Get (h : Header) (key : string) : string :=
  match h !! CanonicalMIMEHeaderKey key with
  | Some (v :: _) => v
  | _ => ""%string
  end.

Definition Header_Set (h : Header) (key value : string) : Header :=
  <[CanonicalMIMEHeaderKey key := [value]]> h.

(** [net/url.Parse] as [http.NewRequest] uses it: the URLs built here
    carry a scheme and a fixed authority, so parsing fails only on a
    control byte before the fragment or on a malformed percent-escape
    in the path or the fragment. *)
Fixpoint validEscapes (s : text) : bool :=
  match s with
  | [] => true
  | c :: r =>
    if code c =? 0x25 then
      match r with
      | h1 :: h2 :: r' => json.isHex (code h1) && json.isHex (code h2) && validEscapes r'
      | _ => false
      end
    else validEscapes r
  end.

Definition isCTL (b : N) : bool := (b <? 0x20) || (b =? 0x7F).

Definition url_Parse_ok (rawURL : string) : bool :=
  let '(u, frag) := cut 0x23 (txt rawURL) in
  let '(path, _) := cut 0x3F u in
  negb (existsb (fun c => isCTL (code c)) u)
  && validEscapes path
  && match frag with Some f => validEscapes f | None => true end.

End golib.

(** ** encoding/json: decoding a value tree into Go values

  [Unmarshal] stores what fits and remembers the first value of the
  wrong JSON kind as an [UnmarshalTypeError]; decoding goes on past it.
  Each [store_*] is what is stored, each [ok_*] whether the kind fits. *)

Module jsondec.
Import json.

Inductive json_error := SyntaxError | UnmarshalTypeError.

(** [foldName]: object keys meet struct fields up to case. Only the
    runes that fold onto ASCII letters matter for ASCII field names:
    the Kelvin sign (onto K) and the long s (onto S). *)
Fixpoint foldName_go (s : text) : text :=
  match s with
  | [] => []
  | c0 :: r0 =>
    let b0 := code c0 in
    let keep := (if in_range 0x61 0x7A b0 then ch (b0 - 0x20) else c0) :: foldName_go r0 in
    match r0 with
    | c1 :: r1 =>
      if (b0 =? 0xC5) && (code c1 =? 0xBF) then ch 0x53 :: foldName_go r1
      else
        match r1 with
        | c2 :: r2 =>
          if (b0 =? 0xE2) && (code c1 =? 0x84) && (code c2 =? 0xAA)
          then ch 0x4B :: foldName_go r2
          else keep
        | [] => keep
        end
    | [] => keep
    end
  end.

Definition foldName (s : string) : string := golib.str (foldName_go (txt s)).

Definition is_field (tag key : string) : bool :=
  String.eqb (foldName key) (foldName tag).

(** The members of an object that name the field [tag] are stored in
    document order, each on top of the previous. *)
Definition field {T : Type} (store : T -> value -> T) (tag : string)
    (kvs : list (string * value)) (old : T) : T :=
  fold_left (fun acc kv => if is_field tag kv.1 then store acc kv.2 else acc) kvs old.

Definition field_ok (ok : value -> bool) (tag : string)
    (kvs : list (string * value)) : bool :=
  forallb (fun kv => if is_field tag kv.1 then ok kv.2 else true) kvs.

Definition store_string (old : string) (v : value) : string :=
  match v with JString s => s | _ => old end.

Definition ok_string (v : value) : bool :=
  match v with JString _ | JNull => true | _ => false end.

Definition store_bool (old : bool) (v : value) : bool :=
  match v with JBool b => b | _ => old end.

Definition ok_bool (v : value) : bool :=
  match v with JBool _ | JNull => true | _ => false end.

(** Array elements are decoded into the elements already there, or
    into zero values past the old length. *)
Fixpoint store_elems {T : Type} (store : T -> value -> T) (zero : T)
    (old : list T) (xs : list value) : list T :=
  match xs with
  | [] => []
  | x :: xs' => store (hd zero old) x :: store_elems store zero (tl old) xs'
  end.

(** Slices: the nil slice and the empty slice are both [[]]. *)
Definition store_slice {T : Type} (store : T -> value -> T) (zero : T)
    (old : list T) (v : value) : list T :=
  match v with
  | JNull => []
  | JArray xs => store_elems store zero old xs
  | _ => old
  end.

Definition ok_slice (ok : value -> bool) (v : value) : bool :=
  match v with
  | JNull => true
  | JArray xs => forallb ok xs
  | _ => false
  end.

End jsondec.

(** ** Package os: files *)

Module os.

Inductive fs_error := ENOENT | ENOTDIR | EISDIR | EACCES.

(** Regular files by path, the directories that exist, and the paths
    the process may not touch. Paths are compared as written; the
    working directory and the root always exist; of a directory made by
    MkdirAll only the directory itself is recorded, not its ancestors. *)
Record FS := mkFS {
  files : gmap string text;
  dirs : gset string;
  denied : gset string
}.

Definition is_dir (fs : FS) (p : string) : bool :=
  bool_decide (p = "."%string) || bool_decide (p = "/"%string) || bool_decide (p ∈ dirs fs).

Definition IsNotExist (e : fs_error) : bool :=
  match e with ENOENT => true | _ => false end.

Definition ReadFile (fs : FS) (name : string) : text + fs_error :=
  if bool_decide (name ∈ denied fs) then inr EACCES
  else match files fs !! name with
       | Some data => inl data
       | None => if is_dir fs name then inr EISDIR else inr ENOENT
       end.

Definition MkdirAll (fs : FS) (path : string) : FS + fs_error :=
  if is_dir fs path then inl fs
  else match files fs !! path with
       | Some _ => inr ENOTDIR
       | None =>
         if bool_decide (path ∈ denied fs) then inr EACCES
         else inl (mkFS (files fs) ({[path]} ∪ dirs fs) (denied fs))
       end.

(** What the file holds once [n] bytes of [data] have been written:
    [WriteFile] opens with O_WRONLY|O_CREATE|O_TRUNC and then writes,
    so the file is emptied before the first byte arrives. *)
Definition written (fs : FS) (name : string) (data : text) (n : nat) : FS :=
  mkFS (<[name := take n data]> (files fs)) (dirs fs) (denied fs).

Definition WriteFile_check (fs : FS) (name : string) : option fs_error :=
  if is_dir fs name then Some EISDIR
  else if negb (is_dir fs (golib.Dir name)) then Some ENOENT
  else if bool_decide (name ∈ denied fs) then Some EACCES
  else None.

Definition WriteFile (fs : FS) (name : string) (data : text) : FS + fs_error :=
  match WriteFile_check fs name with
  | Some e => inr e
  | None => inl (written fs name data (length data))
  end.

(** The file system a crash leaves behind when it strikes after [n]
    bytes of the write. *)
Definition WriteFile_crashed (fs : FS) (name : string) (data : text) (n : nat) : FS :=
  match WriteFile_check fs name with
  | Some _ => fs
  | None => written fs name data n
  end.

End os.

(** ** net/http as the handler sees it *)

Module http.
Import golib.

(** An outgoing request. *)
Record Request := mkRequest {
  Method : string;
  URL : string;
  ReqHeader : Header
}.

(** A response; [Body = None] when reading the body fails. *)
Record Response := mkResponse {
  StatusCode : Z;
  RespHeader : Header;
  Body : option text
}.

Inductive outcome := DoError (err : string) | DoResponse (resp : Response).

Definition StatusOK : Z := 200.

Definition NewRequest (method url : string) : option Request :=
  if url_Parse_ok url then Some (mkRequest method url ∅) else None.

Definition set_header (req : Request) (key value : string) : Request :=
  mkRequest (Method req) (URL req) (Header_Set (ReqHeader req) key value).

(** The inbound request handed to the middleware. *)
Record Inbound := mkInbound {
  InHeader : Header;
  RemoteAddr : string
}.

(** What a handler takes for an answer: a response with status 200
    whose body can be read and decodes. *)
Definition accepted {T : Type} (decode : text -> T * option jsondec.json_error)
    (o : outcome) : option (Response * T) :=
  match o with
  | DoError _ => None
  | DoResponse resp =>
    if (StatusCode resp =? StatusOK)%Z then
      match Body resp with
      | Some body =>
        match decode body with
        | (v, None) => Some (resp, v)
        | (_, Some _) => None
        end
      | None => None
      end
    else None
  end.

End http.

(** ** sync.RWMutex *)

Module sync.

Record RWMutex := mkRWMutex {
  writer : bool;
  readers : nat
}.

Definition unlocked : RWMutex := mkRWMutex false 0.

(** [Lock] and [RLock] return the mutex once acquired, [None] when the
    caller has to wait. *)
Definition Lock (m : RWMutex) : option RWMutex :=
  if writer m || negb (readers m =? 0)%nat then None
  else Some (mkRWMutex true (readers m)).

Definition Unlock (m : RWMutex) : RWMutex := mkRWMutex false (readers m).

Definition RLock (m : RWMutex) : option RWMutex :=
  if writer m then None else Some (mkRWMutex false (S (readers m))).

Definition RUnlock (m : RWMutex) : RWMutex :=
  mkRWMutex (writer m) (pred (readers m)).

End sync.


(** ** caddyconfig/caddyfile: the token dispenser

  The tokens of one directive as the Caddyfile lexer hands them over,
  and the methods of [Dispenser] that tailscale.go calls (Caddy v2;
  [httpcaddyfile.Helper] embeds the dispenser, so its [Next], [NextArg],
  [NextBlock], [Val] and [ArgErr] are these). An error is its message;
  the position [WrapErr] appends to it (file, line, import chain) is
  left out. *)

Module caddyfile.
Import golib.
Local Open Scope string_scope.
Local Open Scope Z_scope.

(** The fields of [Token] the dispenser reads; [wasQuoted] is the
    enclosing quote character, 0 if none. *)
Record Token := mkToken {
  File : string;
  imports : list string;
  Line : Z;
  Text : string;
  wasQuoted : N
}.

(** [strings.Count] for a one-byte separator. *)
Fixpoint CountByte (s : text) (b : N) : Z :=
  match s with
  | [] => 0
  | c :: r => (if (code c =? b)%N then 1 else 0) + CountByte r b
  end.

(** [Token.NumLineBreaks]: a heredoc (opened by [<]) counts two more,
    for the lines of its markers. *)
Definition NumLineBreaks (t : Token) : Z :=
  CountByte (txt (Text t)) 0x0A
  + (if (wasQuoted t =? 0x3C)%N then 2 else 0).

(** [isNextOnNewLine]: another file, another import chain, or a line
    past the one on which [t1] ends. *)
Definition isNextOnNewLine (t1 t2 : Token) : bool :=
  if negb (String.eqb (File t1) (File t2)) then true
  else if negb (length (imports t1) =? length (imports t2))%nat then true
  else if existsb (fun p : string * string => negb (String.eqb p.1 p.2))
            (zip (imports t1) (imports t2)) then true
  else Line t1 + NumLineBreaks t1 <? Line t2.

Record Dispenser := mkDispenser {
  tokens : list Token;
  cursor : Z;
  nesting : Z
}.

Definition NewDispenser (tokens : list Token) : Dispenser := mkDispenser tokens (-1) 0.

Definition len (d : Dispenser) : Z := Z.of_nat (length (tokens d)).

Definition move (d : Dispenser) (c : Z) : Dispenser := mkDispenser (tokens d) c (nesting d).

Definition nest (d : Dispenser) (n : Z) : Dispenser := mkDispenser (tokens d) (cursor d) n.

(** [Val]: the text of the current token, empty outside the tokens. *)
Definition Val (d : Dispenser) : string :=
  if (cursor d <? 0) || (len d <=? cursor d) then ""
  else match tokens d !! Z.to_nat (cursor d) with
       | Some t => Text t
       | None => ""
       end.

(** [Next] loads the next token, if there is one. *)
Definition Next (d : Dispenser) : bool * Dispenser :=
  if cursor d <? len d - 1 then (true, move d (cursor d + 1)) else (false, d).

(** [nextOnSameLine] advances if the next token is on the same line.
    Both tokens are inside the slice when they are read. *)
Definition nextOnSameLine (d : Dispenser) : bool * Dispenser :=
  if cursor d <? 0 then (true, move d (cursor d + 1))
  else if len d - 1 <=? cursor d then (false, d)
  else
    match tokens d !! Z.to_nat (cursor d), tokens d !! Z.to_nat (cursor d + 1) with
    | Some curr, Some next =>
      if negb (isNextOnNewLine curr next) then (true, move d (cursor d + 1)) else (false, d)
    | _, _ => (false, d)
    end.

(** [NextArg] loads the next token if it is on the same line and does
    not open a block. *)
Definition NextArg (d : Dispenser) : bool * Dispenser :=
  let '(ok, d1) := nextOnSameLine d in
  if negb ok then (false, d1)
  else if String.eqb (Val d1) "{" then (false, move d1 (cursor d1 - 1))
  else (true, d1).

(** The test [d.Val() == "{" && !d.nextOnSameLine()] of NextBlock and
    the increment it guards; the call advances the cursor when it finds
    the next token on the same line. *)
Definition block_opens (d : Dispenser) : Dispenser :=
  if String.eqb (Val d) "{" then
    let '(same, d1) := nextOnSameLine d in
    if negb same then nest d1 (nesting d1 + 1) else d1
  else d.

(** [NextBlock]: inside a block, the next token, counting the braces
    that end a line; before a block, the brace that opens it on the same
    line, consumed together with the token after it. *)
Definition NextBlock (d : Dispenser) (initialNestingLevel : Z) : bool * Dispenser :=
  if initialNestingLevel <? nesting d then
    let '(ok, d1) := Next d in
    if negb ok then (false, d1)
    else
      let d2 :=
        if String.eqb (Val d1) "}" then
          let '(same, d') := nextOnSameLine d1 in
          if negb same then nest d' (nesting d' - 1) else block_opens d'
        else block_opens d1 in
      (initialNestingLevel <? nesting d2, d2)
  else
    let '(ok, d1) := nextOnSameLine d in
    if negb ok then (false, d1)
    else if negb (String.eqb (Val d1) "{") then (false, move d1 (cursor d1 - 1))
    else
      let '(_, d2) := Next d1 in
      if String.eqb (Val d2) "}" then (false, d2)
      else (true, nest d2 (nesting d2 + 1)).

Definition error : Type := string.

(** [ArgErr]. *)
Definition ArgErr (d : Dispenser) : error :=
  if String.eqb (Val d) "{" then "unexpected token '{', expecting argument"
  else "wrong argument count or unexpected line ending after '" +:+ Val d +:+ "'".

(** [Errf] with the format ["unrecognized subdirective: %s"]. *)
Definition Errf_unrecognized (val : string) : error :=
  "unrecognized subdirective: " +:+ val.

(** The loops [for d.NextBlock(0) { ... }] and [for d.Next() { ... }]
    around a body that changes the dispenser and a value [T] and may
    return an error, which ends the loops. [None]: the rounds allowed
    are used up. *)
Fixpoint for_NextBlock {T : Type} (fuel : nat)
    (body : Dispenser -> T -> Dispenser * T * option error)
    (d : Dispenser) (t : T) : option (Dispenser * T * option error) :=
  match fuel with
  | O => None
  | S fuel' =>
    let '(ok, d1) := NextBlock d 0 in
    if negb ok then Some (d1, t, None)
    else
      match body d1 t with
      | (d2, t2, Some e) => Some (d2, t2, Some e)
      | (d2, t2, None) => for_NextBlock fuel' body d2 t2
      end
  end.

Fixpoint for_Next {T : Type} (fuel : nat)
    (body : Dispenser -> T -> option (Dispenser * T * option error))
    (d : Dispenser) (t : T) : option (Dispenser * T * option error) :=
  match fuel with
  | O => None
  | S fuel' =>
    let '(ok, d1) := Next d in
    if negb ok then Some (d1, t, None)
    else
      match body d1 t with
      | None => None
      | Some (d2, t2, Some e) => Some (d2, t2, Some e)
      | Some (d2, t2, None) => for_Next fuel' body d2 t2
      end
  end.

(** No loop over a dispenser runs more rounds than this: every round
    moves the cursor forward, and the cursor stays inside the tokens. *)
Definition rounds (d : Dispenser) : nat :=
  S (Z.to_nat (Z.max (len d) 1 - cursor d)).

(** The two nested loops of UnmarshalCaddyfile and parseCaddyfile. *)
Definition directive_loops {T : Type}
    (body : Dispenser -> T -> Dispenser * T * option error)
    (d : Dispenser) (t : T) : option (Dispenser * T * option error) :=
  for_Next (rounds d) (fun d t => for_NextBlock (rounds d) body d t) d t.

End caddyfile.
(** ** tailscale.go: the cached bulk-lookup handler *)

Module Cached.
Import golib json jsondec.
Local Open Scope string_scope.

(** Device represents a Tailscale device from the API. *)
Record Device := mkDevice {
  Addresses : list string;
  Authorized : bool;
  BlocksIncomingConnections : bool;
  ClientVersion : string;
  Created : string;
  Expires : string;
  Hostname : string;
  ID : string;
  IsExternal : bool;
  KeyExpiryDisabled : bool;
  LastSeen : string;
  MachineKey : string;
  Name : string;
  NodeID : string;
  NodeKey : string;
  OS : string;
  TailnetLockError : string;
  TailnetLockKey : string;
  UpdateAvailable : bool;
  User : string
}.

Definition zeroDevice : Device :=
  mkDevice [] false false "" "" "" "" "" false false "" "" "" "" "" "" "" "" false "".

(** DevicesResponse represents the response from the devices API. *)
Record DevicesResponse := mkDevicesResponse {
  Devices : list Device
}.

(** DeviceCache: [IPToDevice] is a [map[string]*Device]; a key may
    hold the nil pointer, which is [None] here. *)
Record DeviceCache := mkDeviceCache {
  IPToDevice : gmap string (option Device);
  LastUpdate : string
}.

Record TailscaleAuth := mkTailscaleAuth {
  APIKey : string;
  Tailnet : string;
  HeaderPrefix : string;
  CacheFile : string;
  deviceCache : DeviceCache;
  cacheMutex : sync.RWMutex
}.

(** *** The struct tags, as encoding/json reads them *)

Definition store_Device (old : Device) (v : value) : Device :=
  match v with
  | JObject kvs =>
    {| Addresses := field (store_slice store_string "") "addresses" kvs (Addresses old);
       Authorized := field store_bool "authorized" kvs (Authorized old);
       BlocksIncomingConnections :=
         field store_bool "blocksIncomingConnections" kvs (BlocksIncomingConnections old);
       ClientVersion := field store_string "clientVersion" kvs (ClientVersion old);
       Created := field store_string "created" kvs (Created old);
       Expires := field store_string "expires" kvs (Expires old);
       Hostname := field store_string "hostname" kvs (Hostname old);
       ID := field store_string "id" kvs (ID old);
       IsExternal := field store_bool "isExternal" kvs (IsExternal old);
       KeyExpiryDisabled := field store_bool "keyExpiryDisabled" kvs (KeyExpiryDisabled old);
       LastSeen := field store_string "lastSeen" kvs (LastSeen old);
       MachineKey := field store_string "machineKey" kvs (MachineKey old);
       Name := field store_string "name" kvs (Name old);
       NodeID := field store_string "nodeId" kvs (NodeID old);
       NodeKey := field store_string "nodeKey" kvs (NodeKey old);
       OS := field store_string "os" kvs (OS old);
       TailnetLockError := field store_string "tailnetLockError" kvs (TailnetLockError old);
       TailnetLockKey := field store_string "tailnetLockKey" kvs (TailnetLockKey old);
       UpdateAvailable := field store_bool "updateAvailable" kvs (UpdateAvailable old);
       User := field store_string "user" kvs (User old) |}
  | _ => old
  end.

Definition ok_Device (v : value) : bool :=
  match v with
  | JNull => true
  | JObject kvs =>
    field_ok (ok_slice ok_string) "addresses" kvs
    && forallb (fun tag => field_ok ok_bool tag kvs)
         ["authorized"; "blocksIncomingConnections"; "isExternal";
          "keyExpiryDisabled"; "updateAvailable"]
    && forallb (fun tag => field_ok ok_string tag kvs)
         ["clientVersion"; "created"; "expires"; "hostname"; "id"; "lastSeen";
          "machineKey"; "name"; "nodeId"; "nodeKey"; "os"; "tailnetLockError";
          "tailnetLockKey"; "user"]
  | _ => false
  end.

(** A [*Device] map element starts out nil: null leaves it nil, any
    other value allocates the record first. *)
Definition store_DevicePtr (v : value) : option Device :=
  match v with
  | JNull => None
  | _ => Some (store_Device zeroDevice v)
  end.

(** A JSON object is merged into the map that is there; null clears it. *)
Definition store_IPToDevice (old : gmap string (option Device)) (v : value)
  : gmap string (option Device) :=
  match v with
  | JNull => ∅
  | JObject kvs => fold_left (fun m kv => <[kv.1 := store_DevicePtr kv.2]> m) kvs old
  | _ => old
  end.

Definition ok_IPToDevice (v : value) : bool :=
  match v with
  | JNull => true
  | JObject kvs => forallb (fun kv => ok_Device kv.2) kvs
  | _ => false
  end.

Definition store_DeviceCache (old : DeviceCache) (v : value) : DeviceCache :=
  match v with
  | JObject kvs =>
    {| IPToDevice := field store_IPToDevice "ip_to_device" kvs (IPToDevice old);
       LastUpdate := field store_string "last_update" kvs (LastUpdate old) |}
  | _ => old
  end.

Definition ok_DeviceCache (v : value) : bool :=
  match v with
  | JNull => true
  | JObject kvs =>
    field_ok ok_IPToDevice "ip_to_device" kvs && field_ok ok_string "last_update" kvs
  | _ => false
  end.

Definition store_DevicesResponse (old : DevicesResponse) (v : value) : DevicesResponse :=
  match v with
  | JObject kvs =>
    {| Devices := field (store_slice store_Device zeroDevice) "devices" kvs (Devices old) |}
  | _ => old
  end.

Definition ok_DevicesResponse (v : value) : bool :=
  match v with
  | JNull => true
  | JObject kvs => field_ok (ok_slice ok_Device) "devices" kvs
  | _ => false
  end.

(** [json.Unmarshal(data, t.deviceCache)]: a syntax error leaves the
    target untouched. *)
Definition Unmarshal_DeviceCache (data : text) (old : DeviceCache)
  : DeviceCache * option json_error :=
  match parse data with
  | None => (old, Some SyntaxError)
  | Some v =>
    (store_DeviceCache old v, if ok_DeviceCache v then None else Some UnmarshalTypeError)
  end.

(** [json.Unmarshal(body, &devicesResp)] into a fresh variable. *)
Definition Unmarshal_DevicesResponse (body : text) : DevicesResponse * option json_error :=
  match parse body with
  | None => (mkDevicesResponse [], Some SyntaxError)
  | Some v =>
    (store_DevicesResponse (mkDevicesResponse []) v,
     if ok_DevicesResponse v then None else Some UnmarshalTypeError)
  end.

(** Struct fields are written in declaration order, none omitted; an
    empty address list is the nil slice and prints as null. *)
Definition strings_to_json (l : list string) : value :=
  match l with
  | [] => JNull
  | _ => JArray (JString <$> l)
  end.

Definition Device_to_json (d : Device) : value :=
  JObject
    [("addresses", strings_to_json (Addresses d));
     ("authorized", JBool (Authorized d));
     ("blocksIncomingConnections", JBool (BlocksIncomingConnections d));
     ("clientVersion", JString (ClientVersion d));
     ("created", JString (Created d));
     ("expires", JString (Expires d));
     ("hostname", JString (Hostname d));
     ("id", JString (ID d));
     ("isExternal", JBool (IsExternal d));
     ("keyExpiryDisabled", JBool (KeyExpiryDisabled d));
     ("lastSeen", JString (LastSeen d));
     ("machineKey", JString (MachineKey d));
     ("name", JString (Name d));
     ("nodeId", JString (NodeID d));
     ("nodeKey", JString (NodeKey d));
     ("os", JString (OS d));
     ("tailnetLockError", JString (TailnetLockError d));
     ("tailnetLockKey", JString (TailnetLockKey d));
     ("updateAvailable", JBool (UpdateAvailable d));
     ("user", JString (User d))].

Definition DevicePtr_to_json (p : option Device) : value :=
  match p with
  | None => JNull
  | Some d => Device_to_json d
  end.

Definition key_le (a b : string * option Device) : Prop :=
  String.leb a.1 b.1 = true.

#[global] Instance key_le_dec a b : Decision (key_le a b).
Proof. unfold key_le. apply _. Defined.

(** Map keys are written in sorted order. *)
Definition DeviceCache_to_json (c : DeviceCache) : value :=
  JObject
    [("ip_to_device",
      JObject ((fun kv : string * option Device => (kv.1, DevicePtr_to_json kv.2))
                 <$> merge_sort key_le (map_to_list (IPToDevice c))));
     ("last_update", JString (LastUpdate c))].

(** [json.MarshalIndent(t.deviceCache, "", "  ")]; no value of this
    type makes it fail. *)
Definition MarshalIndent (c : DeviceCache) : text * option json_error :=
  (print 0 (DeviceCache_to_json c), None).

(** *** The world around the handler, and one goroutine's run in it *)

Inductive level := Info | Warn | Error.

Inductive error :=
| ErrTailnetRequired
| ErrAPIKeyRequired
| ErrReadCache (e : os.fs_error)
| ErrUnmarshalCache (e : json_error)
| ErrMkdir (e : os.fs_error)
| ErrMarshal (e : json_error)
| ErrWriteFile (e : os.fs_error)
| ErrCreateRequest
| ErrMakeRequest (e : string)
| ErrStatus (status : Z)
| ErrReadBody
| ErrUnmarshalResponse (e : json_error)
| ErrRefresh (e : error)
| ErrDeviceNotFound (clientIP : string).

(** The message of each error, as [fmt.Errorf] formats its head. *)
Definition error_message (e : error) : string :=
  match e with
  | ErrTailnetRequired => "tailnet is required"
  | ErrAPIKeyRequired => "api_key is required"
  | ErrReadCache _ => "failed to read cache file"
  | ErrUnmarshalCache _ => "failed to unmarshal cache"
  | ErrMkdir _ => "failed to create cache directory"
  | ErrMarshal _ => "failed to marshal cache"
  | ErrWriteFile _ => "failed to write cache file"
  | ErrCreateRequest => "failed to create request"
  | ErrMakeRequest _ => "failed to make request"
  | ErrStatus _ => "API request failed with status"
  | ErrReadBody => "failed to read response body"
  | ErrUnmarshalResponse _ => "failed to unmarshal response"
  | ErrRefresh _ => "failed to refresh device cache"
  | ErrDeviceNotFound _ => "device not found for IP even after cache refresh"
  end.

(** The directory service answers the [n]-th request of the run; the
    requests sent, the disk and the log are what the handler changes. *)
Record World := mkWorld {
  net : nat -> http.Request -> http.outcome;
  sent : list http.Request;
  fs : os.FS;
  log : list (level * string)
}.

Record State := mkState {
  auth : TailscaleAuth;
  world : World
}.

(** A call returns, or waits on the mutex for ever ([Blocked]: no one
    else will release a lock this goroutine holds itself), or
    dereferences a nil pointer ([Panic]). *)
Inductive outcome (A : Type) :=
| Ret (a : A) (s : State)
| Blocked (s : State)
| Panic (s : State).
Arguments Ret {A} a s.
Arguments Blocked {A} s.
Arguments Panic {A} s.

Definition M (A : Type) : Type := State -> outcome A.

Definition ret {A} (a : A) : M A := fun s => Ret a s.

Definition bind {A B} (m : M A) (k : A -> M B) : M B :=
  fun s =>
    match m s with
    | Ret a s' => k a s'
    | Blocked s' => Blocked s'
    | Panic s' => Panic s'
    end.

Notation "'let!' x ':=' m 'in' k" := (bind m (fun x => k))
  (at level 10, x name, m at level 100, k at level 200).
Notation "m '>>' k" := (bind m (fun _ => k))
  (at level 100, k at level 200, right associativity).

(** The state a run ends or hangs in. *)
Definition final {A} (o : outcome A) : State :=
  match o with
  | Ret _ s => s
  | Blocked s => s
  | Panic s => s
  end.

Definition get_auth : M TailscaleAuth := fun s => Ret (auth s) s.
Definition get_cache : M DeviceCache := fun s => Ret (deviceCache (auth s)) s.

Definition with_cache (t : TailscaleAuth) (c : DeviceCache) : TailscaleAuth :=
  mkTailscaleAuth (APIKey t) (Tailnet t) (HeaderPrefix t) (CacheFile t) c (cacheMutex t).

Definition with_mutex (t : TailscaleAuth) (m : sync.RWMutex) : TailscaleAuth :=
  mkTailscaleAuth (APIKey t) (Tailnet t) (HeaderPrefix t) (CacheFile t) (deviceCache t) m.

Definition set_cache (c : DeviceCache) : M unit :=
  fun s => Ret tt (mkState (with_cache (auth s) c) (world s)).

Definition set_auth (t : TailscaleAuth) : M unit :=
  fun s => Ret tt (mkState t (world s)).

Definition logf (l : level) (msg : string) : M unit :=
  fun s =>
    let w := world s in
    Ret tt (mkState (auth s) (mkWorld (net w) (sent w) (fs w) (log w ++ [(l, msg)]))).

Definition Lock : M unit :=
  fun s =>
    match sync.Lock (cacheMutex (auth s)) with
    | Some m => Ret tt (mkState (with_mutex (auth s) m) (world s))
    | None => Blocked s
    end.

Definition RLock : M unit :=
  fun s =>
    match sync.RLock (cacheMutex (auth s)) with
    | Some m => Ret tt (mkState (with_mutex (auth s) m) (world s))
    | None => Blocked s
    end.

Definition Unlock : M unit :=
  fun s => Ret tt (mkState (with_mutex (auth s) (sync.Unlock (cacheMutex (auth s)))) (world s)).

Definition RUnlock : M unit :=
  fun s => Ret tt (mkState (with_mutex (auth s) (sync.RUnlock (cacheMutex (auth s)))) (world s)).

Definition with_fs (w : World) (f : os.FS) : World :=
  mkWorld (net w) (sent w) f (log w).

Definition os_ReadFile (name : string) : M (text + os.fs_error) :=
  fun s => Ret (os.ReadFile (fs (world s)) name) s.

Definition os_MkdirAll (path : string) : M (option os.fs_error) :=
  fun s =>
    match os.MkdirAll (fs (world s)) path with
    | inl f => Ret None (mkState (auth s) (with_fs (world s) f))
    | inr e => Ret (Some e) s
    end.

Definition os_WriteFile (name : string) (data : text) : M (option os.fs_error) :=
  fun s =>
    match os.WriteFile (fs (world s)) name data with
    | inl f => Ret None (mkState (auth s) (with_fs (world s) f))
    | inr e => Ret (Some e) s
    end.

(** [client.Do(req)]: one request to the directory service. *)
Definition client_Do (req : http.Request) : M http.outcome :=
  fun s =>
    let w := world s in
    Ret (net w (length (sent w)) req)
        (mkState (auth s) (mkWorld (net w) (sent w ++ [req]) (fs w) (log w))).

(** *** loadDeviceCache, saveDeviceCache *)

(** getCacheFilePath returns the full path to the cache file. *)
Definition getCacheFilePath (t : TailscaleAuth) : string :=
  if IsAbs (CacheFile t) then CacheFile t
  else CacheFile t.

(** loadDeviceCache loads the device cache from disk. *)
Definition loadDeviceCache : M (option error) :=
  let! t := get_auth in
  let cacheFile := getCacheFilePath t in
  let! r := os_ReadFile cacheFile in
  match r with
  | inr err =>
    if os.IsNotExist err then ret None
    else ret (Some (ErrReadCache err))
  | inl data =>
    Lock >>
    let! c := get_cache in
    let '(c', err) := Unmarshal_DeviceCache data c in
    set_cache c' >>
    match err with
    | Some e => Unlock >> ret (Some (ErrUnmarshalCache e))
    | None =>
      logf Info "loaded device cache" >>
      Unlock >>
      ret None
    end
  end.

(** saveDeviceCache saves the device cache to disk. *)
Definition saveDeviceCache : M (option error) :=
  let! t := get_auth in
  let cacheFile := getCacheFilePath t in
  let! err := os_MkdirAll (Dir cacheFile) in
  match err with
  | Some e => ret (Some (ErrMkdir e))
  | None =>
    RLock >>
    let! c := get_cache in
    let '(data, err) := MarshalIndent c in
    RUnlock >>
    match err with
    | Some e => ret (Some (ErrMarshal e))
    | None =>
      let! err := os_WriteFile cacheFile data in
      match err with
      | Some e => ret (Some (ErrWriteFile e))
      | None => ret None
      end
    end
  end.

(** *** refreshDeviceCache *)

Definition devices_url (t : TailscaleAuth) : string :=
  "https://api.tailscale.com/api/v2/tailnet/" +:+ Tailnet t +:+ "/devices".

Definition devices_request (t : TailscaleAuth) : option http.Request :=
  match http.NewRequest "GET" (devices_url t) with
  | None => None
  | Some req =>
    Some (http.set_header
            (http.set_header req "Authorization" ("Bearer " +:+ APIKey t))
            "User-Agent" "Caddy-Tailscale-Auth/1.0")
  end.

(** The first half of refreshDeviceCache: request, status check, body
    and decoding, up to the point where the mutex is taken. *)
Definition fetchDevices : M (http.Response * DevicesResponse + error) :=
  let! t := get_auth in
  match devices_request t with
  | None => ret (inr ErrCreateRequest)
  | Some req =>
    let! r := client_Do req in
    match r with
    | http.DoError e => ret (inr (ErrMakeRequest e))
    | http.DoResponse resp =>
      if negb (http.StatusCode resp =? http.StatusOK)%Z
      then ret (inr (ErrStatus (http.StatusCode resp)))
      else
        match http.Body resp with
        | None => ret (inr ErrReadBody)
        | Some body =>
          match Unmarshal_DevicesResponse body with
          | (_, Some e) => ret (inr (ErrUnmarshalResponse e))
          | (devicesResp, None) => ret (inl (resp, devicesResp))
          end
        end
    end
  end.

(** The two nested loops that fill the map: every address of every
    device, later devices overwriting earlier ones. *)
Definition populate (devices : list Device) (m : gmap string (option Device))
  : gmap string (option Device) :=
  fold_left
    (fun m device => fold_left (fun m addr => <[addr := Some device]> m) (Addresses device) m)
    devices m.

(** refreshDeviceCache fetches the latest device list from the API.
    The deferred Unlock runs when the function returns. *)
Definition refreshDeviceCache : M (option error) :=
  let! r := fetchDevices in
  match r with
  | inr err => ret (Some err)
  | inl (resp, devicesResp) =>
    Lock >>
    let! c := get_cache in
    set_cache (mkDeviceCache ∅ (LastUpdate c)) >>
    let! c := get_cache in
    set_cache (mkDeviceCache (populate (Devices devicesResp) (IPToDevice c)) (LastUpdate c)) >>
    let! c := get_cache in
    set_cache (mkDeviceCache (IPToDevice c) (Header_Get (http.RespHeader resp) "Date")) >>
    logf Info "refreshed device cache" >>
    let! err := saveDeviceCache in
    (match err with
     | Some _ => logf Error "failed to save device cache"
     | None => ret tt
     end) >>
    Unlock >>
    ret None
  end.

(** *** getDeviceByIP *)

(** The lookup under the read lock. *)
Definition lookup_locked (clientIP : string) : M (option (option Device)) :=
  RLock >>
  let! c := get_cache in
  let r := IPToDevice c !! clientIP in
  RUnlock >>
  ret r.

(** The second check of getDeviceByIP, after the refresh has returned. *)
Definition recheck (clientIP : string) : M (option Device * option error) :=
  let! r := lookup_locked clientIP in
  match r with
  | Some (Some device) => ret (Some device, None)
  | _ => ret (None, Some (ErrDeviceNotFound clientIP))
  end.

(** The miss path of getDeviceByIP: refresh, then check again. *)
Definition refresh_and_recheck (clientIP : string) : M (option Device * option error) :=
  logf Info "unknown device IP, refreshing cache" >>
  let! err := refreshDeviceCache in
  match err with
  | Some e => ret (None, Some (ErrRefresh e))
  | None => recheck clientIP
  end.

(** getDeviceByIP returns the device for the given IP address,
    refreshing the cache if needed. The result is Go's pair of a
    [*Device] and an [error]. *)
Definition getDeviceByIP (clientIP : string) : M (option Device * option error) :=
  let! r := lookup_locked clientIP in
  match r with
  | Some (Some device) => ret (Some device, None)
  | _ => refresh_and_recheck clientIP
  end.

(** *** getClientIP, addDeviceHeaders, ServeHTTP *)

(** getClientIP extracts the client IP from the request. *)
Definition getClientIP (r : http.Inbound) : string :=
  let xff := Header_Get (http.InHeader r) "X-Forwarded-For" in
  if negb (String.eqb xff "") then
    match cut 0x2C (txt xff) with
    | (first, Some _) => TrimSpace (str first)
    | (_, None) => TrimSpace xff
    end
  else
    let xri := Header_Get (http.InHeader r) "X-Real-IP" in
    if negb (String.eqb xri "") then xri
    else
      match SplitHostPort (http.RemoteAddr r) with
      | Some host => host
      | None => http.RemoteAddr r
      end.

Definition format_bool (b : bool) : string := if b then "true" else "false".

(** The name/value pairs addDeviceHeaders sets, in the order of its
    [r.Header.Set] calls. *)
Definition deviceHeaders (t : TailscaleAuth) (device : Device) : list (string * string) :=
  [(HeaderPrefix t +:+ "Device-ID", ID device);
   (HeaderPrefix t +:+ "Device-Name", Name device);
   (HeaderPrefix t +:+ "Device-User", User device);
   (HeaderPrefix t +:+ "Device-Hostname", Hostname device);
   (HeaderPrefix t +:+ "Device-OS", OS device);
   (HeaderPrefix t +:+ "Device-Authorized", format_bool (Authorized device));
   (HeaderPrefix t +:+ "Device-NodeID", NodeID device)]
  ++ (if (0 <? length (Addresses device))%nat
      then [(HeaderPrefix t +:+ "Device-Addresses", Join (Addresses device) ",")]
      else [])
  ++ [(HeaderPrefix t +:+ "Device-ClientVersion", ClientVersion device);
      (HeaderPrefix t +:+ "Device-LastSeen", LastSeen device);
      (HeaderPrefix t +:+ "Device-Created", Created device)].

(** addDeviceHeaders adds device information to request headers. *)
Definition addDeviceHeaders (t : TailscaleAuth) (r : http.Inbound) (device : Device)
  : http.Inbound :=
  http.mkInbound
    (fold_left (fun h kv => Header_Set h kv.1 kv.2) (deviceHeaders t device) (http.InHeader r))
    (http.RemoteAddr r).

(** ServeHTTP implements caddyhttp.MiddlewareHandler; [next] is the
    downstream handler, called with the request as it then is. *)
Definition ServeHTTP {A} (r : http.Inbound) (next : http.Inbound -> M A) : M A :=
  let clientIP := getClientIP r in
  if String.eqb clientIP "" then
    logf Warn "could not determine client IP" >>
    next r
  else
    let! res := getDeviceByIP clientIP in
    match res with
    | (_, Some err) =>
      logf Error "failed to get device info" >>
      next r
    | (Some device, None) =>
      let! t := get_auth in
      next (addDeviceHeaders t r device)
    | (None, None) => fun s => Panic s
    end.

(** *** Provision, Validate *)

(** Validate implements caddy.Validator. *)
Definition Validate (t : TailscaleAuth) : option error :=
  if String.eqb (Tailnet t) "" then Some ErrTailnetRequired
  else if String.eqb (APIKey t) "" then Some ErrAPIKeyRequired
  else None.

(** Provision implements caddy.Provisioner. *)
Definition Provision : M (option error) :=
  let! t := get_auth in
  let t := if String.eqb (HeaderPrefix t) ""
           then mkTailscaleAuth (APIKey t) (Tailnet t) "X-Tailscale-" (CacheFile t)
                  (deviceCache t) (cacheMutex t)
           else t in
  let t := if String.eqb (CacheFile t) ""
           then mkTailscaleAuth (APIKey t) (Tailnet t) (HeaderPrefix t)
                  "tailscale_devices.json" (deviceCache t) (cacheMutex t)
           else t in
  set_auth t >>
  if String.eqb (Tailnet t) "" then ret (Some ErrTailnetRequired)
  else if String.eqb (APIKey t) "" then ret (Some ErrAPIKeyRequired)
  else
    set_cache (mkDeviceCache ∅ "") >>
    let! err := loadDeviceCache in
    (match err with
     | Some _ => logf Warn "failed to load device cache, starting with empty cache"
     | None => ret tt
     end) >>
    ret None.

(** The disk a crash leaves behind when it strikes saveDeviceCache
    during its WriteFile, after [n] bytes of the marshalled cache. *)
Definition saveDeviceCache_crashed (n : nat) (s : State) : os.FS :=
  let t := auth s in
  let cacheFile := getCacheFilePath t in
  match os.MkdirAll (fs (world s)) (Dir cacheFile) with
  | inr _ => fs (world s)
  | inl f => os.WriteFile_crashed f cacheFile (MarshalIndent (deviceCache t)).1 n
  end.

(** A process started afresh on a disk: the configuration of [t], the
    cache Provision sets up, the mutex unlocked. *)
Definition restarted (t : TailscaleAuth) (w : World) (disk : os.FS) : State :=
  mkState
    (mkTailscaleAuth (APIKey t) (Tailnet t) (HeaderPrefix t) (CacheFile t)
       (mkDeviceCache ∅ "") sync.unlocked)
    (mkWorld (net w) (sent w) disk (log w)).

(** *** Vocabulary for the properties *)

Definition cache_of (s : State) : DeviceCache := deviceCache (auth s).
Definition mutex_of (s : State) : sync.RWMutex := cacheMutex (auth s).

(** No goroutine holds or awaits the mutex. *)
Definition idle (s : State) : Prop := mutex_of s = sync.unlocked.

(** The request a refresh sends, if the URL can be built. *)
Definition refresh_requests (s : State) : list http.Request :=
  match devices_request (auth s) with
  | Some req => [req]
  | None => []
  end.

(** Whether saveDeviceCache gets past its MkdirAll. *)
Definition cache_dir_ok (s : State) : bool :=
  match os.MkdirAll (fs (world s)) (Dir (getCacheFilePath (auth s))) with
  | inl _ => true
  | inr _ => false
  end.


(** *** UnmarshalCaddyfile, parseCaddyfile *)

(** The handler as [var t TailscaleAuth] declares it; the cache
    pointer, nil until Provision sets it, is the empty cache here. *)
Definition zeroTailscaleAuth : TailscaleAuth :=
  mkTailscaleAuth "" "" "" "" (mkDeviceCache ∅ "") sync.unlocked.

Definition set_APIKey (t : TailscaleAuth) (v : string) : TailscaleAuth :=
  mkTailscaleAuth v (Tailnet t) (HeaderPrefix t) (CacheFile t) (deviceCache t) (cacheMutex t).

Definition set_Tailnet (t : TailscaleAuth) (v : string) : TailscaleAuth :=
  mkTailscaleAuth (APIKey t) v (HeaderPrefix t) (CacheFile t) (deviceCache t) (cacheMutex t).

Definition set_HeaderPrefix (t : TailscaleAuth) (v : string) : TailscaleAuth :=
  mkTailscaleAuth (APIKey t) (Tailnet t) v (CacheFile t) (deviceCache t) (cacheMutex t).

Definition set_CacheFile (t : TailscaleAuth) (v : string) : TailscaleAuth :=
  mkTailscaleAuth (APIKey t) (Tailnet t) (HeaderPrefix t) v (deviceCache t) (cacheMutex t).

(** A subdirective that must have an argument: [if !d.NextArg() {
    return d.ArgErr() }] and the assignment of [d.Val()]. *)
Definition required_arg (set : TailscaleAuth -> string -> TailscaleAuth)
    (d : caddyfile.Dispenser) (t : TailscaleAuth)
  : caddyfile.Dispenser * TailscaleAuth * option caddyfile.error :=
  let '(ok, d1) := caddyfile.NextArg d in
  if negb ok then (d1, t, Some (caddyfile.ArgErr d1))
  else (d1, set t (caddyfile.Val d1), None).

(** The switch inside the loops of UnmarshalCaddyfile. *)
Definition UnmarshalCaddyfile_switch (d : caddyfile.Dispenser) (m : TailscaleAuth)
  : caddyfile.Dispenser * TailscaleAuth * option caddyfile.error :=
  let val := caddyfile.Val d in
  if String.eqb val "api_key" then required_arg set_APIKey d m
  else if String.eqb val "tailnet" then required_arg set_Tailnet d m
  else if String.eqb val "header_prefix" then
    let '(ok, d1) := caddyfile.NextArg d in
    if negb ok then (d1, set_HeaderPrefix m "X-Tailscale-", None)
    else (d1, set_HeaderPrefix m (caddyfile.Val d1), None)
  else if String.eqb val "cache_file" then required_arg set_CacheFile d m
  else (d, m, None).

(** UnmarshalCaddyfile sets up the handler from Caddyfile tokens: the
    dispenser and the handler as the call leaves them, and the error. *)
Definition UnmarshalCaddyfile (d : caddyfile.Dispenser) (m : TailscaleAuth)
  : option (caddyfile.Dispenser * TailscaleAuth * option caddyfile.error) :=
  caddyfile.directive_loops UnmarshalCaddyfile_switch d m.

(** The switch inside the loops of parseCaddyfile. *)
Definition parseCaddyfile_switch (h : caddyfile.Dispenser) (t : TailscaleAuth)
  : caddyfile.Dispenser * TailscaleAuth * option caddyfile.error :=
  let val := caddyfile.Val h in
  if String.eqb val "api_key" then required_arg set_APIKey h t
  else if String.eqb val "tailnet" then required_arg set_Tailnet h t
  else if String.eqb val "header_prefix" then required_arg set_HeaderPrefix h t
  else if String.eqb val "cache_file" then required_arg set_CacheFile h t
  else (h, t, Some (caddyfile.Errf_unrecognized val)).

(** parseCaddyfile unmarshals tokens from h into a new handler: the
    handler, or the error with which it returns nil. *)
Definition parseCaddyfile (h : caddyfile.Dispenser)
  : option (TailscaleAuth + caddyfile.error) :=
  match caddyfile.directive_loops parseCaddyfile_switch h zeroTailscaleAuth with
  | None => None
  | Some (_, _, Some e) => Some (inr e)
  | Some (_, t, None) => Some (inl t)
  end.

End Cached.

(** ** tailscale.go, the earlier handler: one whois query per request *)

Module Direct.
Import golib json jsondec.
Local Open Scope string_scope.

Record TailscaleAuth := mkTailscaleAuth {
  APIKey : string;
  Tailnet : string;
  HeaderPrefix : string
}.

(** The [Node] and [UserProfile] members of WhoIsResponse; the field
    [Tailnet] of the first and [ID] of the second are [NodeTailnet]
    and [UserID] here. *)
Record Node := mkNode {
  ID : string;
  Name : string;
  User : string;
  NodeTailnet : string;
  Hostname : string;
  ClientVersion : string;
  OS : string;
  Created : string;
  LastSeen : string;
  Online : bool;
  Expired : bool;
  KeyExpiry : string;
  MachineKey : string;
  NodeKey : string;
  Addresses : list string;
  Tags : list string
}.

Record UserProfile := mkUserProfile {
  UserID : string;
  LoginName : string;
  DisplayName : string;
  ProfilePicURL : string
}.

(** WhoIsResponse represents the response from the whois API. *)
Record WhoIsResponse := mkWhoIsResponse {
  node : Node;
  userProfile : UserProfile;
  CapMap : gmap string (list string)
}.

Definition zeroWhoIs : WhoIsResponse :=
  mkWhoIsResponse
    (mkNode "" "" "" "" "" "" "" "" "" false false "" "" "" [] [])
    (mkUserProfile "" "" "" "")
    ∅.

Definition store_Node (old : Node) (v : value) : Node :=
  match v with
  | JObject kvs =>
    {| ID := field store_string "id" kvs (ID old);
       Name := field store_string "name" kvs (Name old);
       User := field store_string "user" kvs (User old);
       NodeTailnet := field store_string "tailnet" kvs (NodeTailnet old);
       Hostname := field store_string "hostname" kvs (Hostname old);
       ClientVersion := field store_string "clientVersion" kvs (ClientVersion old);
       OS := field store_string "os" kvs (OS old);
       Created := field store_string "created" kvs (Created old);
       LastSeen := field store_string "lastSeen" kvs (LastSeen old);
       Online := field store_bool "online" kvs (Online old);
       Expired := field store_bool "expired" kvs (Expired old);
       KeyExpiry := field store_string "keyExpiry" kvs (KeyExpiry old);
       MachineKey := field store_string "machineKey" kvs (MachineKey old);
       NodeKey := field store_string "nodeKey" kvs (NodeKey old);
       Addresses := field (store_slice store_string "") "addresses" kvs (Addresses old);
       Tags := field (store_slice store_string "") "tags" kvs (Tags old) |}
  | _ => old
  end.

Definition ok_Node (v : value) : bool :=
  match v with
  | JNull => true
  | JObject kvs =>
    forallb (fun tag => field_ok ok_string tag kvs)
      ["id"; "name"; "user"; "tailnet"; "hostname"; "clientVersion"; "os"; "created";
       "lastSeen"; "keyExpiry"; "machineKey"; "nodeKey"]
    && forallb (fun tag => field_ok ok_bool tag kvs) ["online"; "expired"]
    && forallb (fun tag => field_ok (ok_slice ok_string) tag kvs) ["addresses"; "tags"]
  | _ => false
  end.

Definition store_UserProfile (old : UserProfile) (v : value) : UserProfile :=
  match v with
  | JObject kvs =>
    {| UserID := field store_string "id" kvs (UserID old);
       LoginName := field store_string "loginName" kvs (LoginName old);
       DisplayName := field store_string "displayName" kvs (DisplayName old);
       ProfilePicURL := field store_string "profilePicURL" kvs (ProfilePicURL old) |}
  | _ => old
  end.

Definition ok_UserProfile (v : value) : bool :=
  match v with
  | JNull => true
  | JObject kvs =>
    forallb (fun tag => field_ok ok_string tag kvs)
      ["id"; "loginName"; "displayName"; "profilePicURL"]
  | _ => false
  end.

Definition store_CapMap (old : gmap string (list string)) (v : value)
  : gmap string (list string) :=
  match v with
  | JNull => ∅
  | JObject kvs =>
    fold_left (fun m kv => <[kv.1 := store_slice store_string "" [] kv.2]> m) kvs old
  | _ => old
  end.

Definition ok_CapMap (v : value) : bool :=
  match v with
  | JNull => true
  | JObject kvs => forallb (fun kv => ok_slice ok_string kv.2) kvs
  | _ => false
  end.

Definition store_WhoIsResponse (old : WhoIsResponse) (v : value) : WhoIsResponse :=
  match v with
  | JObject kvs =>
    {| node := field store_Node "Node" kvs (node old);
       userProfile := field store_UserProfile "UserProfile" kvs (userProfile old);
       CapMap := field store_CapMap "CapMap" kvs (CapMap old) |}
  | _ => old
  end.

Definition ok_WhoIsResponse (v : value) : bool :=
  match v with
  | JNull => true
  | JObject kvs =>
    field_ok ok_Node "Node" kvs && field_ok ok_UserProfile "UserProfile" kvs
    && field_ok ok_CapMap "CapMap" kvs
  | _ => false
  end.

(** [json.Unmarshal(body, &whois)] into a fresh variable. *)
Definition Unmarshal_WhoIsResponse (body : text) : WhoIsResponse * option json_error :=
  match parse body with
  | None => (zeroWhoIs, Some SyntaxError)
  | Some v =>
    (store_WhoIsResponse zeroWhoIs v,
     if ok_WhoIsResponse v then None else Some UnmarshalTypeError)
  end.

Inductive level := Info | Warn | Error.

Inductive error :=
| ErrTailnetRequired
| ErrAPIKeyRequired
| ErrCreateRequest
| ErrMakeRequest (e : string)
| ErrStatus (status : Z)
| ErrReadBody
| ErrUnmarshalResponse (e : json_error).

Record World := mkWorld {
  net : nat -> http.Request -> http.outcome;
  sent : list http.Request;
  log : list (level * string)
}.

Definition logf (l : level) (msg : string) (w : World) : World :=
  mkWorld (net w) (sent w) (log w ++ [(l, msg)]).

Definition client_Do (req : http.Request) (w : World) : http.outcome * World :=
  (net w (length (sent w)) req, mkWorld (net w) (sent w ++ [req]) (log w)).

Definition whois_url (t : TailscaleAuth) (clientIP : string) : string :=
  "https://api.tailscale.com/api/v2/tailnet/" +:+ Tailnet t +:+ "/whois?addr=" +:+ clientIP.

Definition whois_request (t : TailscaleAuth) (clientIP : string) : option http.Request :=
  match http.NewRequest "GET" (whois_url t clientIP) with
  | None => None
  | Some req =>
    Some (http.set_header
            (http.set_header req "Authorization" ("Bearer " +:+ APIKey t))
            "User-Agent" "Caddy-Tailscale-Auth/1.0")
  end.

(** getTailscaleUser fetches user information from the API; the result
    is Go's pair of a [*WhoIsResponse] and an [error]. *)
Definition getTailscaleUser (t : TailscaleAuth) (clientIP : string) (w : World)
  : (option WhoIsResponse * option error) * World :=
  match whois_request t clientIP with
  | None => ((None, Some ErrCreateRequest), w)
  | Some req =>
    let '(r, w) := client_Do req w in
    match r with
    | http.DoError e => ((None, Some (ErrMakeRequest e)), w)
    | http.DoResponse resp =>
      if negb (http.StatusCode resp =? http.StatusOK)%Z
      then ((None, Some (ErrStatus (http.StatusCode resp))), w)
      else
        match http.Body resp with
        | None => ((None, Some ErrReadBody), w)
        | Some body =>
          match Unmarshal_WhoIsResponse body with
          | (_, Some e) => ((None, Some (ErrUnmarshalResponse e)), w)
          | (whois, None) => ((Some whois, None), w)
          end
        end
    end
  end.

Definition format_bool (b : bool) : string := if b then "true" else "false".

(** The name/value pairs addUserHeaders sets, in the order of its
    [r.Header.Set] calls. *)
Definition userHeaders (t : TailscaleAuth) (whois : WhoIsResponse) : list (string * string) :=
  [(HeaderPrefix t +:+ "Node-ID", ID (node whois));
   (HeaderPrefix t +:+ "Node-Name", Name (node whois));
   (HeaderPrefix t +:+ "Node-User", User (node whois));
   (HeaderPrefix t +:+ "Node-Hostname", Hostname (node whois));
   (HeaderPrefix t +:+ "Node-OS", OS (node whois));
   (HeaderPrefix t +:+ "Node-Online", format_bool (Online (node whois)));
   (HeaderPrefix t +:+ "Node-Expired", format_bool (Expired (node whois)));
   (HeaderPrefix t +:+ "User-ID", UserID (userProfile whois));
   (HeaderPrefix t +:+ "User-LoginName", LoginName (userProfile whois));
   (HeaderPrefix t +:+ "User-DisplayName", DisplayName (userProfile whois))]
  ++ (if (0 <? length (Addresses (node whois)))%nat
      then [(HeaderPrefix t +:+ "Node-Addresses", Join (Addresses (node whois)) ",")]
      else [])
  ++ (if (0 <? length (Tags (node whois)))%nat
      then [(HeaderPrefix t +:+ "Node-Tags", Join (Tags (node whois)) ",")]
      else []).

(** addUserHeaders adds user information to request headers. *)
Definition addUserHeaders (t : TailscaleAuth) (r : http.Inbound) (whois : WhoIsResponse)
  : http.Inbound :=
  http.mkInbound
    (fold_left (fun h kv => Header_Set h kv.1 kv.2) (userHeaders t whois) (http.InHeader r))
    (http.RemoteAddr r).

(** getClientIP extracts the client IP from the request. *)
Definition getClientIP (r : http.Inbound) : string :=
  let xff := Header_Get (http.InHeader r) "X-Forwarded-For" in
  if negb (String.eqb xff "") then
    match cut 0x2C (txt xff) with
    | (first, Some _) => TrimSpace (str first)
    | (_, None) => TrimSpace xff
    end
  else
    let xri := Header_Get (http.InHeader r) "X-Real-IP" in
    if negb (String.eqb xri "") then TrimSpace xri
    else
      match SplitHostPort (http.RemoteAddr r) with
      | None => http.RemoteAddr r
      | Some host => host
      end.

(** ServeHTTP implements caddyhttp.MiddlewareHandler; [None] is the
    panic of a nil dereference. *)
Definition ServeHTTP {A} (t : TailscaleAuth) (r : http.Inbound)
    (next : http.Inbound -> World -> A) (w : World) : option A :=
  let clientIP := getClientIP r in
  if String.eqb clientIP "" then
    Some (next r (logf Warn "could not determine client IP" w))
  else
    match getTailscaleUser t clientIP w with
    | ((_, Some err), w) => Some (next r (logf Error "failed to get Tailscale user info" w))
    | ((Some whois, None), w) => Some (next (addUserHeaders t r whois) w)
    | ((None, None), w) => None
    end.


(** Validate implements caddy.Validator. *)
Definition Validate (t : TailscaleAuth) : option error :=
  if String.eqb (Tailnet t) "" then Some ErrTailnetRequired
  else if String.eqb (APIKey t) "" then Some ErrAPIKeyRequired
  else None.

(** Provision implements caddy.Provisioner: the handler as it leaves
    it, and the error. *)
Definition Provision (t : TailscaleAuth) : TailscaleAuth * option error :=
  let t := if String.eqb (HeaderPrefix t) ""
           then mkTailscaleAuth (APIKey t) (Tailnet t) "X-Tailscale-"
           else t in
  if String.eqb (Tailnet t) "" then (t, Some ErrTailnetRequired)
  else if String.eqb (APIKey t) "" then (t, Some ErrAPIKeyRequired)
  else (t, None).

Definition zeroTailscaleAuth : TailscaleAuth := mkTailscaleAuth "" "" "".

Definition set_APIKey (t : TailscaleAuth) (v : string) : TailscaleAuth :=
  mkTailscaleAuth v (Tailnet t) (HeaderPrefix t).

Definition set_Tailnet (t : TailscaleAuth) (v : string) : TailscaleAuth :=
  mkTailscaleAuth (APIKey t) v (HeaderPrefix t).

Definition set_HeaderPrefix (t : TailscaleAuth) (v : string) : TailscaleAuth :=
  mkTailscaleAuth (APIKey t) (Tailnet t) v.

Definition required_arg (set : TailscaleAuth -> string -> TailscaleAuth)
    (d : caddyfile.Dispenser) (t : TailscaleAuth)
  : caddyfile.Dispenser * TailscaleAuth * option caddyfile.error :=
  let '(ok, d1) := caddyfile.NextArg d in
  if negb ok then (d1, t, Some (caddyfile.ArgErr d1))
  else (d1, set t (caddyfile.Val d1), None).

(** The switch inside the loops of UnmarshalCaddyfile. *)
Definition UnmarshalCaddyfile_switch (d : caddyfile.Dispenser) (m : TailscaleAuth)
  : caddyfile.Dispenser * TailscaleAuth * option caddyfile.error :=
  let val := caddyfile.Val d in
  if String.eqb val "api_key" then required_arg set_APIKey d m
  else if String.eqb val "tailnet" then required_arg set_Tailnet d m
  else if String.eqb val "header_prefix" then
    let '(ok, d1) := caddyfile.NextArg d in
    if negb ok then (d1, set_HeaderPrefix m "X-Tailscale-", None)
    else (d1, set_HeaderPrefix m (caddyfile.Val d1), None)
  else (d, m, None).

Definition UnmarshalCaddyfile (d : caddyfile.Dispenser) (m : TailscaleAuth)
  : option (caddyfile.Dispenser * TailscaleAuth * option caddyfile.error) :=
  caddyfile.directive_loops UnmarshalCaddyfile_switch d m.

(** The switch inside the loops of parseCaddyfile. *)
Definition parseCaddyfile_switch (h : caddyfile.Dispenser) (t : TailscaleAuth)
  : caddyfile.Dispenser * TailscaleAuth * option caddyfile.error :=
  let val := caddyfile.Val h in
  if String.eqb val "api_key" then required_arg set_APIKey h t
  else if String.eqb val "tailnet" then required_arg set_Tailnet h t
  else if String.eqb val "header_prefix" then required_arg set_HeaderPrefix h t
  else (h, t, Some (caddyfile.Errf_unrecognized val)).

Definition parseCaddyfile (h : caddyfile.Dispenser)
  : option (TailscaleAuth + caddyfile.error) :=
  match caddyfile.directive_loops parseCaddyfile_switch h zeroTailscaleAuth with
  | None => None
  | Some (_, _, Some e) => Some (inr e)
  | Some (_, t, None) => Some (inl t)
  end.

End Direct.
(** ** Concrete configurations, directories and requests *)

Module Examples.
Import golib json jsondec.
Local Open Scope string_scope.

(** JSON text written with an apostrophe for each double quote. *)
Definition quoted (s : string) : text :=
  (fun c => if (code c =? 0x27)%N then ch 0x22 else c) <$> txt s.

Definition device (id : string) (addrs : list string) (authorized : bool) : Cached.Device :=
  Cached.mkDevice addrs authorized false "" "" "" "" id false false "" "" "" "" "" "" "" ""
    false "".

Definition d1 : Cached.Device := device "d1" ["100.64.0.5"] true.
Definition d2 : Cached.Device := device "d2" ["100.64.0.9"] false.

Definition directory_body : text :=
  quoted "{'devices':[{'id':'d1','addresses':['100.64.0.5'],'authorized':true},
                      {'id':'d2','addresses':['100.64.0.9'],'authorized':false}]}".

Definition date : string := "Mon, 01 Jan 2024 00:00:00 GMT".

Definition respond (status : Z) (body : text) : http.outcome :=
  http.DoResponse (http.mkResponse status (Header_Set ∅ "Date" date) (Some body)).

Definition config (cacheFile : string) (c : Cached.DeviceCache) : Cached.TailscaleAuth :=
  Cached.mkTailscaleAuth "tskey-api" "example.com" "X-Tailscale-" cacheFile c sync.unlocked.

Definition empty_fs : os.FS := os.mkFS ∅ ∅ ∅.

(** A disk on which the path [blocked] is a regular file, so that no
    directory of that name can be made. *)
Definition blocked_fs : os.FS := os.mkFS {["blocked" := txt "x"]} ∅ ∅.

Definition state (cacheFile : string) (c : Cached.DeviceCache)
    (answer : http.outcome) (disk : os.FS) : Cached.State :=
  Cached.mkState (config cacheFile c) (Cached.mkWorld (fun _ _ => answer) [] disk []).

Definition snapshot1 : Cached.DeviceCache :=
  Cached.mkDeviceCache {["100.64.0.5" := Some d1]} date.

Definition empty_snapshot : Cached.DeviceCache := Cached.mkDeviceCache ∅ "".

(** The default configuration with a warm cache and a live service. *)
Definition warm : Cached.State :=
  state "tailscale_devices.json" snapshot1 (respond 200 directory_body) empty_fs.

(** The default configuration, started cold. *)
Definition cold : Cached.State :=
  state "tailscale_devices.json" empty_snapshot (respond 200 directory_body) empty_fs.

(** The same, with the cache file under a directory that cannot be made. *)
Definition cold_nodir : Cached.State :=
  state "blocked/devices.json" empty_snapshot (respond 200 directory_body) blocked_fs.

(** The service is down. *)
Definition cold_outage : Cached.State :=
  state "tailscale_devices.json" snapshot1 (respond 503 []) empty_fs.

(** The service answers 204 with a body that would decode. *)
Definition cold_204 : Cached.State :=
  state "tailscale_devices.json" empty_snapshot (respond 204 directory_body) empty_fs.

(** A cache file edited by hand: the address is there, the record is null. *)
Definition nulled : Cached.State :=
  state "blocked/devices.json"
    (Cached.mkDeviceCache {["100.64.0.9" := None]} "") (respond 200 directory_body) blocked_fs.

(** A Date header that is not UTF-8: the single byte 0xFF. *)
Definition latin_date : string := String (ch 0xFF) "".

(** One device, and that header as the freshness marker. *)
Definition latin_snapshot : Cached.DeviceCache :=
Cached.mkDeviceCache {["100.64.0.5" := Some d1]} latin_date.

Definition inbound (remote : string) : http.Inbound := http.mkInbound ∅ remote.

Definition whois_body : text :=
  quoted "{'Node':{'id':'n1','name':'host.example.ts.net','addresses':['100.64.0.5']},
           'UserProfile':{'id':'u1','loginName':'ada@example.com'}}".

Definition direct_config : Direct.TailscaleAuth :=
  Direct.mkTailscaleAuth "tskey-api" "example.com" "X-Tailscale-".

Definition direct_world (answer : http.outcome) : Direct.World :=
  Direct.mkWorld (fun _ _ => answer) [] [].

End Examples.

(** ** Vocabulary of the round-trip proof *)

Section RoundTripVocabulary.
Import golib json jsondec Cached.
Local Open Scope N_scope.

(** What a valid decoding step says about the bytes it read. *)
Record rune_at (p : text) (r : N) (n : nat) : Prop := {
  rune_width : (0 < n <= length p)%nat;
  rune_encode : utf8.EncodeRune r = take n p;
  rune_stable : forall q, utf8.DecodeRune (take n p ++ q) = (r, n);
  rune_high : 0x80 <= r -> Forall (fun c => 0x80 <= code c) (take n p);
  rune_low : r < 0x80 -> n = 1%nat
}.

(** [escaped src out]: [out] is what appendString writes for the valid
    UTF-8 text [src], piece by piece. *)
Inductive escaped : text -> text -> Prop :=
| escaped_nil : escaped [] []
| escaped_safe c rest out :
    (code c <? 0x80) = true -> htmlSafe (code c) = true ->
    escaped rest out -> escaped (c :: rest) (c :: out)
| escaped_ascii c rest out :
    (code c <? 0x80) = true -> htmlSafe (code c) = false ->
    escaped rest out -> escaped (c :: rest) (escape_ascii (code c) ++ out)
| escaped_separator src r n out :
    rune_at src r n -> r = 0x2028 \/ r = 0x2029 ->
    escaped (drop n src) out ->
    escaped src (ch 0x5C :: txt "u202" ++ [hexdigit (r mod 16)] ++ out)
| escaped_rune src r n out :
    rune_at src r n -> 0x80 <= r ->
    escaped (drop n src) out ->
    escaped src (take n src ++ out).

(** The trees MarshalIndent is given here: no numbers, every string
    valid UTF-8. *)
Fixpoint wf_value (v : value) : bool :=
  match v with
  | JNull | JBool _ => true
  | JNumber _ => false
  | JString s => utf8.ValidString s
  | JArray xs => forallb wf_value xs
  | JObject kvs => forallb (fun kv : string * value => utf8.ValidString kv.1 && wf_value kv.2) kvs
  end.

(** The tokens of a tree. *)
Fixpoint toks (v : value) : list token :=
  match v with
  | JNull => [TNull]
  | JBool true => [TTrue]
  | JBool false => [TFalse]
  | JNumber lit => [TNumber lit]
  | JString s => [TString s]
  | JArray [] => [TLBrack; TRBrack]
  | JArray (x :: xs) =>
    TLBrack :: toks x ++ flat_map (fun y => TComma :: toks y) xs ++ [TRBrack]
  | JObject [] => [TLBrace; TRBrace]
  | JObject ((k, x) :: kvs) =>
    TLBrace :: TString k :: TColon :: toks x
    ++ flat_map (fun kv : string * value => TComma :: TString kv.1 :: TColon :: toks kv.2) kvs
    ++ [TRBrace]
  end.

(** A measure of a tree that bounds the fuel its parsing needs. *)
Fixpoint nodes (v : value) : nat :=
  match v with
  | JArray xs => S (list_sum (map (fun x => S (nodes x)) xs))
  | JObject kvs => S (list_sum (map (fun kv : string * value => S (nodes kv.2)) kvs))
  | _ => 1
  end.

(** [lexes piece ts]: wherever [piece] stands in the input, the scanner
    reads the tokens [ts] from it and goes on behind it. *)
Definition lexes (piece : text) (ts : list token) : Prop :=
  forall rest fuel,
    (length (piece ++ rest) < fuel)%nat ->
    exists fuel',
      (length rest < fuel')%nat
      /\ lex_go fuel (piece ++ rest) = (ts ++.) <$> lex_go fuel' rest.

End RoundTripVocabulary.

Section RoundTripVocabulary2.
Import golib json jsondec Cached.
Local Open Scope nat_scope.

(** The grammar reads the tokens of [v] back as [v]. *)
Definition parses (v : value) : Prop :=
  forall fuel rest, nodes v <= fuel -> parse_value fuel (toks v ++ rest) = Some (v, rest).

(** Every string a device holds. *)
Definition Device_strings (d : Device) : list string :=
  Addresses d
  ++ [ClientVersion d; Created d; Expires d; Hostname d; ID d; LastSeen d; MachineKey d;
      Name d; NodeID d; NodeKey d; OS d; TailnetLockError d; TailnetLockKey d; User d].

Definition valid_Device (d : Device) : bool := forallb utf8.ValidString (Device_strings d).

Definition valid_entry (kv : string * option Device) : bool :=
  utf8.ValidString kv.1 && match kv.2 with Some d => valid_Device d | None => true end.

(** A cache all of whose strings (addresses, record fields, freshness
    marker) are valid UTF-8. *)
Definition valid_cache (c : DeviceCache) : bool :=
  utf8.ValidString (LastUpdate c) && forallb valid_entry (map_to_list (IPToDevice c)).

Definition entry_to_json (kv : string * option Device) : string * value :=
  (kv.1, DevicePtr_to_json kv.2).

End RoundTripVocabulary2.


(** ** Vocabulary of the request-level properties *)

Section ByteClasses.
Import golib.
Local Open Scope N_scope.

(** An ASCII white-space byte: tab, line feed, vertical tab, form feed,
    carriage return, space. *)
Definition blank (c : ascii) : bool := in_range 0x09 0x0D (code c) || (code c =? 0x20).

(** A visible ASCII byte. *)
Definition graphic (c : ascii) : bool := in_range 0x21 0x7E (code c).

(** A byte that is none of the colon and the two square brackets. *)
Definition plain (c : ascii) : bool :=
  negb (code c =? 0x3A) && negb (code c =? 0x5B) && negb (code c =? 0x5D).

(** A byte of an address as it stands in a forwarding header: visible
    and not a comma. *)
Definition address_byte (c : ascii) : bool := graphic c && negb (code c =? 0x2C).

(** A byte that means nothing special in a URL as [url.Parse] reads
    it: visible ASCII other than [#], [%] and [?]. *)
Definition url_plain (c : ascii) : bool :=
  graphic c && negb (code c =? 0x23) && negb (code c =? 0x25) && negb (code c =? 0x3F).

End ByteClasses.

Section RequestVocabulary.
Import golib json jsondec.
Local Open Scope string_scope.

(** The names addDeviceHeaders sets, without the prefix. *)
Definition device_names (with_addresses : bool) : list string :=
  ["Device-ID"; "Device-Name"; "Device-User"; "Device-Hostname"; "Device-OS";
   "Device-Authorized"; "Device-NodeID"]
  ++ (if with_addresses then ["Device-Addresses"] else [])
  ++ ["Device-ClientVersion"; "Device-LastSeen"; "Device-Created"].

(** The names addUserHeaders sets, without the prefix. *)
Definition user_names (with_addresses with_tags : bool) : list string :=
  ["Node-ID"; "Node-Name"; "Node-User"; "Node-Hostname"; "Node-OS"; "Node-Online";
   "Node-Expired"; "User-ID"; "User-LoginName"; "User-DisplayName"]
  ++ (if with_addresses then ["Node-Addresses"] else [])
  ++ (if with_tags then ["Node-Tags"] else []).

(** A name of the annotator as the header map keys it. *)
Definition canonical_name (prefix name : string) : string :=
  CanonicalMIMEHeaderKey (prefix +:+ name).

(** The request a whois lookup sends, if the URL can be built. *)
Definition whois_requests (t : Direct.TailscaleAuth) (clientIP : string) : list http.Request :=
  match Direct.whois_request t clientIP with
  | Some req => [req]
  | None => []
  end.

(** A body that names no device: null, or an object in which every
    member called devices (in any case of the letters) is null or the
    empty array. *)
Definition no_devices (v : value) : bool :=
  match v with
  | JNull => true
  | JObject kvs =>
    forallb (fun kv : string * value =>
               negb (is_field "devices" kv.1)
               || match kv.2 with JNull | JArray [] => true | _ => false end) kvs
  | _ => false
  end.

End RequestVocabulary.

Section SetupVocabulary.
Import golib json jsondec Cached.
Local Open Scope string_scope.

(** The configuration Provision leaves: empty settings replaced by
    their defaults. *)
Definition defaulted (t : TailscaleAuth) : TailscaleAuth :=
  mkTailscaleAuth (APIKey t) (Tailnet t)
    (if String.eqb (HeaderPrefix t) "" then "X-Tailscale-" else HeaderPrefix t)
    (if String.eqb (CacheFile t) "" then "tailscale_devices.json" else CacheFile t)
    (deviceCache t) (cacheMutex t).

(** What Provision logs when the cache file is there and cannot be
    used. *)
Definition load_warning : level * string :=
  (Warn, "failed to load device cache, starting with empty cache").

End SetupVocabulary.


(** ** Vocabulary of the Caddyfile properties *)

Section CaddyfileVocabulary.
Import golib caddyfile.
Local Open Scope string_scope.
Local Open Scope Z_scope.
Local Open Scope list_scope.

(** An unquoted token of the file Caddyfile. *)
Definition word (line : Z) (text : string) : Token := mkToken "Caddyfile" [] line text 0.

(** One setting per line, from line [line] on: a name and its argument. *)
Fixpoint setting_lines (line : Z) (kvs : list (string * string)) : list Token :=
  match kvs with
  | [] => []
  | kv :: rest => word line kv.1 :: word line kv.2 :: setting_lines (line + 1) rest
  end.

(** The tokens of the directive written as a block: the name and the
    opening brace on line 1, the settings from line 2 on, and whatever
    comes after them. *)
Definition directive_block (kvs : list (string * string)) (rest : list Token) : list Token :=
  word 1 "tailscale_auth" :: word 1 "{" :: setting_lines 2 kvs ++ rest.

(** The line after the settings. *)
Definition next_line (kvs : list (string * string)) : Z := 2 + Z.of_nat (length kvs).

(** The dispenser has loaded the tokens [seen], the cursor on the last
    of them, and [rest] is still to come. *)
Definition at_pos (d : Dispenser) (seen rest : list Token) : Prop :=
  tokens d = seen ++ rest /\ cursor d = Z.of_nat (length seen) - 1.

(** A line of a block as a handler reads it: a subdirective with its
    argument, or two words it passes over. *)
Definition line_ok (known ignored : string -> bool) (kv : string * string) : Prop :=
  (known kv.1 = true /\ kv.2 <> "{") \/ (ignored kv.1 = true /\ ignored kv.2 = true).

(** The dispenser inside the block that opens with the second token,
    the cursor on the brace. *)
Definition inside_block (toks : list Token) : Dispenser := mkDispenser toks 1 1.

(** The cursor stays within the tokens. *)
Definition in_range_cursor (d : Dispenser) : Prop := cursor d <= Z.max (len d - 1) 0.

(** What a step of the dispenser may do to the cursor: it never moves
    back, stays within the tokens, and the tokens stay what they
    are. *)
Definition steps_on (d d' : Dispenser) : Prop :=
  tokens d' = tokens d
  /\ (in_range_cursor d -> in_range_cursor d')
  /\ cursor d <= cursor d'.

End CaddyfileVocabulary.

Section CachedCaddyfileVocabulary.
Import golib Cached.
Local Open Scope string_scope.

(** The subdirectives of the cached handler. *)
Definition known (k : string) : bool :=
  String.eqb k "api_key" || String.eqb k "tailnet" || String.eqb k "header_prefix"
  || String.eqb k "cache_file".

(** What one line assigns. *)
Definition assign (t : TailscaleAuth) (kv : string * string) : TailscaleAuth :=
  if String.eqb kv.1 "api_key" then set_APIKey t kv.2
  else if String.eqb kv.1 "tailnet" then set_Tailnet t kv.2
  else if String.eqb kv.1 "header_prefix" then set_HeaderPrefix t kv.2
  else if String.eqb kv.1 "cache_file" then set_CacheFile t kv.2
  else t.

(** A token UnmarshalCaddyfile passes over: no subdirective, no brace. *)
Definition passed_over (k : string) : bool :=
  negb (known k) && negb (String.eqb k "{") && negb (String.eqb k "}").

End CachedCaddyfileVocabulary.

Section DirectCaddyfileVocabulary.
Import golib Direct.
Local Open Scope string_scope.

(** The subdirectives of the whois handler. *)
Definition whois_known (k : string) : bool :=
  String.eqb k "api_key" || String.eqb k "tailnet" || String.eqb k "header_prefix".

(** What one line assigns. *)
Definition whois_assign (t : TailscaleAuth) (kv : string * string) : TailscaleAuth :=
  if String.eqb kv.1 "api_key" then set_APIKey t kv.2
  else if String.eqb kv.1 "tailnet" then set_Tailnet t kv.2
  else if String.eqb kv.1 "header_prefix" then set_HeaderPrefix t kv.2
  else t.

End DirectCaddyfileVocabulary.
(** * Properties *)

(** ** Running the handler's steps *)

Section CachedSteps.
Import golib json jsondec Cached.
Local Open Scope string_scope.

Lemma idle_writer s : idle s -> sync.writer (mutex_of s) = false.
Proof. unfold idle. intros ->. reflexivity. Qed.

Lemma lookup_locked_free clientIP s :
  sync.writer (mutex_of s) = false ->
  lookup_locked clientIP s = Ret (IPToDevice (cache_of s) !! clientIP) s.
Proof.
  destruct s as [[k tn hp cf c [wr rd]] w]. simpl. intros ->. reflexivity.
Qed.

Lemma lookup_locked_held clientIP s :
  sync.writer (mutex_of s) = true -> lookup_locked clientIP s = Blocked s.
Proof.
  destruct s as [[k tn hp cf c [wr rd]] w]. simpl. intros ->. reflexivity.
Qed.

(** The fetch always returns; it touches nothing but the list of
    requests sent, which grows by the one request of the refresh. *)
Lemma fetchDevices_returns s :
  exists r s1,
    fetchDevices s = Ret r s1
    /\ auth s1 = auth s
    /\ fs (world s1) = fs (world s)
    /\ log (world s1) = log (world s)
    /\ net (world s1) = net (world s)
    /\ sent (world s1) = (sent (world s) ++ refresh_requests s)%list.
Proof.
  unfold fetchDevices, refresh_requests, bind, get_auth, client_Do, ret.
  destruct s as [t w]. simpl.
  destruct (devices_request t) as [req|].
  - repeat case_match; do 2 eexists; repeat split; reflexivity.
  - destruct w. rewrite app_nil_r. do 2 eexists. repeat split; reflexivity.
Qed.

(** The fetch in terms of what the directory service answers. *)
Lemma fetchDevices_ok_iff s resp dr s1 :
  fetchDevices s = Ret (inl (resp, dr)) s1 <->
  exists req body,
    devices_request (auth s) = Some req
    /\ net (world s) (length (sent (world s))) req = http.DoResponse resp
    /\ http.StatusCode resp = http.StatusOK
    /\ http.Body resp = Some body
    /\ Unmarshal_DevicesResponse body = (dr, None)
    /\ s1 = mkState (auth s)
              (mkWorld (net (world s)) (sent (world s) ++ [req])
                 (fs (world s)) (log (world s))).
Proof.
  unfold fetchDevices, bind, get_auth, client_Do, ret.
  destruct s as [t w]. simpl.
  destruct (devices_request t) as [req|]; simpl.
  2:{ split; [done|]. intros (? & ? & ? & _). done. }
  destruct (net w (length (sent w)) req) as [e|resp'] eqn:Hnet; simpl.
  { split; [done|]. intros (? & ? & [= <-] & ? & _). congruence. }
  destruct (http.StatusCode resp' =? http.StatusOK)%Z eqn:Hst; simpl.
  2:{ split; [done|]. intros (? & ? & [= <-] & Hn & Hs & _).
      rewrite Hnet in Hn. injection Hn as <-. rewrite Hs in Hst. done. }
  apply Z.eqb_eq in Hst.
  destruct (http.Body resp') as [body|] eqn:Hb.
  2:{ split; [done|]. intros (? & ? & [= <-] & Hn & _ & Hb' & _).
      rewrite Hnet in Hn. injection Hn as <-. congruence. }
  destruct (Unmarshal_DevicesResponse body) as [dr' [e|]] eqn:Hu.
  { split; [done|]. intros (? & ? & [= <-] & Hn & _ & Hb' & Hu' & _).
    rewrite Hnet in Hn. injection Hn as <-.
    rewrite Hb in Hb'. injection Hb' as <-. congruence. }
  split.
  - intros [= <- <- <-]. exists req, body. rewrite Hb. auto 10.
  - intros (? & ? & [= <-] & Hn & _ & Hb' & Hu' & ->).
    rewrite Hnet in Hn. injection Hn as <-.
    rewrite Hb in Hb'. injection Hb' as <-. rewrite Hu in Hu'. injection Hu' as <-.
    reflexivity.
Qed.

Lemma refresh_fetch_failed s e s1 :
  fetchDevices s = Ret (inr e) s1 ->
  refreshDeviceCache s = Ret (Some e) s1.
Proof. unfold refreshDeviceCache, bind. intros ->. reflexivity. Qed.

(** A successful fetch, an idle mutex: the map is rebuilt from the
    fetched devices alone. If the cache directory is there or can be
    made, saveDeviceCache then asks for the read lock while
    refreshDeviceCache still holds the write lock, and waits for ever;
    if MkdirAll fails, saveDeviceCache returns before it locks, and the
    refresh returns. *)
Lemma refresh_fetch_ok s resp dr s1 :
  fetchDevices s = Ret (inl (resp, dr)) s1 ->
  idle s ->
  exists s2,
    cache_of s2 = mkDeviceCache (populate (Devices dr) ∅)
                    (Header_Get (http.RespHeader resp) "Date")
    /\ sent (world s2) = sent (world s1)
    /\ os.files (fs (world s2)) = os.files (fs (world s))
    /\ if cache_dir_ok s
       then refreshDeviceCache s = Blocked s2 /\ mutex_of s2 = sync.mkRWMutex true 0
       else refreshDeviceCache s = Ret None s2 /\ mutex_of s2 = sync.unlocked.
Proof.
  intros Hf Hidle.
  destruct (fetchDevices_returns s) as (r & s1' & Hf' & Ha & Hfs & _ & _ & _).
  rewrite Hf in Hf'. injection Hf' as <- <-.
  unfold refreshDeviceCache, bind, cache_dir_ok. rewrite Hf.
  destruct s1 as [[k tn hp cf c mu] w1]. simpl in *.
  unfold idle, mutex_of in Hidle. rewrite <- Ha in Hidle. simpl in Hidle. subst mu.
  rewrite <- Ha, <- Hfs.
  unfold Lock, saveDeviceCache, bind, get_auth, os_MkdirAll, RLock, getCacheFilePath; simpl.
  destruct (os.MkdirAll (fs w1) (Dir (if IsAbs cf then cf else cf))) as [f|e] eqn:Hmk; simpl.
  - eexists. repeat split; try reflexivity. simpl.
    revert Hmk. unfold os.MkdirAll.
    repeat case_match; intros [= <-]; reflexivity.
  - eexists. repeat split; reflexivity.
Qed.

End CachedSteps.

Section CachedRuns.
Import golib json jsondec Cached.
Local Open Scope string_scope.

Lemma logf_final l msg s :
  logf l msg s
  = Ret tt (mkState (auth s)
              (mkWorld (net (world s)) (sent (world s)) (fs (world s))
                 (log (world s) ++ [(l, msg)]))).
Proof. reflexivity. Qed.

(** Whatever becomes of a refresh, it has sent its one request. *)
Lemma refresh_sent s :
  sent (world (final (refreshDeviceCache s)))
  = (sent (world s) ++ refresh_requests s)%list.
Proof.
  destruct (fetchDevices_returns s) as (r & s1 & Hf & _ & _ & _ & _ & Hsent).
  unfold refreshDeviceCache, bind. rewrite Hf.
  destruct r as [[resp dr]|e]; [|exact Hsent].
  rewrite <- Hsent. clear Hf Hsent.
  destruct s1 as [[k tn hp cf c [wr rd]] w1].
  unfold Lock, saveDeviceCache, bind, get_auth, os_MkdirAll, RLock; simpl.
  destruct wr, rd; simpl; try reflexivity.
  destruct (os.MkdirAll _ _); reflexivity.
Qed.

Lemma recheck_world clientIP s : world (final (recheck clientIP s)) = world s.
Proof.
  unfold recheck, bind.
  destruct (sync.writer (mutex_of s)) eqn:Hw.
  - rewrite lookup_locked_held by done. reflexivity.
  - rewrite lookup_locked_free by done. repeat case_match; reflexivity.
Qed.

Lemma recheck_result clientIP s r s' :
  recheck clientIP s = Ret r s' ->
  s' = s
  /\ r = match IPToDevice (cache_of s) !! clientIP with
         | Some (Some device) => (Some device, None)
         | _ => (None, Some (ErrDeviceNotFound clientIP))
         end.
Proof.
  unfold recheck, bind.
  destruct (sync.writer (mutex_of s)) eqn:Hw.
  - rewrite lookup_locked_held by done. done.
  - rewrite lookup_locked_free by done.
    repeat case_match; intros [= <- <-]; done.
Qed.

(** The miss path sends the one request of its refresh. *)
Lemma refresh_and_recheck_sent clientIP s :
  sent (world (final (refresh_and_recheck clientIP s)))
  = (sent (world s) ++ refresh_requests s)%list.
Proof.
  unfold refresh_and_recheck, bind. rewrite logf_final.
  set (s0 := mkState _ _).
  change (sent (world s)) with (sent (world s0)).
  change (refresh_requests s) with (refresh_requests s0).
  rewrite <- refresh_sent.
  destruct (refreshDeviceCache s0) as [[e|] s2|s2|s2]; simpl; try reflexivity.
  rewrite recheck_world. reflexivity.
Qed.

(** A record comes back exactly when no error does. *)
Lemma refresh_and_recheck_pair clientIP s r s' :
  refresh_and_recheck clientIP s = Ret r s' ->
  (exists device, r = (Some device, None)) \/ (exists e, r = (None, Some e)).
Proof.
  unfold refresh_and_recheck, bind. rewrite logf_final.
  destruct (refreshDeviceCache _) as [[e|] s2|s2|s2]; simpl; try done.
  - intros [= <- <-]. eauto.
  - intros H. apply recheck_result in H as [_ ->].
    repeat case_match; eauto.
Qed.

Lemma getDeviceByIP_pair clientIP s r s' :
  getDeviceByIP clientIP s = Ret r s' ->
  (exists device, r = (Some device, None)) \/ (exists e, r = (None, Some e)).
Proof.
  unfold getDeviceByIP, bind.
  destruct (lookup_locked clientIP s) as [[[d|]|] s1|s1|s1]; simpl; try done.
  - intros [= <- <-]. eauto.
  - apply refresh_and_recheck_pair.
  - apply refresh_and_recheck_pair.
Qed.

Lemma getDeviceByIP_miss clientIP s :
  sync.writer (mutex_of s) = false ->
  (IPToDevice (cache_of s) !! clientIP = None
   \/ IPToDevice (cache_of s) !! clientIP = Some None) ->
  getDeviceByIP clientIP s = refresh_and_recheck clientIP s.
Proof.
  intros Hw Hmiss. unfold getDeviceByIP, bind.
  rewrite lookup_locked_free by done.
  destruct Hmiss as [-> | ->]; reflexivity.
Qed.

(** The miss path after a fetch that failed. *)
Lemma refresh_and_recheck_failed clientIP s e s1 :
  fetchDevices s = Ret (inr e) s1 ->
  exists s',
    refresh_and_recheck clientIP s = Ret (None, Some (ErrRefresh e)) s'
    /\ auth s' = auth s
    /\ fs (world s') = fs (world s).
Proof.
  intros Hf. unfold refresh_and_recheck, bind. rewrite logf_final.
  set (s0 := mkState _ _).
  assert (Hf0 : exists s1', fetchDevices s0 = Ret (inr e) s1'
                            /\ auth s1' = auth s /\ fs (world s1') = fs (world s)).
  { revert Hf. unfold s0. destruct s as [t w].
    unfold fetchDevices, bind, get_auth, client_Do, ret. simpl.
    destruct (devices_request t) as [req|]; simpl.
    2:{ intros [= <- <-]. eexists. repeat split; reflexivity. }
    destruct (net w (length (sent w)) req) as [err|resp]; simpl.
    { intros [= <- <-]. eexists. repeat split; reflexivity. }
    destruct (negb _); simpl.
    { intros [= <- <-]. eexists. repeat split; reflexivity. }
    destruct (http.Body resp) as [body|]; simpl.
    2:{ intros [= <- <-]. eexists. repeat split; reflexivity. }
    destruct (Unmarshal_DevicesResponse body) as [dr [err|]]; simpl; [|done].
    intros [= <- <-]. eexists. repeat split; reflexivity. }
  destruct Hf0 as (s1' & Hf0 & Ha & Hfs).
  rewrite (refresh_fetch_failed _ _ _ Hf0). simpl.
  exists s1'. auto.
Qed.

(** The miss path after a fetch that succeeded, from an idle mutex:
    the snapshot is rebuilt, and the call returns the entry of the new
    snapshot exactly when saveDeviceCache cannot make its directory;
    otherwise it waits in saveDeviceCache. *)
Lemma refresh_and_recheck_fetched clientIP s resp dr s1 :
  idle s ->
  fetchDevices s = Ret (inl (resp, dr)) s1 ->
  let out := refresh_and_recheck clientIP s in
  cache_of (final out)
  = mkDeviceCache (populate (Devices dr) ∅) (Header_Get (http.RespHeader resp) "Date")
  /\ if cache_dir_ok s
     then out = Blocked (final out)
     else out = Ret (match populate (Devices dr) ∅ !! clientIP with
                     | Some (Some device) => (Some device, None)
                     | _ => (None, Some (ErrDeviceNotFound clientIP))
                     end) (final out).
Proof.
  intros Hidle Hf out. unfold out, refresh_and_recheck, bind. rewrite logf_final.
  set (s0 := mkState _ _).
  assert (Hidle0 : idle s0) by exact Hidle.
  assert (Hf0 : exists s1', fetchDevices s0 = Ret (inl (resp, dr)) s1').
  { apply fetchDevices_ok_iff in Hf as (req & body & Hreq & Hnet & Hst & Hb & Hu & _).
    eexists. apply fetchDevices_ok_iff. exists req, body. auto 10. }
  destruct Hf0 as (s1' & Hf0).
  destruct (refresh_fetch_ok _ _ _ _ Hf0 Hidle0) as (s2 & Hc & _ & _ & Hrun).
  change (cache_dir_ok s) with (cache_dir_ok s0).
  destruct (cache_dir_ok s0).
  - destruct Hrun as [-> _]. simpl. split; [exact Hc|reflexivity].
  - destruct Hrun as [-> Hmu]. simpl.
    unfold recheck, bind. rewrite lookup_locked_free by (by rewrite Hmu).
    rewrite Hc. simpl.
    destruct (populate (Devices dr) ∅ !! clientIP) as [[d|]|]; simpl; (split; [exact Hc|reflexivity]).
Qed.

(** The shape of the map the refresh builds. *)
Lemma populate_inner_lookup (device : Device) addrs (m : gmap string (option Device)) k :
  fold_left (fun m addr => <[addr := Some device]> m) addrs m !! k
  = if bool_decide (k ∈ addrs) then Some (Some device) else m !! k.
Proof.
  revert m. induction addrs as [|a addrs IH]; intros m; [done|].
  cbn [fold_left]. rewrite IH.
  destruct (decide (k ∈ addrs)) as [Hin|Hin].
  - rewrite !bool_decide_eq_true_2; [done| |done]. by apply list_elem_of_further.
  - rewrite (bool_decide_eq_false_2 _ Hin).
    destruct (decide (k = a)) as [->|Hne].
    + rewrite lookup_insert_eq, bool_decide_eq_true_2; [done|]. apply list_elem_of_here.
    + rewrite lookup_insert_ne, bool_decide_eq_false_2; [done| |done].
      by intros [?|?]%elem_of_cons.
Qed.

Lemma populate_cons d ds (m : gmap string (option Device)) :
  populate (d :: ds) m
  = populate ds (fold_left (fun m addr => <[addr := Some d]> m) (Addresses d) m).
Proof. reflexivity. Qed.

Lemma populate_lookup devices (m : gmap string (option Device)) k :
  populate devices m !! k
  = match last (filter (fun d => k ∈ Addresses d) devices) with
    | Some device => Some (Some device)
    | None => m !! k
    end.
Proof.
  revert m. induction devices as [|d ds IH]; intros m; [done|].
  rewrite populate_cons, IH, populate_inner_lookup, filter_cons.
  case_decide as Hk.
  - rewrite bool_decide_eq_true_2 by done.
    destruct (filter _ ds) as [|d' l] eqn:Hf; [done|].
    change (last (d :: d' :: l)) with (last (d' :: l)).
    destruct (last (d' :: l)) eqn:Hl; [done|]. by apply last_None in Hl.
  - rewrite bool_decide_eq_false_2 by done. done.
Qed.

Lemma last_filter_elem (P : Device -> Prop) `{forall d, Decision (P d)} devices device :
  last (filter P devices) = Some device -> device ∈ devices /\ P device.
Proof.
  intros Hl. apply last_Some_elem_of in Hl.
  by apply list_elem_of_filter in Hl as [? ?].
Qed.

Lemma last_filter_none (P : Device -> Prop) `{forall d, Decision (P d)} devices device :
  last (filter P devices) = None -> device ∈ devices -> ~ P device.
Proof.
  intros Hl Hin HP. apply last_None in Hl.
  assert (device ∈ filter P devices) as Hf by (by apply list_elem_of_filter).
  rewrite Hl in Hf. by apply elem_of_nil in Hf.
Qed.

End CachedRuns.


(** ** The resolution cache *)

Section ResolutionCache.
Import golib json jsondec Cached.
Local Open Scope string_scope.

(** The hit path with the lock free: when the address is a key of the
    snapshot and maps to a record, and no refresh holds the write lock,
    getDeviceByIP returns that record with a nil error and leaves the
    whole state as it was; no request is sent, nothing is logged,
    written or refreshed. *)
Lemma getDeviceByIP_hit (s : State) (clientIP : string) (device : Device) :
  sync.writer (mutex_of s) = false ->
  IPToDevice (cache_of s) !! clientIP = Some (Some device) ->
  getDeviceByIP clientIP s = Ret (Some device, None) s
  /\ sent (world (final (getDeviceByIP clientIP s))) = sent (world s).
Proof.
  intros Hw Hhit.
  assert (H : getDeviceByIP clientIP s = Ret (Some device, None) s).
  { unfold getDeviceByIP, bind. rewrite lookup_locked_free by done.
    rewrite Hhit. reflexivity. }
  rewrite H. auto.
Qed.

Example getDeviceByIP_hit_warm :
  getDeviceByIP "100.64.0.5" Examples.warm = Ret (Some Examples.d1, None) Examples.warm
  /\ sent (world (final (getDeviceByIP "100.64.0.5" Examples.warm))) = [].
Proof.
  apply (getDeviceByIP_hit Examples.warm "100.64.0.5" Examples.d1); reflexivity.
Qed.

(** C1, at the input where the code departs from it. The default
    configuration started cold, and a directory service that answers.
    The first request (from any address) misses and refreshes; the
    refresh rebuilds the map, which now holds 100.64.0.5, and then
    waits in saveDeviceCache for the read lock while it holds the write
    lock. A later request from 100.64.0.5, an address present in the
    snapshot with its record, waits on the read lock and never gets the
    record. No request is sent for it. *)
Theorem getDeviceByIP_hit_blocked_after_refresh :
  let first := getDeviceByIP "100.64.0.7" Examples.cold in
  let s := final first in
  first = Blocked s
  /\ mutex_of s = sync.mkRWMutex true 0
  /\ IPToDevice (cache_of s) !! "100.64.0.5" = Some (Some Examples.d1)
  /\ getDeviceByIP "100.64.0.5" s = Blocked s
  /\ length (sent (world (final (getDeviceByIP "100.64.0.5" s)))) = 1%nat.
Proof.
  intros first s.
  assert (Hs : s = final first) by reflexivity.
  assert (Hmu : mutex_of s = sync.mkRWMutex true 0) by (vm_compute; reflexivity).
  assert (Hb : getDeviceByIP "100.64.0.5" s = Blocked s).
  { unfold getDeviceByIP, bind. rewrite lookup_locked_held; [reflexivity|by rewrite Hmu]. }
  split; [vm_compute; reflexivity|]. split; [exact Hmu|].
  split; [vm_compute; reflexivity|]. split; [exact Hb|].
  rewrite Hb. vm_compute. reflexivity.
Qed.

(** C2, as amended. getDeviceByIP first asks for the read lock; while
    a refresh holds the write lock it waits there and starts nothing.
    With the lock free, a miss triggers exactly one refresh, which
    sends the one request for the device list (none if the request
    cannot be built). If the fetch fails, the error of the refresh
    comes back and the snapshot is what it was. If the fetch succeeds,
    the snapshot is rebuilt from the fetched devices alone, and when
    the refresh returns the answer is the record the new snapshot holds
    for the address, or else the error "device not found for IP ...
    even after cache refresh": an address still absent is reported
    through the error return, there is no separate outcome for it. The
    refresh returns exactly when saveDeviceCache cannot make the
    directory of the cache file; otherwise it waits in
    saveDeviceCache. *)
Theorem getDeviceByIP_miss_refreshes_once (s : State) (clientIP : string) :
  IPToDevice (cache_of s) !! clientIP = None ->
  (sync.writer (mutex_of s) = true ->
   getDeviceByIP clientIP s = Blocked s)
  /\ (idle s ->
      let out := getDeviceByIP clientIP s in
      sent (world (final out)) = (sent (world s) ++ refresh_requests s)%list
      /\ match
           match devices_request (auth s) with
           | Some req =>
             http.accepted Unmarshal_DevicesResponse
               (net (world s) (length (sent (world s))) req)
           | None => None
           end
         with
         | None =>
           exists e s', out = Ret (None, Some (ErrRefresh e)) s'
                        /\ cache_of s' = cache_of s
         | Some (resp, dr) =>
           cache_of (final out)
           = mkDeviceCache (populate (Devices dr) ∅)
               (Header_Get (http.RespHeader resp) "Date")
           /\ if cache_dir_ok s
              then out = Blocked (final out)
              else out = Ret (match populate (Devices dr) ∅ !! clientIP with
                              | Some (Some device) => (Some device, None)
                              | _ => (None, Some (ErrDeviceNotFound clientIP))
                              end) (final out)
         end).
Proof.
  intros Hmiss. split.
  { intros Hw. unfold getDeviceByIP, bind. by rewrite lookup_locked_held. }
  intros Hidle out. unfold out.
  rewrite getDeviceByIP_miss by (auto using idle_writer).
  split; [apply refresh_and_recheck_sent|].
  destruct (fetchDevices_returns s) as (fr & s1 & Hf & _).
  destruct fr as [[resp dr]|e].
  - pose proof (refresh_and_recheck_fetched clientIP s resp dr s1 Hidle Hf) as Hrun.
    apply fetchDevices_ok_iff in Hf as (req & body & Hreq & Hnet & Hst & Hb & Hu & _).
    rewrite Hreq. unfold http.accepted at 1. rewrite Hnet, Hst, Hb, Hu. simpl.
    exact Hrun.
  - destruct (refresh_and_recheck_failed clientIP s e s1 Hf) as (s' & Hr & Ha & _).
    assert (Hnone : match devices_request (auth s) with
                    | Some req =>
                      http.accepted Unmarshal_DevicesResponse
                        (net (world s) (length (sent (world s))) req)
                    | None => None
                    end = None).
    { destruct (devices_request (auth s)) as [req|] eqn:Hreq; [|reflexivity].
      destruct (http.accepted _ _) as [[resp dr]|] eqn:Hacc; [|reflexivity].
      exfalso. revert Hacc. unfold http.accepted.
      destruct (net _ _ _) as [err|resp'] eqn:Hnet; [done|].
      destruct (http.StatusCode resp' =? http.StatusOK)%Z eqn:Hst; [|done].
      destruct (http.Body resp') as [body|] eqn:Hb; [|done].
      destruct (Unmarshal_DevicesResponse body) as [dr' [err|]] eqn:Hu; [done|].
      intros [= <- <-]. apply Z.eqb_eq in Hst.
      assert (Hok : exists s1', fetchDevices s = Ret (inl (resp', dr')) s1').
      { eexists. apply fetchDevices_ok_iff. exists req, body. auto 10. }
      destruct Hok as (s1' & Hok). rewrite Hf in Hok. discriminate Hok. }
    rewrite Hnone. exists e, s'. split; [exact Hr|].
    unfold cache_of. by rewrite Ha.
Qed.

Lemma getDeviceByIP_miss_refreshes_once_witness :
  IPToDevice (cache_of Examples.cold_nodir) !! "100.64.0.9" = None
  /\ idle Examples.cold_nodir
  /\ length (sent (world (final (getDeviceByIP "100.64.0.9" Examples.cold_nodir)))) = 1%nat
  /\ exists s', getDeviceByIP "100.64.0.9" Examples.cold_nodir
                = Ret (Some Examples.d2, None) s'.
Proof.
  split; [reflexivity|]. split; [reflexivity|].
  destruct (getDeviceByIP_miss_refreshes_once Examples.cold_nodir "100.64.0.9" eq_refl)
    as [_ H].
  destruct (H eq_refl) as [Hsent Hrun]. clear H.
  split; [rewrite Hsent; reflexivity|].
  do 3 match type of Hrun with
       | context [match ?a with _ => _ end] =>
         let a' := eval vm_compute in a in
         replace a with a' in Hrun by (vm_compute; reflexivity);
         cbv beta iota in Hrun
       end.
  destruct Hrun as [_ Hrun]. eexists. exact Hrun.
Defined.

(** C2 as the specification states it fails: a still-absent address
    does not come back as an outcome apart from errors. Where the
    refresh gets through, the answer is Go's error return, the same
    channel a failed refresh uses. *)
Lemma getDeviceByIP_not_found_is_error :
  IPToDevice (cache_of Examples.cold_nodir) !! "100.64.0.7" = None
  /\ exists r s',
       getDeviceByIP "100.64.0.7" Examples.cold_nodir = Ret r s'
       /\ r = (None, Some (ErrDeviceNotFound "100.64.0.7"))
       /\ r.2 <> None
       /\ IPToDevice (cache_of s') !! "100.64.0.7" = None
       /\ length (sent (world s')) = 1%nat.
Proof.
  split; [reflexivity|]. do 2 eexists. split; [vm_compute; reflexivity|].
  split; [reflexivity|]. split; [discriminate|].
  split; vm_compute; reflexivity.
Qed.

(** C3. When the fetch of a refresh fails (the request cannot be built
    or sent, the status is not 200, the body cannot be read or does not
    decode), getDeviceByIP returns the error of the refresh and the
    cache is what it was: the same mapping, the same freshness marker,
    the same lock state; the disk is untouched as well. *)
Theorem getDeviceByIP_refresh_failed (s : State) (clientIP : string) (e : error) (s1 : State) :
  sync.writer (mutex_of s) = false ->
  (IPToDevice (cache_of s) !! clientIP = None
   \/ IPToDevice (cache_of s) !! clientIP = Some None) ->
  fetchDevices s = Ret (inr e) s1 ->
  exists s',
    getDeviceByIP clientIP s = Ret (None, Some (ErrRefresh e)) s'
    /\ IPToDevice (cache_of s') = IPToDevice (cache_of s)
    /\ LastUpdate (cache_of s') = LastUpdate (cache_of s)
    /\ auth s' = auth s
    /\ fs (world s') = fs (world s).
Proof.
  intros Hw Hmiss Hf. rewrite getDeviceByIP_miss by done.
  destruct (refresh_and_recheck_failed clientIP _ _ _ Hf) as (s' & Hrun & Ha & Hfs).
  exists s'. unfold cache_of. rewrite Ha. auto.
Qed.

Lemma getDeviceByIP_refresh_failed_witness :
  exists s',
    getDeviceByIP "100.64.0.9" Examples.cold_outage
    = Ret (None, Some (ErrRefresh (ErrStatus 503))) s'
    /\ IPToDevice (cache_of s') = IPToDevice (cache_of Examples.cold_outage)
    /\ LastUpdate (cache_of s') = LastUpdate (cache_of Examples.cold_outage)
    /\ auth s' = auth Examples.cold_outage
    /\ fs (world s') = fs (world Examples.cold_outage).
Proof.
  eapply (getDeviceByIP_refresh_failed Examples.cold_outage "100.64.0.9").
  - reflexivity.
  - left. reflexivity.
  - vm_compute. reflexivity.
Defined.

(** C7. After a refresh whose fetch succeeded, the snapshot mapping is
    the one built from the fetched devices alone: every key holds a
    record (never nil) that was fetched and lists the key among its
    addresses, namely the last such device of the response; every
    address of every fetched device is a key; nothing of the previous
    snapshot is left. This is the state the refresh leaves, whether it
    returns or waits for the lock in saveDeviceCache. *)
Theorem refresh_snapshot_invariant (s : State) (resp : http.Response)
    (dr : DevicesResponse) (s1 : State) :
  idle s ->
  fetchDevices s = Ret (inl (resp, dr)) s1 ->
  let m := IPToDevice (cache_of (final (refreshDeviceCache s))) in
  m = populate (Devices dr) ∅
  /\ (forall k v, m !! k = Some v ->
        exists device, v = Some device /\ device ∈ Devices dr /\ k ∈ Addresses device)
  /\ (forall k device, device ∈ Devices dr -> k ∈ Addresses device -> is_Some (m !! k))
  /\ (forall k, m !! k
                = Some <$> last (filter (fun d => k ∈ Addresses d) (Devices dr))).
Proof.
  intros Hidle Hf m.
  destruct (refresh_fetch_ok _ _ _ _ Hf Hidle) as (s2 & Hc & _ & _ & Hrun).
  assert (Hm : m = populate (Devices dr) ∅).
  { unfold m. destruct (cache_dir_ok s); destruct Hrun as [-> _]; simpl; by rewrite Hc. }
  assert (Hl : forall k, m !! k
                 = Some <$> last (filter (fun d => k ∈ Addresses d) (Devices dr))).
  { intros k. rewrite Hm, populate_lookup.
    destruct (last _); [done|]. by rewrite lookup_empty. }
  split; [done|]. split; [|split; [|done]].
  - intros k v. rewrite Hl.
    destruct (last _) as [d|] eqn:Hlast; [|done].
    intros [= <-]. apply last_filter_elem in Hlast as [? ?]. eauto.
  - intros k d Hin Hk. rewrite Hl.
    destruct (last _) as [d'|] eqn:Hlast; [by eexists|].
    by destruct (last_filter_none _ _ _ Hlast Hin).
Qed.

Lemma refresh_snapshot_invariant_witness :
  IPToDevice (cache_of (final (refreshDeviceCache Examples.warm)))
    !! "100.64.0.9" = Some (Some Examples.d2).
Proof.
  destruct (refresh_snapshot_invariant Examples.warm
              (http.mkResponse 200 (Header_Set ∅ "Date" Examples.date)
                 (Some Examples.directory_body))
              (mkDevicesResponse [Examples.d1; Examples.d2])
              (mkState (auth Examples.warm)
                 (mkWorld (net (world Examples.warm))
                    (refresh_requests Examples.warm) Examples.empty_fs []))
              eq_refl) as (_ & _ & _ & Hl).
  - vm_compute. reflexivity.
  - rewrite Hl. vm_compute. reflexivity.
Defined.

(** C10. A key that holds the nil pointer is a miss: getDeviceByIP
    takes the refresh path, the refresh sends its request, and no
    return of getDeviceByIP carries a nil record with a nil error, so
    addDeviceHeaders is never handed nil. *)
Theorem getDeviceByIP_nil_record_is_miss (s : State) (clientIP : string) :
  sync.writer (mutex_of s) = false ->
  IPToDevice (cache_of s) !! clientIP = Some None ->
  getDeviceByIP clientIP s = refresh_and_recheck clientIP s
  /\ sent (world (final (getDeviceByIP clientIP s)))
     = (sent (world s) ++ refresh_requests s)%list
  /\ forall r s', getDeviceByIP clientIP s = Ret r s' ->
                  (exists device, r = (Some device, None))
                  \/ (exists e, r = (None, Some e)).
Proof.
  intros Hw Hnil.
  assert (H : getDeviceByIP clientIP s = refresh_and_recheck clientIP s)
    by (apply getDeviceByIP_miss; auto).
  split; [done|]. split.
  - rewrite H. apply refresh_and_recheck_sent.
  - intros r s'. apply getDeviceByIP_pair.
Qed.

Lemma getDeviceByIP_nil_record_is_miss_witness :
  length (sent (world (final (getDeviceByIP "100.64.0.9" Examples.nulled)))) = 1%nat
  /\ exists s', getDeviceByIP "100.64.0.9" Examples.nulled
                = Ret (Some Examples.d2, None) s'.
Proof.
  destruct (getDeviceByIP_nil_record_is_miss Examples.nulled "100.64.0.9"
              eq_refl eq_refl) as (_ & Hsent & _).
  split; [rewrite Hsent; reflexivity|].
  eexists. vm_compute. reflexivity.
Defined.

End ResolutionCache.


(** ** The handler *)

Section Handler.
Import golib json jsondec Cached.
Local Open Scope string_scope.

Lemma refreshDeviceCache_no_panic s s' : refreshDeviceCache s <> Panic s'.
Proof.
  destruct (fetchDevices_returns s) as (r & s1 & Hf & _).
  unfold refreshDeviceCache, bind. rewrite Hf.
  destruct r as [[resp dr]|e]; [|done].
  destruct s1 as [[k tn hp cf c [wr rd]] w1].
  unfold Lock, saveDeviceCache, bind, get_auth, os_MkdirAll, RLock; simpl.
  destruct wr, rd; simpl; try done.
  destruct (os.MkdirAll _ _); done.
Qed.

Lemma getDeviceByIP_no_panic clientIP s s' : getDeviceByIP clientIP s <> Panic s'.
Proof.
  assert (Hmiss : forall s0, refresh_and_recheck clientIP s0 <> Panic s').
  { intros s0. unfold refresh_and_recheck, bind. rewrite logf_final.
    destruct (refreshDeviceCache _) as [[e|] s2|s2|s2] eqn:Hr; simpl; try done.
    - unfold recheck, bind.
      destruct (sync.writer (mutex_of s2)) eqn:Hw.
      + rewrite lookup_locked_held by done. done.
      + rewrite lookup_locked_free by done. repeat case_match; done.
    - by apply refreshDeviceCache_no_panic in Hr. }
  unfold getDeviceByIP, bind.
  destruct (sync.writer (mutex_of s)) eqn:Hw.
  - rewrite lookup_locked_held by done. done.
  - rewrite lookup_locked_free by done. repeat case_match; try done; apply Hmiss.
Qed.

(** ServeHTTP hands the request to the downstream handler whenever the
    lookup returns, annotated or not; it fails to only when the lookup
    waits on the mutex. It never dereferences a nil record. *)
Lemma ServeHTTP_next_or_blocked {A} (r : http.Inbound) (next : http.Inbound -> M A) s :
  (exists r' s', ServeHTTP r next s = next r' s')
  \/ (exists s', ServeHTTP r next s = Blocked s').
Proof.
  unfold ServeHTTP.
  destruct (String.eqb (getClientIP r) ""); [left; eauto|].
  unfold bind.
  destruct (getDeviceByIP (getClientIP r) s) as [res s1|s1|s1] eqn:Hg.
  - apply getDeviceByIP_pair in Hg as [[d ->]|[e ->]]; left; eauto.
  - right. eauto.
  - by apply getDeviceByIP_no_panic in Hg.
Qed.

(** A lookup that ends in an error (an address that cannot be found,
    a fetch that fails) does not stop the request: it goes downstream
    with its headers untouched. *)
Lemma ServeHTTP_lookup_error {A} (r : http.Inbound) (next : http.Inbound -> M A) s d e s1 :
  getClientIP r <> "" ->
  getDeviceByIP (getClientIP r) s = Ret (d, Some e) s1 ->
  exists s', ServeHTTP r next s = next r s' /\ auth s' = auth s1.
Proof.
  intros Hip Hg. unfold ServeHTTP.
  apply String.eqb_neq in Hip. rewrite Hip. unfold bind. rewrite Hg.
  destruct d; eexists; split; reflexivity.
Qed.

(** C4, at the input where the code departs from it. The default
    configuration, a cold cache, a request from an address the
    directory does not know, and a directory service that answers:
    the refresh rebuilds the map and then waits in saveDeviceCache for
    the read lock while holding the write lock. ServeHTTP never
    reaches the downstream handler, whatever that handler is. *)
Theorem ServeHTTP_blocked_by_refresh {A} (next : http.Inbound -> M A) :
  exists s',
    ServeHTTP (Examples.inbound "100.64.0.7:41000") next Examples.cold = Blocked s'
    /\ mutex_of s' = sync.mkRWMutex true 0
    /\ IPToDevice (cache_of s') !! "100.64.0.7" = None
    /\ log (world s')
       = [(Info, "unknown device IP, refreshing cache"); (Info, "refreshed device cache")].
Proof.
  eexists. split; [|split; [|split]].
  - unfold ServeHTTP.
    replace (getClientIP (Examples.inbound "100.64.0.7:41000")) with "100.64.0.7"
      by (vm_compute; reflexivity).
    simpl String.eqb. cbv iota. unfold bind.
    replace (getDeviceByIP "100.64.0.7" Examples.cold)
      with (@Blocked (option Device * option error)
              (final (getDeviceByIP "100.64.0.7" Examples.cold)))
      by (vm_compute; reflexivity).
    reflexivity.
  - vm_compute. reflexivity.
  - vm_compute. reflexivity.
  - vm_compute. reflexivity.
Qed.

(** Once a refresh waits like that, every later request waits too,
    hits included: the write lock is never released. *)
Lemma getDeviceByIP_blocked_after clientIP s :
  sync.writer (mutex_of s) = true -> getDeviceByIP clientIP s = Blocked s.
Proof.
  intros Hw. unfold getDeviceByIP, bind. by rewrite lookup_locked_held.
Qed.

End Handler.

Section DirectHandler.
Import golib json jsondec.
Local Open Scope string_scope.

(** getTailscaleUser returns a record exactly when it returns no error. *)
Lemma getTailscaleUser_pair t clientIP w r w' :
Direct.getTailscaleUser t clientIP w = (r, w') ->
(exists whois, r = (Some whois, None)) \/ (exists e, r = (None, Some e)).
Proof.
unfold Direct.getTailscaleUser, Direct.client_Do.
destruct (Direct.whois_request t clientIP) as [req|]; [|intros [= <- _]; eauto].
destruct (Direct.net w (length (Direct.sent w)) req) as [err|resp]; [intros [= <- _]; eauto|].
destruct (negb _); [intros [= <- _]; eauto|].
destruct (http.Body resp) as [body|]; [|intros [= <- _]; eauto].
destruct (Direct.Unmarshal_WhoIsResponse body) as [whois [err|]]; intros [= <- _]; eauto.
Qed.

(** The handler without a cache has no lock to wait on: it always hands
    the request to the downstream handler, with the headers untouched
    when the lookup fails. *)
Lemma Direct_ServeHTTP_always_next {A} t (r : http.Inbound)
  (next : http.Inbound -> Direct.World -> A) w :
exists r' w', Direct.ServeHTTP t r next w = Some (next r' w').
Proof.
unfold Direct.ServeHTTP.
destruct (String.eqb (Direct.getClientIP r) ""); [eauto|].
destruct (Direct.getTailscaleUser t (Direct.getClientIP r) w) as [res w1] eqn:Hg.
apply getTailscaleUser_pair in Hg as [[whois ->]|[e ->]]; eauto.
Qed.

(** A whois answer for a node with one address and no tags: the node and
    user pairs are set, the address pair as well, no pair for tags. *)
Example Direct_ServeHTTP_annotates :
let next (r : http.Inbound) (w : Direct.World) := (http.InHeader r, length (Direct.sent w)) in
exists h,
  Direct.ServeHTTP Examples.direct_config (Examples.inbound "100.64.0.5:41000") next
    (Examples.direct_world (Examples.respond 200 Examples.whois_body))
  = Some (h, 1%nat)
  /\ Header_Get h "X-Tailscale-User-LoginName" = "ada@example.com"
  /\ Header_Get h "X-Tailscale-Node-Addresses" = "100.64.0.5"
  /\ h !! CanonicalMIMEHeaderKey "X-Tailscale-Node-Tags" = None.
Proof.
eexists. split; [vm_compute; reflexivity|]. repeat split; vm_compute; reflexivity.
Qed.

End DirectHandler.

(** ** The remote directory client *)

Section RemoteClient.
Import golib json jsondec.
Local Open Scope string_scope.

(** C8 as the specification states it fails: a 204 is a status of the
    2xx range and the body would decode, yet the fetch reports an
    error. *)
Lemma fetchDevices_rejects_204 :
  (200 <= 204 < 300)%Z
  /\ (Cached.Unmarshal_DevicesResponse Examples.directory_body).2 = None
  /\ exists s', Cached.fetchDevices Examples.cold_204
                = Cached.Ret (inr (Cached.ErrStatus 204)) s'.
Proof.
  split; [lia|]. split; [vm_compute; reflexivity|].
  eexists. vm_compute. reflexivity.
Qed.

(** C8, as amended. Both fetches make one attempt: if the request
    cannot be built nothing is sent and an error comes back; otherwise
    exactly one request is sent, and the fetch succeeds exactly when the
    answer is a response with status 200 whose body can be read and
    decodes; in every other case (transport error, any other status,
    unreadable body, body that does not decode) it reports an error.
    Nothing is retried. *)
Theorem fetch_succeeds_iff_200_and_decodes :
  (forall s : Cached.State,
      match Cached.devices_request (Cached.auth s) with
      | None => Cached.fetchDevices s = Cached.Ret (inr Cached.ErrCreateRequest) s
      | Some req =>
        let w := Cached.world s in
        exists r,
          Cached.fetchDevices s
          = Cached.Ret r
              (Cached.mkState (Cached.auth s)
                 (Cached.mkWorld (Cached.net w) (Cached.sent w ++ [req])
                    (Cached.fs w) (Cached.log w)))
          /\ match http.accepted Cached.Unmarshal_DevicesResponse
                     (Cached.net w (length (Cached.sent w)) req) with
             | Some a => r = inl a
             | None => exists e, r = inr e
             end
      end)
  /\ (forall (t : Direct.TailscaleAuth) (clientIP : string) (w : Direct.World),
        match Direct.whois_request t clientIP with
        | None => Direct.getTailscaleUser t clientIP w = ((None, Some Direct.ErrCreateRequest), w)
        | Some req =>
          exists r,
            Direct.getTailscaleUser t clientIP w
            = (r, Direct.mkWorld (Direct.net w) (Direct.sent w ++ [req]) (Direct.log w))
            /\ match http.accepted Direct.Unmarshal_WhoIsResponse
                       (Direct.net w (length (Direct.sent w)) req) with
               | Some (_, whois) => r = (Some whois, None)
               | None => exists e, r = (None, Some e)
               end
        end).
Proof.
  split.
  - intros [t w]. unfold Cached.fetchDevices, Cached.bind, Cached.get_auth,
      Cached.client_Do, Cached.ret, http.accepted. simpl.
    destruct (Cached.devices_request t) as [req|]; [|reflexivity]. simpl.
    destruct (Cached.net w (length (Cached.sent w)) req) as [err|resp]; simpl.
    { eexists. split; [reflexivity|]. eauto. }
    destruct (http.StatusCode resp =? http.StatusOK)%Z; simpl.
    2:{ eexists. split; [reflexivity|]. eauto. }
    destruct (http.Body resp) as [body|].
    2:{ eexists. split; [reflexivity|]. eauto. }
    destruct (Cached.Unmarshal_DevicesResponse body) as [dr [err|]];
      eexists; (split; [reflexivity|]); eauto.
  - intros t clientIP w. unfold Direct.getTailscaleUser, Direct.client_Do, http.accepted.
    destruct (Direct.whois_request t clientIP) as [req|]; [|reflexivity].
    destruct (Direct.net w (length (Direct.sent w)) req) as [err|resp]; simpl.
    { eexists. split; [reflexivity|]. eauto. }
    destruct (http.StatusCode resp =? http.StatusOK)%Z; simpl.
    2:{ eexists. split; [reflexivity|]. eauto. }
    destruct (http.Body resp) as [body|].
    2:{ eexists. split; [reflexivity|]. eauto. }
    destruct (Direct.Unmarshal_WhoIsResponse body) as [whois [err|]];
      eexists; (split; [reflexivity|]); eauto.
Qed.

End RemoteClient.

(** ** The annotator *)

Section Annotator.
Import golib json jsondec.
Local Open Scope string_scope.

Lemma prefixed_inj (prefix a b : string) : prefix +:+ a = prefix +:+ b -> a = b.
Proof. apply String.app_inj. Qed.






End Annotator.

(** ** encoding/json writes what it reads *)

Ltac bools :=
  repeat match goal with
  | H : _ && _ = true |- _ => apply andb_true_iff in H as [? ?]
  | H : _ || _ = false |- _ => apply orb_false_iff in H as [? ?]
  | H : negb _ = false |- _ => apply negb_false_iff in H
  | H : negb _ = true |- _ => apply negb_true_iff in H
  | H : _ || _ = true |- _ => apply orb_true_iff in H as [H|H]
  | H : _ && _ = false |- _ => apply andb_false_iff in H as [H|H]
  | H : (_ <? _) = true |- _ => apply N.ltb_lt in H
  | H : (_ <? _) = false |- _ => apply N.ltb_ge in H
  | H : (_ <=? _) = true |- _ => apply N.leb_le in H
  | H : (_ <=? _) = false |- _ => apply N.leb_gt in H
  | H : (_ =? _) = true |- _ => apply N.eqb_eq in H
  | H : (_ =? _) = false |- _ => apply N.eqb_neq in H
  end.

Ltac decide_if :=
  match goal with
  | |- context [if ?b then _ else _] =>
    let E := fresh "E" in
    destruct b eqn:E; unfold in_range in *; bools; try lia
  end.

Ltac lexes_const :=
  intros rest fuel Hf; simpl in Hf;
  destruct fuel as [|fuel]; [lia|];
  exists fuel; split; [lia|reflexivity].

Section Utf8Facts.
Local Open Scope N_scope.

Lemma code_lt c : code c < 256.
Proof. unfold code. apply N_ascii_bounded. Qed.

Lemma ch_code c : ch (code c) = c.
Proof. apply ascii_N_embedding. Qed.

Lemma code_ch n : n < 256 -> code (ch n) = n.
Proof. apply N_ascii_embedding. Qed.



Lemma enc2 b0 b1 :
  0xC2 <= b0 <= 0xDF -> 0x80 <= b1 <= 0xBF ->
  utf8.EncodeRune ((b0 - 0xC0) * 64 + (b1 - 0x80)) = [ch b0; ch b1].
Proof.
  intros H0 H1. unfold utf8.EncodeRune, utf8.MaxRune.
  repeat decide_if.
  f_equal; [|f_equal]; f_equal; lia.
Qed.

Lemma enc3 b0 b1 b2 :
  0xE0 <= b0 <= 0xEF ->
  (if b0 =? 0xE0 then 0xA0 else 0x80) <= b1 ->
  b1 <= (if b0 =? 0xED then 0x9F else 0xBF) ->
  0x80 <= b2 <= 0xBF ->
  utf8.EncodeRune ((b0 - 0xE0) * 4096 + (b1 - 0x80) * 64 + (b2 - 0x80))
  = [ch b0; ch b1; ch b2].
Proof.
  intros H0 Hlo Hhi H2. unfold utf8.EncodeRune, utf8.MaxRune.
  destruct (b0 =? 0xE0) eqn:E0; destruct (b0 =? 0xED) eqn:E1; cbv iota in Hlo, Hhi; bools;
    repeat decide_if; (f_equal; [|f_equal; [|f_equal]]; f_equal; lia).
Qed.

Lemma enc4 b0 b1 b2 b3 :
  0xF0 <= b0 <= 0xF4 ->
  (if b0 =? 0xF0 then 0x90 else 0x80) <= b1 ->
  b1 <= (if b0 =? 0xF4 then 0x8F else 0xBF) ->
  0x80 <= b2 <= 0xBF -> 0x80 <= b3 <= 0xBF ->
  utf8.EncodeRune ((b0 - 0xF0) * 262144 + (b1 - 0x80) * 4096 + (b2 - 0x80) * 64 + (b3 - 0x80))
  = [ch b0; ch b1; ch b2; ch b3].
Proof.
  intros H0 Hlo Hhi H2 H3. unfold utf8.EncodeRune, utf8.MaxRune.
  destruct (b0 =? 0xF0) eqn:E0; destruct (b0 =? 0xF4) eqn:E1; cbv iota in Hlo, Hhi; bools;
    repeat decide_if; (f_equal; [|f_equal; [|f_equal; [|f_equal]]]; f_equal; lia).
Qed.

Lemma DecodeRune_valid p r n :
  p <> [] ->
  utf8.DecodeRune p = (r, n) ->
  utf8.invalid_step (r, n) = false ->
  rune_at p r n.
Proof.
  destruct p as [|c0 p1]; [done|]. intros _.
  unfold utf8.DecodeRune, utf8.RuneSelf.
  pose proof (code_lt c0) as L0.
  destruct (code c0 <? 0x80) eqn:E0.
  { intros [= <- <-] _. split; simpl.
    - lia.
    - unfold utf8.EncodeRune. bools. destruct (code c0 <=? 0x7F) eqn:E; bools; [|lia].
      by rewrite ch_code.
    - intros q. unfold utf8.DecodeRune, utf8.RuneSelf. by rewrite E0.
    - bools. lia.
    - done. }
  destruct ((code c0 <? 0xC2) || (0xF4 <? code c0)) eqn:E1.
  { intros [= <- <-]. done. }
  destruct p1 as [|c1 p2]; [intros [= <- <-]; done|].
  pose proof (code_lt c1) as L1.
  set (lo := if code c0 =? 224 then 160 else if code c0 =? 240 then 144 else 128).
  set (hi := if code c0 =? 237 then 159 else if code c0 =? 244 then 143 else 191).
  destruct (negb (in_range lo hi (code c1))) eqn:E2; [intros [= <- <-]; done|].
  destruct (code c0 <? 0xE0) eqn:E3.
  { intros [= <- <-] _.
    assert (Hb : 0xC2 <= code c0 <= 0xDF /\ 0x80 <= code c1 <= 0xBF).
    { clear -E0 E1 E2 E3. subst lo hi. unfold in_range in *.
      destruct (code c0 =? 224) eqn:?, (code c0 =? 240) eqn:?,
        (code c0 =? 237) eqn:?, (code c0 =? 244) eqn:?; bools; lia. }
    destruct Hb as [Hb0 Hb1].
    split; simpl.
    - lia.
    - rewrite enc2 by done. by rewrite !ch_code.
    - intros q. unfold utf8.DecodeRune, utf8.RuneSelf. fold lo hi.
      by rewrite E0, E1, E2, E3.
    - intros _. repeat constructor; lia.
    - lia. }
  destruct p2 as [|c2 p3]; [intros [= <- <-]; done|].
  pose proof (code_lt c2) as L2.
  destruct (negb (in_range 0x80 0xBF (code c2))) eqn:E4; [intros [= <- <-]; done|].
  destruct (code c0 <? 0xF0) eqn:E5.
  { intros [= <- <-] _.
    assert (Hb : 0xE0 <= code c0 <= 0xEF
                 /\ (if code c0 =? 0xE0 then 0xA0 else 0x80) <= code c1
                 /\ code c1 <= (if code c0 =? 0xED then 0x9F else 0xBF)
                 /\ 0x80 <= code c2 <= 0xBF).
    { clear -E0 E1 E2 E3 E4 E5. subst lo hi. unfold in_range in *.
      destruct (code c0 =? 224) eqn:?, (code c0 =? 240) eqn:?,
        (code c0 =? 237) eqn:?, (code c0 =? 244) eqn:?; bools; lia. }
    destruct Hb as (Hb0 & Hlo & Hhi & Hb2).
    split; simpl.
    - lia.
    - rewrite enc3 by done. by rewrite !ch_code.
    - intros q. unfold utf8.DecodeRune, utf8.RuneSelf. fold lo hi.
      by rewrite E0, E1, E2, E3, E4, E5.
    - intros _.
      assert (0x80 <= code c1) by (destruct (code c0 =? 0xE0); lia).
      repeat constructor; lia.
    - destruct (code c0 =? 0xE0) eqn:?; bools; lia. }
  destruct p3 as [|c3 p4]; [intros [= <- <-]; done|].
  pose proof (code_lt c3) as L3.
  destruct (negb (in_range 0x80 0xBF (code c3))) eqn:E6; [intros [= <- <-]; done|].
  intros [= <- <-] _.
  assert (Hb : 0xF0 <= code c0 <= 0xF4
               /\ (if code c0 =? 0xF0 then 0x90 else 0x80) <= code c1
               /\ code c1 <= (if code c0 =? 0xF4 then 0x8F else 0xBF)
               /\ 0x80 <= code c2 <= 0xBF /\ 0x80 <= code c3 <= 0xBF).
  { clear -E0 E1 E2 E3 E4 E5 E6. subst lo hi. unfold in_range in *.
    destruct (code c0 =? 224) eqn:?, (code c0 =? 240) eqn:?,
      (code c0 =? 237) eqn:?, (code c0 =? 244) eqn:?; bools; lia. }
  destruct Hb as (Hb0 & Hlo & Hhi & Hb2 & Hb3).
  split; simpl.
  - lia.
  - rewrite enc4 by done. by rewrite !ch_code.
  - intros q. unfold utf8.DecodeRune, utf8.RuneSelf. fold lo hi.
    by rewrite E0, E1, E2, E3, E4, E5, E6.
  - intros _.
    assert (0x80 <= code c1) by (destruct (code c0 =? 0xF0); lia).
    repeat constructor; lia.
  - destruct (code c0 =? 0xF0) eqn:?; bools; lia.
Qed.

End Utf8Facts.

Section StringLiterals.
Import json.
Local Open Scope N_scope.

Lemma appendString_escaped k :
  forall src f1 f2,
    (length src <= k)%nat -> (length src <= f1)%nat -> (length src <= f2)%nat ->
    utf8.valid_go f2 src = true ->
    escaped src (appendString_go f1 src).
Proof.
  induction k as [|k IH]; intros src f1 f2 Hk H1 H2 Hv.
  { destruct src; [|simpl in Hk; lia]. destruct f1; constructor. }
  destruct src as [|c rest]; [destruct f1; constructor|].
  destruct f1 as [|f1]; [simpl in H1; lia|].
  destruct f2 as [|f2]; [simpl in H2; lia|].
  simpl in Hk, H1, H2.
  cbn [appendString_go]. cbn [utf8.valid_go] in Hv.
  apply andb_true_iff in Hv as [Hstep Hv]. apply negb_true_iff in Hstep.
  revert Hstep Hv.
  destruct (utf8.DecodeRune (c :: rest)) as [r n] eqn:Hd. intros Hstep Hv.
  assert (Hr : rune_at (c :: rest) r n)
    by (apply DecodeRune_valid; [discriminate|exact Hd|exact Hstep]).
  cbn [fst snd] in *.
  destruct (code c <? utf8.RuneSelf) eqn:E0.
  - assert (n = 1%nat) as ->.
    { revert Hd. unfold utf8.DecodeRune. rewrite E0. by intros [= _ <-]. }
    cbn [drop] in Hv.
    assert (escaped rest (appendString_go f1 rest)) by (apply (IH _ _ f2); lia || done).
    destruct (htmlSafe (code c)) eqn:Es; by constructor.
  - rewrite Hstep.
    assert (Hlen : (length (drop n (c :: rest)) <= length rest)%nat).
    { rewrite length_drop. destruct Hr as [[? ?] _ _ _ _]. simpl in *. lia. }
    assert (escaped (drop n (c :: rest)) (appendString_go f1 (drop n (c :: rest))))
      by (apply (IH _ _ f2); lia || done).
    assert (0x80 <= r).
    { revert Hd. unfold utf8.DecodeRune. rewrite E0.
      unfold utf8.RuneSelf in E0. apply N.ltb_ge in E0.
      destruct (N.lt_ge_cases r 0x80) as [Hlt|]; [|done].
      intros _. apply (rune_low _ _ _ Hr) in Hlt. subst n.
      pose proof (rune_encode _ _ _ Hr) as He. revert He.
      unfold utf8.EncodeRune. destruct (r <=? 0x7F) eqn:E; [|apply N.leb_gt in E; lia].
      simpl. intros [= <-]. pose proof (code_ch r). lia. }
    destruct ((r =? 0x2028) || (r =? 0x2029)) eqn:Esep.
    + eapply escaped_separator; [done| |done].
      apply orb_true_iff in Esep as [?%N.eqb_eq|?%N.eqb_eq]; auto.
    + by eapply escaped_rune.
Qed.

Lemma prepend_app a b x : prepend a (prepend b x) = prepend (a ++ b) x.
Proof. destruct x as [[? ?]|]; simpl; [by rewrite app_assoc|done]. Qed.

Lemma scan_plain c t :
  (code c =? 0x22) = false -> (code c =? 0x5C) = false -> (code c <? 0x20) = false ->
  scan_string (c :: t) = prepend [c] (scan_string t).
Proof. intros H1 H2 H3. cbn [scan_string]. by rewrite H1, H2, H3. Qed.

Lemma scan_safe c t :
  htmlSafe (code c) = true -> scan_string (c :: t) = prepend [c] (scan_string t).
Proof.
  unfold htmlSafe. intros H. apply scan_plain; bools; try lia.
  - by apply N.eqb_neq.
  - by apply N.eqb_neq.
  - by apply N.ltb_ge.
Qed.

Lemma scan_escape_ascii c t :
  (code c <? 0x80) = true -> htmlSafe (code c) = false ->
  scan_string (escape_ascii (code c) ++ t)
  = prepend (escape_ascii (code c)) (scan_string t).
Proof.
  destruct c as [[] [] [] [] [] [] [] []]; intros H1 H2;
    try discriminate H1; try discriminate H2; reflexivity.
Qed.

Lemma unquote_escape_ascii c t fuel :
  (code c <? 0x80) = true -> htmlSafe (code c) = false ->
  unquote_go (S fuel) (escape_ascii (code c) ++ t) = (c ::.) <$> unquote_go fuel t.
Proof.
  destruct c as [[] [] [] [] [] [] [] []]; intros H1 H2;
    try discriminate H1; try discriminate H2; reflexivity.
Qed.

Lemma scan_raw l t :
  Forall (fun c => 0x80 <= code c) l ->
  scan_string (l ++ t) = prepend l (scan_string t).
Proof.
  induction 1 as [|c l Hc _ IH]; simpl app.
  - by destruct (scan_string t) as [[? ?]|].
  - rewrite scan_plain, IH, prepend_app; [done|..].
    + apply N.eqb_neq. lia.
    + apply N.eqb_neq. lia.
    + apply N.ltb_ge. lia.
Qed.

Lemma scan_separator r t :
  r = 0x2028 \/ r = 0x2029 ->
  scan_string (ch 0x5C :: txt "u202" ++ [hexdigit (r mod 16)] ++ t)
  = prepend (ch 0x5C :: txt "u202" ++ [hexdigit (r mod 16)]) (scan_string t).
Proof. intros [-> | ->]; reflexivity. Qed.

Lemma scan_escaped src out :
  escaped src out ->
  forall rest, scan_string (out ++ ch 0x22 :: rest) = Some (out, rest).
Proof.
  induction 1 as [|c r out Hlt Hs _ IH|c r out Hlt Hs _ IH
                  |src r n out Hr Hsep _ IH|src r n out Hr Hhi _ IH]; intros rest.
  - reflexivity.
  - simpl app. rewrite scan_safe, IH by done. reflexivity.
  - rewrite <- app_assoc, scan_escape_ascii, IH by done. reflexivity.
  - change (ch 92 :: txt "u202" ++ [hexdigit (r `mod` 16)] ++ out)
      with ((ch 92 :: txt "u202" ++ [hexdigit (r `mod` 16)]) ++ out).
    rewrite <- app_assoc.
    change ((ch 92 :: txt "u202" ++ [hexdigit (r `mod` 16)]) ++ out ++ ch 34 :: rest)
      with (ch 92 :: txt "u202" ++ [hexdigit (r `mod` 16)] ++ out ++ ch 34 :: rest).
    rewrite scan_separator, IH by done. reflexivity.
  - rewrite <- app_assoc, scan_raw, IH; [reflexivity|]. by apply (rune_high _ _ _ Hr).
Qed.

Lemma unquote_separator r t fuel :
  r = 0x2028 \/ r = 0x2029 ->
  unquote_go (S fuel) (ch 0x5C :: txt "u202" ++ [hexdigit (r mod 16)] ++ t)
  = (utf8.EncodeRune r ++.) <$> unquote_go fuel t.
Proof. intros [-> | ->]; reflexivity. Qed.

Lemma unquote_plain c t fuel :
  (code c <? 0x80) = true -> htmlSafe (code c) = true ->
  unquote_go (S fuel) (c :: t) = (c ::.) <$> unquote_go fuel t.
Proof.
  unfold htmlSafe. intros H1 H2. cbn [unquote_go]. unfold utf8.RuneSelf. rewrite H1.
  bools.
  rewrite (proj2 (N.eqb_neq _ _)) by done.
  rewrite (proj2 (N.eqb_neq (code c) 0x22)) by done.
  rewrite (proj2 (N.ltb_ge _ _)) by done. reflexivity.
Qed.

Lemma unquote_rune src r n t fuel :
  rune_at src r n -> 0x80 <= r ->
  unquote_go (S fuel) (take n src ++ t) = (take n src ++.) <$> unquote_go fuel t.
Proof.
  intros Hr Hhi.
  pose proof (rune_high _ _ _ Hr Hhi) as Hall.
  pose proof (rune_stable _ _ _ Hr t) as Hd.
  pose proof (rune_width _ _ _ Hr) as [Hn0 Hn].
  assert (Hlen : length (take n src) = n) by (rewrite length_take; lia).
  destruct (take n src) as [|c l] eqn:Ht; [simpl in Hlen; lia|].
  apply Forall_cons in Hall as [Hc _].
  change ((c :: l) ++ t) with (c :: (l ++ t)) in *.
  cbn [unquote_go]. unfold utf8.RuneSelf.
  rewrite (proj2 (N.eqb_neq (code c) 0x5C)) by lia.
  rewrite (proj2 (N.eqb_neq (code c) 0x22)) by lia.
  rewrite (proj2 (N.ltb_ge (code c) 0x20)) by lia.
  rewrite (proj2 (N.ltb_ge (code c) 0x80)) by lia.
  cbn [orb]. rewrite Hd. cbn [fst snd].
  rewrite (rune_encode _ _ _ Hr), Ht.
  change (c :: l ++ t) with ((c :: l) ++ t).
  rewrite drop_app_length' by done. reflexivity.
Qed.

Lemma unquote_escaped src out :
  escaped src out ->
  forall fuel, (length out <= fuel)%nat -> unquote_go fuel out = Some src.
Proof.
  induction 1 as [|c r out Hlt Hs _ IH|c r out Hlt Hs _ IH
                  |src r n out Hr Hsep _ IH|src r n out Hr Hhi _ IH]; intros fuel Hf.
  - by destruct fuel.
  - destruct fuel as [|fuel]; [simpl in Hf; lia|].
    rewrite unquote_plain, IH by (done || simpl in Hf; lia). reflexivity.
  - rewrite length_app in Hf.
    assert (1 <= length (escape_ascii (code c)))%nat.
    { unfold escape_ascii. repeat case_match; simpl; lia. }
    destruct fuel as [|fuel]; [lia|].
    rewrite unquote_escape_ascii, IH by (done || lia). reflexivity.
  - destruct fuel as [|fuel]; [simpl in Hf; lia|].
    rewrite unquote_separator by done.
    rewrite IH.
    + simpl. rewrite (rune_encode _ _ _ Hr), take_drop. reflexivity.
    + simpl in Hf. rewrite ?length_app in Hf. simpl in Hf. lia.
  - rewrite length_app in Hf.
    pose proof (rune_width _ _ _ Hr) as [Hn0 Hn].
    assert (length (take n src) = n) by (rewrite length_take; lia).
    destruct fuel as [|fuel]; [lia|].
    rewrite (unquote_rune _ _ _ _ _ Hr Hhi), IH by lia.
    simpl. by rewrite take_drop.
Qed.

Lemma valid_escaped (s : string) :
  utf8.ValidString s = true ->
  escaped (txt s) (appendString_go (length (txt s)) (txt s)).
Proof.
  intros Hv. by apply (appendString_escaped (length (txt s)) _ _ (length (txt s))).
Qed.

(** A quoted valid string is scanned back as itself. *)
Lemma scan_quote (s : string) rest :
  utf8.ValidString s = true ->
  exists raw,
    quote s ++ rest = ch 0x22 :: raw ++ ch 0x22 :: rest
    /\ scan_string (raw ++ ch 0x22 :: rest) = Some (raw, rest)
    /\ unquote raw = Some s.
Proof.
  intros Hv. pose proof (valid_escaped s Hv) as He.
  exists (appendString_go (length (txt s)) (txt s)). split; [|split].
  - unfold quote. simpl. by rewrite <- app_assoc.
  - by apply (scan_escaped _ _ He).
  - unfold unquote. rewrite (unquote_escaped _ _ He) by done. simpl.
    unfold txt. by rewrite string_of_list_ascii_of_string.
Qed.

End StringLiterals.

Section Scanner.
Import json.
Local Open Scope N_scope.

Lemma value_ind2 (P : value -> Prop) :
  P JNull -> (forall b, P (JBool b)) -> (forall lit, P (JNumber lit)) ->
  (forall s, P (JString s)) ->
  (forall xs, Forall P xs -> P (JArray xs)) ->
  (forall kvs, Forall (fun kv => P kv.2) kvs -> P (JObject kvs)) ->
  forall v, P v.
Proof.
  intros Hn Hb Hnum Hs Ha Ho.
  refine (fix go (v : value) : P v :=
            match v with
            | JNull => Hn
            | JBool b => Hb b
            | JNumber lit => Hnum lit
            | JString s => Hs s
            | JArray xs =>
              Ha xs ((fix elems (l : list value) : Forall P l :=
                        match l with
                        | [] => Forall_nil_2 _
                        | x :: l' => Forall_cons_2 _ _ _ (go x) (elems l')
                        end) xs)
            | JObject kvs =>
              Ho kvs ((fix members (l : list (string * value)) : Forall (fun kv => P kv.2) l :=
                         match l with
                         | [] => Forall_nil_2 _
                         | kv :: l' => Forall_cons_2 _ _ _ (go kv.2) (members l')
                         end) kvs)
            end).
Qed.

Lemma lexes_nil : lexes [] [].
Proof.
  intros rest fuel Hf. exists fuel. split; [done|].
  simpl. by destruct (lex_go fuel rest).
Qed.

Lemma lexes_app p1 p2 t1 t2 : lexes p1 t1 -> lexes p2 t2 -> lexes (p1 ++ p2) (t1 ++ t2).
Proof.
  intros H1 H2 rest fuel Hf. rewrite <- app_assoc in *.
  destruct (H1 _ _ Hf) as (f1 & Hf1 & ->).
  destruct (H2 _ _ Hf1) as (f2 & Hf2 & ->).
  exists f2. split; [done|].
  destruct (lex_go f2 rest); simpl; [by rewrite app_assoc|done].
Qed.

Lemma lexes_space c : isSpace (code c) = true -> lexes [c] [].
Proof.
  intros H rest fuel Hf. destruct fuel as [|fuel]; [lia|].
  exists fuel. simpl in Hf. split; [lia|].
  cbn [lex_go app]. rewrite H. by destruct (lex_go fuel rest).
Qed.

Lemma lexes_indent d : lexes (indent d) [].
Proof.
  induction d as [|d IH]; [apply lexes_nil|].
  change (indent (S d)) with ([ch 0x20] ++ [ch 0x20] ++ indent d).
  change (@nil token) with (@nil token ++ [] ++ []).
  repeat apply lexes_app; try done; by apply lexes_space.
Qed.

Lemma lexes_newline d : lexes (newline d) [].
Proof.
  change (newline d) with ([ch 0x0A] ++ indent d).
  change (@nil token) with (@nil token ++ []).
  apply lexes_app; [by apply lexes_space|apply lexes_indent].
Qed.


Lemma lexes_null : lexes (txt "null") [TNull].
Proof. lexes_const. Qed.
Lemma lexes_true : lexes (txt "true") [TTrue].
Proof. lexes_const. Qed.
Lemma lexes_false : lexes (txt "false") [TFalse].
Proof. lexes_const. Qed.
Lemma lexes_lbrack : lexes (txt "[") [TLBrack].
Proof. lexes_const. Qed.
Lemma lexes_rbrack : lexes (txt "]") [TRBrack].
Proof. lexes_const. Qed.
Lemma lexes_lbrace : lexes (txt "{") [TLBrace].
Proof. lexes_const. Qed.
Lemma lexes_rbrace : lexes (txt "}") [TRBrace].
Proof. lexes_const. Qed.
Lemma lexes_comma : lexes (txt ",") [TComma].
Proof. lexes_const. Qed.

Lemma lexes_colon : lexes (txt ": ") [TColon].
Proof.
  change (txt ": ") with ([ch 0x3A] ++ [ch 0x20]).
  change [TColon] with ([TColon] ++ []).
  apply lexes_app; [lexes_const|by apply lexes_space].
Qed.

Lemma lexes_empty_array : lexes (txt "[]") [TLBrack; TRBrack].
Proof. apply (lexes_app _ _ _ _ lexes_lbrack lexes_rbrack). Qed.

Lemma lexes_empty_object : lexes (txt "{}") [TLBrace; TRBrace].
Proof. apply (lexes_app _ _ _ _ lexes_lbrace lexes_rbrace). Qed.

Lemma lex_go_quote fuel s1 :
  lex_go (S fuel) (ch 0x22 :: s1)
  = match scan_string s1 with
    | Some (raw, rest) =>
      match unquote raw with
      | Some str => (TString str ::.) <$> lex_go fuel rest
      | None => None
      end
    | None => None
    end.
Proof. reflexivity. Qed.

Lemma lexes_quote (s : string) : utf8.ValidString s = true -> lexes (quote s) [TString s].
Proof.
  intros Hv rest fuel Hf.
  destruct (scan_quote s rest Hv) as (raw & Heq & Hscan & Hun).
  rewrite Heq in *. destruct fuel as [|fuel]; [lia|].
  exists fuel. split.
  - simpl in Hf. rewrite length_app in Hf. simpl in Hf. lia.
  - rewrite lex_go_quote, Hscan, Hun. reflexivity.
Qed.

Lemma lexes_value v : wf_value v = true -> forall d, lexes (print d v) (toks v).
Proof.
  induction v as [|b|lit|s|xs IH|kvs IH] using value_ind2; intros Hwf d.
  - apply lexes_null.
  - destruct b; [apply lexes_true|apply lexes_false].
  - done.
  - by apply lexes_quote.
  - destruct xs as [|x xs]; [apply lexes_empty_array|].
    cbn [wf_value forallb] in Hwf. apply andb_true_iff in Hwf as [Hx Hxs].
    apply Forall_cons in IH as [IHx IHxs].
    cbn [print toks].
    change (TLBrack :: ?l) with ([TLBrack] ++ [] ++ l).
    apply lexes_app; [apply lexes_lbrack|].
    apply lexes_app; [apply lexes_newline|].
    apply lexes_app; [by apply IHx|].
    apply lexes_app.
    + clear Hx IHx x. induction xs as [|y ys IHys]; [apply lexes_nil|].
      cbn [forallb] in Hxs. apply andb_true_iff in Hxs as [Hy Hys].
      apply Forall_cons in IHxs as [IHy IHxs].
      cbn [flat_map].
      change ((TComma :: toks y) ++ ?l) with ([TComma] ++ [] ++ toks y ++ l).
      apply lexes_app; [apply lexes_comma|].
      apply lexes_app; [apply lexes_newline|].
      apply lexes_app; [by apply IHy|]. by apply IHys.
    + change [TRBrack] with ([] ++ [TRBrack]).
      apply lexes_app; [apply lexes_newline|apply lexes_rbrack].
  - destruct kvs as [|[k x] kvs]; [apply lexes_empty_object|].
    cbn [wf_value forallb fst snd] in Hwf.
    apply andb_true_iff in Hwf as [Hx Hxs]. apply andb_true_iff in Hx as [Hk Hx].
    apply Forall_cons in IH as [IHx IHxs]. cbn [snd] in IHx.
    cbn [print toks].
    change (TLBrace :: TString k :: TColon :: ?l) with ([TLBrace] ++ [] ++ [TString k] ++ [TColon] ++ l).
    apply lexes_app; [apply lexes_lbrace|].
    apply lexes_app; [apply lexes_newline|].
    apply lexes_app; [by apply lexes_quote|].
    apply lexes_app; [apply lexes_colon|].
    apply lexes_app; [by apply IHx|].
    apply lexes_app.
    + clear Hx IHx x Hk k. induction kvs as [|[k y] ys IHys]; [apply lexes_nil|].
      cbn [forallb fst snd] in Hxs.
      apply andb_true_iff in Hxs as [Hy Hys]. apply andb_true_iff in Hy as [Hk Hy].
      apply Forall_cons in IHxs as [IHy IHxs]. cbn [snd] in IHy.
      cbn [flat_map fst snd].
      change ((TComma :: TString k :: TColon :: toks y) ++ ?l)
        with ([TComma] ++ [] ++ [TString k] ++ [TColon] ++ toks y ++ l).
      apply lexes_app; [apply lexes_comma|].
      apply lexes_app; [apply lexes_newline|].
      apply lexes_app; [by apply lexes_quote|].
      apply lexes_app; [apply lexes_colon|].
      apply lexes_app; [by apply IHy|]. by apply IHys.
    + change [TRBrace] with ([] ++ [TRBrace]).
      apply lexes_app; [apply lexes_newline|apply lexes_rbrace].
Qed.

Lemma lex_print v : wf_value v = true -> lex (print 0 v) = Some (toks v).
Proof.
  intros Hwf. unfold lex.
  destruct (lexes_value v Hwf 0 [] (S (length (print 0 v)))) as (f & _ & H).
  - rewrite app_nil_r. lia.
  - rewrite app_nil_r in H. rewrite H. destruct f; simpl; by rewrite app_nil_r.
Qed.

End Scanner.

Section Grammar.
Import json.
Local Open Scope nat_scope.

Lemma toks_head v : exists t l, toks v = t :: l /\ t <> TRBrack.
Proof.
  destruct v as [|[]|lit|s|[|x xs]|[|[k x] kvs]]; simpl; eauto.
Qed.

Lemma size_pos v : 1 <= nodes v.
Proof. destruct v; simpl; lia. Qed.

Lemma parse_value_elements fuel t l :
  t <> TRBrack ->
  parse_value (S fuel) (TLBrack :: t :: l) = parse_elements fuel (t :: l) [].
Proof. intros Ht. by destruct t. Qed.

Lemma parse_value_members fuel k l :
  parse_value (S fuel) (TLBrace :: TString k :: l) = parse_members fuel (TString k :: l) [].
Proof. reflexivity. Qed.

Lemma parse_elements_toks xs :
  Forall parses xs ->
  forall x acc fuel rest,
    parses x ->
    list_sum (map (fun y => S (nodes y)) (x :: xs)) <= fuel ->
    parse_elements fuel
      (toks x ++ flat_map (fun y => TComma :: toks y) xs ++ TRBrack :: rest) acc
    = Some (JArray (rev acc ++ x :: xs), rest).
Proof.
  induction 1 as [|y ys Hy _ IH]; intros x acc fuel rest Hx Hf;
    simpl in Hf; (destruct fuel as [|fuel]; [lia|]); cbn [parse_elements].
  - cbn [flat_map app]. rewrite Hx by lia. reflexivity.
  - cbn [flat_map]. rewrite <- app_assoc. rewrite Hx by lia.
    cbn [app].
    rewrite IH by (done || simpl; lia).
    simpl. by rewrite <- app_assoc.
Qed.

Lemma parse_members_toks kvs :
  Forall (fun kv => parses kv.2) kvs ->
  forall k x acc fuel rest,
    parses x ->
    list_sum (map (fun kv : string * value => S (nodes kv.2)) ((k, x) :: kvs)) <= fuel ->
    parse_members fuel
      (TString k :: TColon :: toks x
       ++ flat_map (fun kv : string * value => TComma :: TString kv.1 :: TColon :: toks kv.2) kvs
       ++ TRBrace :: rest) acc
    = Some (JObject (rev acc ++ (k, x) :: kvs), rest).
Proof.
  induction 1 as [|[k' y] ys Hy _ IH]; intros k x acc fuel rest Hx Hf;
    simpl in Hf; (destruct fuel as [|fuel]; [lia|]); cbn [parse_members].
  - cbn [flat_map app]. rewrite Hx by lia. reflexivity.
  - cbn [flat_map fst snd]. rewrite <- app_assoc. rewrite Hx by lia.
    cbn [app].
    rewrite IH by (done || simpl; lia).
    simpl. by rewrite <- app_assoc.
Qed.

Lemma parse_toks v : parses v.
Proof.
  induction v as [|b|lit|s|xs IH|kvs IH] using value_ind2; intros fuel rest Hf.
  - destruct fuel; [simpl in Hf; lia|]. reflexivity.
  - destruct fuel; [simpl in Hf; lia|]. by destruct b.
  - destruct fuel; [simpl in Hf; lia|]. reflexivity.
  - destruct fuel; [simpl in Hf; lia|]. reflexivity.
  - destruct fuel as [|fuel]; [simpl in Hf; lia|].
    destruct xs as [|x xs]; [reflexivity|].
    apply Forall_cons in IH as [IHx IHxs].
    cbn [toks app]. destruct (toks_head x) as (t & l & Ht & Hne).
    rewrite <- !app_assoc. cbn [app].
    pose proof (parse_elements_toks xs IHxs x [] fuel rest IHx) as Hp.
    rewrite Ht in *. cbn [app] in *.
    rewrite parse_value_elements by done.
    apply Hp. cbn [nodes] in Hf. lia.
  - destruct fuel as [|fuel]; [simpl in Hf; lia|].
    destruct kvs as [|[k x] kvs]; [reflexivity|].
    apply Forall_cons in IH as [IHx IHxs]. cbn [snd] in IHx.
    cbn [toks app]. rewrite <- !app_assoc. cbn [app].
    rewrite parse_value_members.
    apply (parse_members_toks kvs IHxs k x [] fuel rest IHx).
    cbn [nodes] in Hf. lia.
Qed.

Lemma size_le_toks v : nodes v <= length (toks v).
Proof.
  induction v as [|b|lit|s|xs IH|kvs IH] using value_ind2; try (simpl; lia).
  - by destruct b.
  - destruct xs as [|x xs]; [simpl; lia|].
    cbn [nodes toks]. cbn [length]. rewrite !length_app. cbn [length map list_sum].
    apply Forall_cons in IH as [IHx IHxs].
    assert (list_sum (map (fun x => S (nodes x)) xs)
            <= length (flat_map (fun y => TComma :: toks y) xs)).
    { clear -IHxs. induction IHxs as [|y ys Hy _ IH]; [done|].
      cbn [map list_sum flat_map]. rewrite length_app. simpl. lia. }
    simpl. lia.
  - destruct kvs as [|[k x] kvs]; [simpl; lia|].
    cbn [nodes toks]. cbn [length]. rewrite !length_app. cbn [length map list_sum snd].
    apply Forall_cons in IH as [IHx IHxs]. cbn [snd] in IHx.
    assert (list_sum (map (fun kv : string * value => S (nodes kv.2)) kvs)
            <= length (flat_map (fun kv : string * value =>
                                   TComma :: TString kv.1 :: TColon :: toks kv.2) kvs)).
    { clear -IHxs. induction IHxs as [|[k y] ys Hy _ IH]; [done|].
      cbn [map list_sum flat_map snd fst]. rewrite length_app. simpl in *. lia. }
    simpl. lia.
Qed.

(** What MarshalIndent prints, Unmarshal parses back to the same tree. *)
Lemma parse_print v : wf_value v = true -> parse (print 0 v) = Some v.
Proof.
  intros Hwf. unfold parse. rewrite lex_print by done.
  pose proof (parse_toks v (S (length (toks v))) []) as H.
  rewrite app_nil_r in H. rewrite H; [done|].
  pose proof (size_le_toks v). lia.
Qed.

End Grammar.

Section Codec.
Import golib json jsondec Cached.
Local Open Scope nat_scope.
Local Open Scope string_scope.

Lemma field_cons {T} (store : T -> value -> T) tag k v kvs old :
  field store tag ((k, v) :: kvs) old
  = field store tag kvs (if is_field tag k then store old v else old).
Proof. reflexivity. Qed.

Lemma field_nil {T} (store : T -> value -> T) tag old : field store tag [] old = old.
Proof. reflexivity. Qed.

Lemma field_ok_cons ok tag k v kvs :
  field_ok ok tag ((k, v) :: kvs)
  = (if is_field tag k then ok v else true) && field_ok ok tag kvs.
Proof. reflexivity. Qed.

Lemma field_ok_nil ok tag : field_ok ok tag [] = true.
Proof. reflexivity. Qed.

Lemma store_strings_roundtrip (l old : list string) :
  store_elems store_string "" old (JString <$> l) = l.
Proof.
  revert old. induction l as [|x l IH]; intros old; [done|].
  cbn [fmap list_fmap store_elems store_string]. by rewrite IH.
Qed.

Lemma store_slice_roundtrip (l : list string) :
  store_slice store_string "" [] (strings_to_json l) = l.
Proof.
  destruct l as [|x l]; [done|].
  cbn [strings_to_json store_slice]. apply store_strings_roundtrip.
Qed.

Lemma ok_slice_strings (l : list string) : ok_slice ok_string (strings_to_json l) = true.
Proof.
  destruct l as [|x l]; [done|]. cbn [strings_to_json ok_slice].
  generalize (x :: l). intros l'. induction l' as [|y l' IH]; [done|]. exact IH.
Qed.

Lemma store_Device_roundtrip (d : Device) : store_Device zeroDevice (Device_to_json d) = d.
Proof.
  destruct d as [addrs ? ? ? ? ? ? ? ? ? ? ? ? ? ? ? ? ? ? ?].
  rewrite <- (store_slice_roundtrip addrs) at 2.
  unfold Device_to_json. cbn [Addresses Authorized
    BlocksIncomingConnections ClientVersion Created Expires Hostname ID IsExternal
    KeyExpiryDisabled LastSeen MachineKey Name NodeID NodeKey OS TailnetLockError
    TailnetLockKey UpdateAvailable User].
  generalize (strings_to_json addrs). intros ja.
  vm_compute. reflexivity.
Qed.

Lemma ok_Device_to_json (d : Device) : ok_Device (Device_to_json d) = true.
Proof.
  destruct d as [addrs ? ? ? ? ? ? ? ? ? ? ? ? ? ? ? ? ? ? ?].
  pose proof (ok_slice_strings addrs) as Hok.
  unfold Device_to_json. cbn [Addresses Authorized
    BlocksIncomingConnections ClientVersion Created Expires Hostname ID IsExternal
    KeyExpiryDisabled LastSeen MachineKey Name NodeID NodeKey OS TailnetLockError
    TailnetLockKey UpdateAvailable User].
  revert Hok. generalize (strings_to_json addrs). intros ja Hok.
  unfold ok_Device. rewrite field_ok_cons.
  change (is_field "addresses" "addresses") with true. cbv iota. rewrite Hok.
  vm_compute. reflexivity.
Qed.

Lemma wf_strings_to_json (l : list string) :
  forallb utf8.ValidString l = true -> wf_value (strings_to_json l) = true.
Proof.
  destruct l as [|x l]; [done|]. cbn [strings_to_json wf_value].
  generalize (x :: l). intros l'. induction l' as [|y l' IH]; [done|].
  cbn [forallb fmap list_fmap wf_value]. intros [-> H]%andb_true_iff. by apply IH.
Qed.

Lemma wf_Device_to_json (d : Device) : valid_Device d = true -> wf_value (Device_to_json d) = true.
Proof.
  destruct d as [addrs ? ? ? ? ? ? ? ? ? ? ? ? ? ? ? ? ? ? ?].
  unfold valid_Device, Device_strings. rewrite forallb_app.
  cbn [Addresses Authorized
    BlocksIncomingConnections ClientVersion Created Expires Hostname ID IsExternal
    KeyExpiryDisabled LastSeen MachineKey Name NodeID NodeKey OS TailnetLockError
    TailnetLockKey UpdateAvailable User forallb].
  intros [Ha H]%andb_true_iff. apply wf_strings_to_json in Ha.
  repeat (apply andb_true_iff in H as [? H]).
  unfold Device_to_json. cbn [wf_value forallb fst snd Addresses Authorized
    BlocksIncomingConnections ClientVersion Created Expires Hostname ID IsExternal
    KeyExpiryDisabled LastSeen MachineKey Name NodeID NodeKey OS TailnetLockError
    TailnetLockKey UpdateAvailable User].
  rewrite Ha.
  repeat match goal with H : utf8.ValidString _ = true |- _ => rewrite H; clear H end.
  vm_compute. reflexivity.
Qed.

Lemma store_DevicePtr_roundtrip (p : option Device) :
  store_DevicePtr (DevicePtr_to_json p) = p.
Proof.
  destruct p as [d|]; [|done].
  transitivity (Some (store_Device zeroDevice (Device_to_json d))); [done|].
  by rewrite store_Device_roundtrip.
Qed.

Lemma ok_DevicePtr_to_json (p : option Device) : ok_Device (DevicePtr_to_json p) = true.
Proof. destruct p; [apply ok_Device_to_json|done]. Qed.

Lemma store_entries (l : list (string * option Device)) (m0 : gmap string (option Device)) :
  fold_left (fun m kv => <[kv.1 := store_DevicePtr kv.2]> m) (entry_to_json <$> l) m0
  = fold_left (fun m kv => <[kv.1 := kv.2]> m) l m0.
Proof.
  revert m0. induction l as [|[k v] l IH]; intros m0; [done|].
  cbn [fmap list_fmap fold_left entry_to_json fst snd].
  by rewrite store_DevicePtr_roundtrip, IH.
Qed.

Lemma fold_insert_lookup (l : list (string * option Device))
    (m0 : gmap string (option Device)) k :
  NoDup l.*1 ->
  fold_left (fun m kv => <[kv.1 := kv.2]> m) l m0 !! k
  = match (list_to_map l : gmap string (option Device)) !! k with
    | Some v => Some v
    | None => m0 !! k
    end.
Proof.
  revert m0. induction l as [|[k' v'] l IH]; intros m0 Hnd.
  - cbn [fold_left list_to_map foldr]. by rewrite lookup_empty.
  - apply NoDup_cons in Hnd as [Hk' Hnd]. cbn [fold_left fst snd].
    rewrite IH by done. cbn [list_to_map foldr].
    destruct (decide (k = k')) as [->|Hne].
    + rewrite lookup_insert_eq.
      rewrite (not_elem_of_list_to_map_1 _ _ Hk'). by rewrite lookup_insert_eq.
    + rewrite !lookup_insert_ne by done. done.
Qed.

Lemma fold_insert_sorted (m m0 : gmap string (option Device)) :
  fold_left (fun m kv => <[kv.1 := kv.2]> m) (merge_sort key_le (map_to_list m)) m0
  = m ∪ m0.
Proof.
  pose proof (merge_sort_Permutation key_le (map_to_list m)) as Hp.
  assert (Hnd : NoDup (merge_sort key_le (map_to_list m)).*1).
  { rewrite Hp. apply NoDup_fst_map_to_list. }
  apply map_eq. intros k. rewrite fold_insert_lookup by done.
  rewrite (list_to_map_proper _ _ Hnd Hp), list_to_map_to_list.
  rewrite lookup_union. by destruct (m !! k), (m0 !! k).
Qed.

Lemma wf_DeviceCache_to_json (c : DeviceCache) :
  valid_cache c = true -> wf_value (DeviceCache_to_json c) = true.
Proof.
  unfold valid_cache. intros [Hlu Hm]%andb_true_iff.
  unfold DeviceCache_to_json. cbn [wf_value forallb fst snd]. rewrite Hlu.
  change (utf8.ValidString "ip_to_device") with true.
  change (utf8.ValidString "last_update") with true.
  rewrite !andb_true_r. cbn [andb].
  apply forallb_forall. intros [k j] [[k' p] [[= <- <-] Hin]]%in_map_iff.
  rewrite forallb_forall in Hm.
  assert (Hin' : In (k', p) (map_to_list (IPToDevice c))).
  { apply list_elem_of_In. rewrite <- (merge_sort_Permutation key_le).
    by apply list_elem_of_In. }
  apply Hm in Hin'. unfold valid_entry in Hin'. cbn [fst snd] in *.
  apply andb_true_iff in Hin' as [-> Hp]. cbn [andb].
  destruct p as [d|]; [by apply wf_Device_to_json|done].
Qed.

Lemma ok_DeviceCache_to_json (c : DeviceCache) : ok_DeviceCache (DeviceCache_to_json c) = true.
Proof.
  unfold DeviceCache_to_json, ok_DeviceCache.
  rewrite !field_ok_cons, !field_ok_nil.
  change (is_field "ip_to_device" "ip_to_device") with true.
  change (is_field "ip_to_device" "last_update") with false.
  change (is_field "last_update" "ip_to_device") with false.
  change (is_field "last_update" "last_update") with true.
  cbv iota. cbn [ok_string ok_IPToDevice andb]. rewrite !andb_true_r.
  apply forallb_forall. intros [k j] [[k' p] [[= <- <-] _]]%in_map_iff.
  apply ok_DevicePtr_to_json.
Qed.

Lemma store_DeviceCache_roundtrip (c c0 : DeviceCache) :
  store_DeviceCache c0 (DeviceCache_to_json c)
  = mkDeviceCache (IPToDevice c ∪ IPToDevice c0) (LastUpdate c).
Proof.
  unfold DeviceCache_to_json, store_DeviceCache.
  rewrite !field_cons, !field_nil.
  change (is_field "ip_to_device" "ip_to_device") with true.
  change (is_field "ip_to_device" "last_update") with false.
  change (is_field "last_update" "ip_to_device") with false.
  change (is_field "last_update" "last_update") with true.
  cbv iota. cbn [store_string store_IPToDevice].
  f_equal. change (fun kv : string * option Device => (kv.1, DevicePtr_to_json kv.2))
    with entry_to_json.
  by rewrite store_entries, fold_insert_sorted.
Qed.

(** The codec: what MarshalIndent writes for a cache whose strings are
    valid UTF-8, Unmarshal reads back; the entries are merged into the
    map that is there, the freshness marker is replaced. *)
Lemma Unmarshal_MarshalIndent (c c0 : DeviceCache) :
  valid_cache c = true ->
  Unmarshal_DeviceCache (MarshalIndent c).1 c0
  = (mkDeviceCache (IPToDevice c ∪ IPToDevice c0) (LastUpdate c), None).
Proof.
  intros Hv. unfold Unmarshal_DeviceCache, MarshalIndent. cbn [fst].
  rewrite parse_print by (by apply wf_DeviceCache_to_json).
  by rewrite store_DeviceCache_roundtrip, ok_DeviceCache_to_json.
Qed.

End Codec.

(** ** The snapshot store *)

Section SnapshotStore.
Import golib json jsondec Cached.
Local Open Scope string_scope.

Lemma parse_empty : parse [] = None.
Proof. reflexivity. Qed.

Lemma MkdirAll_is_dir disk path disk' :
os.MkdirAll disk path = inl disk' ->
os.is_dir disk' path = true
/\ os.files disk' = os.files disk
/\ os.denied disk' = os.denied disk
/\ forall p, os.is_dir disk p = true -> os.is_dir disk' p = true.
Proof.
unfold os.MkdirAll.
destruct (os.is_dir disk path) eqn:Hd.
- intros [= <-]. auto.
- destruct (os.files disk !! path); [done|].
  case_bool_decide; [done|]. intros [= <-].
  unfold os.is_dir. simpl. repeat split.
  + rewrite (bool_decide_eq_true_2 (path ∈ {[path]} ∪ os.dirs disk)).
    * by rewrite !orb_true_r.
    * apply elem_of_union_l, elem_of_singleton. reflexivity.
  + intros p. rewrite !orb_true_iff, !bool_decide_eq_true.
    intros [[?|?]|?]; auto. right. by apply elem_of_union_r.
Qed.

(** What a save that runs to its end has done. *)
Lemma saveDeviceCache_done s s' :
sync.writer (mutex_of s) = false ->
saveDeviceCache s = Ret None s' ->
let path := getCacheFilePath (auth s) in
auth s' = auth s
/\ os.is_dir (fs (world s')) (Dir path) = true
/\ os.files (fs (world s')) !! path = Some (MarshalIndent (cache_of s)).1
/\ path ∉ os.denied (fs (world s')).
Proof.
destruct s as [[k tn hp cf c [wr rd]] w]. simpl. intros ->.
unfold saveDeviceCache, bind, get_auth, os_MkdirAll, RLock, RUnlock, get_cache,
  os_WriteFile, ret, getCacheFilePath. simpl.
destruct (os.MkdirAll (fs w) _) as [f|e] eqn:Hmk; simpl; [|done].
apply MkdirAll_is_dir in Hmk as (Hdir & _ & _ & _).
unfold os.WriteFile, os.WriteFile_check.
destruct (os.is_dir f (if IsAbs cf then cf else cf)); simpl; [done|].
rewrite Hdir. simpl.
case_bool_decide as Hden; simpl; [done|].
intros [= <-]. simpl. repeat split; try done.
rewrite lookup_insert_eq, firstn_all. done.
Qed.

(** C5 as the specification states it fails: the default configuration
    with a one-device snapshot; a crash forty bytes into the write leaves
    a file the next start cannot decode. loadDeviceCache reports the
    syntax error and Provision goes on with an empty snapshot. *)
Lemma saveDeviceCache_crash_leaves_unreadable_file :
let disk := saveDeviceCache_crashed 40 Examples.warm in
let s := restarted (auth Examples.warm) (world Examples.warm) disk in
os.files disk !! "tailscale_devices.json"
  = Some (take 40 (MarshalIndent Examples.snapshot1).1)
/\ (exists s', loadDeviceCache s = Ret (Some (ErrUnmarshalCache SyntaxError)) s')
/\ (exists s', Provision s = Ret None s'
               /\ IPToDevice (cache_of s') = ∅
               /\ log (world s')
                  = [(Warn, "failed to load device cache, starting with empty cache")]).
Proof.
split; [vm_compute; reflexivity|]. split.
- eexists. vm_compute. reflexivity.
- eexists. split; [vm_compute; reflexivity|]. split; vm_compute; reflexivity.
Qed.

(** C5, as amended. saveDeviceCache first makes the directory of the
    cache file: whenever that directory is there or can be made, it
    exists afterwards, and a save that returns no error has left the
    marshalled cache in the file. The file is written in place, emptied
    before the first byte arrives: a crash right after that leaves an
    empty file, which the next loadDeviceCache cannot decode. *)
Theorem saveDeviceCache_mkdir_then_write_in_place (s : State) :
sync.writer (mutex_of s) = false ->
let path := getCacheFilePath (auth s) in
(cache_dir_ok s = true ->
 os.is_dir (fs (world (final (saveDeviceCache s)))) (Dir path) = true)
/\ (forall s', saveDeviceCache s = Ret None s' ->
      os.files (fs (world s')) !! path = Some (MarshalIndent (cache_of s)).1)
/\ (forall disk, os.MkdirAll (fs (world s)) (Dir path) = inl disk ->
      os.WriteFile_check disk path = None ->
      os.files (saveDeviceCache_crashed 0 s) !! path = Some []
      /\ exists s',
           loadDeviceCache (restarted (auth s) (world s) (saveDeviceCache_crashed 0 s))
           = Ret (Some (ErrUnmarshalCache SyntaxError)) s').
Proof.
intros Hw path. split; [|split].
- unfold cache_dir_ok. fold path.
  destruct (os.MkdirAll (fs (world s)) (Dir path)) as [f|e] eqn:Hmk; [|done].
  intros _. destruct (MkdirAll_is_dir _ _ _ Hmk) as (Hdir & _).
  destruct s as [[k tn hp cf c [wr rd]] w]. simpl in Hw. subst wr.
  unfold saveDeviceCache, bind, get_auth, os_MkdirAll, RLock, RUnlock, get_cache,
    os_WriteFile, ret. simpl in *. fold path. rewrite Hmk. simpl.
  unfold os.WriteFile. destruct (os.WriteFile_check f path); simpl; done.
- intros s' Hs. by apply saveDeviceCache_done in Hs as (_ & _ & ? & _).
- intros disk Hmk Hchk.
  assert (Hfile : os.files (saveDeviceCache_crashed 0 s) !! path = Some []).
  { unfold saveDeviceCache_crashed. fold path. rewrite Hmk.
    unfold os.WriteFile_crashed. rewrite Hchk. simpl. by rewrite lookup_insert_eq. }
  split; [done|].
  assert (Hden : path ∉ os.denied (saveDeviceCache_crashed 0 s)).
  { unfold saveDeviceCache_crashed. fold path. rewrite Hmk.
    unfold os.WriteFile_crashed. rewrite Hchk. simpl.
    revert Hchk. unfold os.WriteFile_check.
    destruct (os.is_dir disk path); [done|].
    destruct (negb _); [done|].
    case_bool_decide; done. }
  unfold loadDeviceCache, bind, get_auth, os_ReadFile, restarted. simpl.
  change (getCacheFilePath _) with path.
  unfold os.ReadFile. rewrite bool_decide_eq_false_2 by done. rewrite Hfile.
  eexists. reflexivity.
Qed.

Lemma saveDeviceCache_mkdir_then_write_in_place_witness :
os.is_dir (fs (world (final (saveDeviceCache
                               (Examples.state "cache/devices.json" Examples.snapshot1
                                  (Examples.respond 200 []) Examples.empty_fs)))))
  "cache" = true.
Proof.
apply (saveDeviceCache_mkdir_then_write_in_place
         (Examples.state "cache/devices.json" Examples.snapshot1
            (Examples.respond 200 []) Examples.empty_fs) eq_refl).
vm_compute. reflexivity.
Defined.

(** loadDeviceCache in a process just started, on a disk that holds a
    marshalled cache. *)
Lemma loadDeviceCache_restarted t w disk (c : DeviceCache) :
valid_cache c = true ->
os.files disk !! getCacheFilePath t = Some (MarshalIndent c).1 ->
getCacheFilePath t ∉ os.denied disk ->
exists s2,
  loadDeviceCache (restarted t w disk) = Ret None s2
  /\ cache_of s2 = mkDeviceCache (IPToDevice c) (LastUpdate c)
  /\ mutex_of s2 = sync.unlocked.
Proof.
intros Hv Hfile Hden.
unfold loadDeviceCache, bind, get_auth, os_ReadFile, restarted. simpl.
change (getCacheFilePath _) with (getCacheFilePath t).
unfold os.ReadFile. rewrite bool_decide_eq_false_2 by done. rewrite Hfile.
unfold Lock, get_cache. simpl.
rewrite (Unmarshal_MarshalIndent c _ Hv). simpl.
eexists. split; [reflexivity|]. split; [|reflexivity].
unfold cache_of. simpl. f_equal. apply (right_id_L ∅ (∪)).
Qed.

(** C6 as the specification states it fails: a snapshot of one device
    whose freshness marker is the byte 0xFF (a Date header in Latin-1,
    say). MarshalIndent coerces the marker to valid UTF-8, so the file
    holds U+FFFD in its place and that is what the next start loads. *)
Lemma save_load_changes_invalid_utf8 :
let s := Examples.state "tailscale_devices.json" Examples.latin_snapshot
           (Examples.respond 200 []) Examples.empty_fs in
IPToDevice (cache_of s) <> ∅
/\ exists s1 s2,
     saveDeviceCache s = Ret None s1
     /\ loadDeviceCache (restarted (auth s1) (world s1) (fs (world s1))) = Ret None s2
     /\ LastUpdate (cache_of s2) = String (ch 0xEF) (String (ch 0xBF) (String (ch 0xBD) ""))
     /\ LastUpdate (cache_of s2) <> LastUpdate (cache_of s).
Proof.
split.
- intros H. apply (f_equal (fun m => m !! "100.64.0.5")) in H. revert H.
  vm_compute. discriminate.
- do 2 eexists. split; [vm_compute; reflexivity|].
  split; [vm_compute; reflexivity|]. split; [vm_compute; reflexivity|].
  vm_compute. discriminate.
Qed.

(** C6, as amended. For a snapshot all of whose strings are valid UTF-8
    (empty or not): when saveDeviceCache returns without error, a
    process started on the disk it leaves loads, without error, a cache
    with the same address-to-record mapping and the same freshness
    marker. *)
Theorem save_load_round_trip (s s1 : State) :
sync.writer (mutex_of s) = false ->
valid_cache (cache_of s) = true ->
saveDeviceCache s = Ret None s1 ->
exists s2,
  loadDeviceCache (restarted (auth s1) (world s1) (fs (world s1))) = Ret None s2
  /\ IPToDevice (cache_of s2) = IPToDevice (cache_of s)
  /\ LastUpdate (cache_of s2) = LastUpdate (cache_of s).
Proof.
intros Hw Hv Hsave.
destruct (saveDeviceCache_done _ _ Hw Hsave) as (Ha & _ & Hfile & Hden).
rewrite Ha.
destruct (loadDeviceCache_restarted (auth s) (world s1) (fs (world s1)) (cache_of s) Hv Hfile Hden)
  as (s2 & Hload & Hc & _).
exists s2. rewrite Hc. auto.
Qed.

Lemma save_load_round_trip_witness :
let s := Examples.state "cache/devices.json" Examples.snapshot1
           (Examples.respond 200 []) Examples.empty_fs in
exists s1 s2,
  saveDeviceCache s = Ret None s1
  /\ loadDeviceCache (restarted (auth s1) (world s1) (fs (world s1))) = Ret None s2
  /\ IPToDevice (cache_of s2) = {["100.64.0.5" := Some Examples.d1]}
  /\ LastUpdate (cache_of s2) = Examples.date.
Proof.
intros s.
assert (Hsave : exists s1, saveDeviceCache s = Ret None s1).
{ eexists. vm_compute. reflexivity. }
destruct Hsave as [s1 Hsave]. exists s1.
destruct (save_load_round_trip s s1 eq_refl eq_refl Hsave) as (s2 & Hload & Hm & Hlu).
exists s2. auto.
Defined.

End SnapshotStore.
(** ** Library facts behind the request-level properties *)

Section TextFacts.
Import golib.
Local Open Scope N_scope.

Lemma txt_str t : txt (str t) = t.
Proof. apply list_ascii_of_string_of_list_ascii. Qed.

Lemma str_txt s : str (txt s) = s.
Proof. apply string_of_list_ascii_of_string. Qed.

Lemma txt_app a b : txt (a +:+ b) = (txt a ++ txt b)%list.
Proof. unfold txt. induction a as [|c a IH]; simpl; [reflexivity|]. by rewrite IH. Qed.

Lemma str_app a b : str (a ++ b) = str a +:+ str b.
Proof. unfold str. induction a as [|c a IH]; simpl; [reflexivity|]. by rewrite IH. Qed.

Lemma txt_inj a b : txt a = txt b -> a = b.
Proof. intros H. rewrite <- (str_txt a), <- (str_txt b). by rewrite H. Qed.

Lemma eqb_empty s : String.eqb s "" = false <-> s <> ""%string.
Proof. apply String.eqb_neq. Qed.

(** [strings.Index] and the slice before it, as [cut] gives them. *)
Lemma cut_found sep a rest :
  sep < 256 ->
  forallb (fun c => negb (code c =? sep)) a = true ->
  cut sep (a ++ ch sep :: rest) = (a, Some rest).
Proof.
  intros Hs. induction a as [|c a IH]; simpl; intros H.
  - by rewrite code_ch, N.eqb_refl.
  - apply andb_true_iff in H as [Hc Ha]. apply negb_true_iff in Hc.
    rewrite Hc, (IH Ha). reflexivity.
Qed.

Lemma cut_absent sep a :
  forallb (fun c => negb (code c =? sep)) a = true ->
  cut sep a = (a, None).
Proof.
  induction a as [|c a IH]; simpl; intros H; [reflexivity|].
  apply andb_true_iff in H as [Hc Ha]. apply negb_true_iff in Hc.
  rewrite Hc, (IH Ha). reflexivity.
Qed.

Lemma IndexByte_absent s b :
  forallb (fun c => negb (code c =? b)) s = true -> IndexByte s b = None.
Proof.
  induction s as [|c s IH]; simpl; intros H; [reflexivity|].
  apply andb_true_iff in H as [Hc Hs]. apply negb_true_iff in Hc.
  rewrite Hc, (IH Hs). reflexivity.
Qed.

Lemma IndexByte_first a b rest :
  b < 256 ->
  forallb (fun c => negb (code c =? b)) a = true ->
  IndexByte (a ++ ch b :: rest) b = Some (length a).
Proof.
  intros Hb. induction a as [|c a IH]; simpl; intros H.
  - by rewrite code_ch, N.eqb_refl.
  - apply andb_true_iff in H as [Hc Ha]. apply negb_true_iff in Hc.
    rewrite Hc, (IH Ha). reflexivity.
Qed.

Lemma LastIndexByte_absent s b :
  forallb (fun c => negb (code c =? b)) s = true -> LastIndexByte s b = None.
Proof.
  induction s as [|c s IH]; simpl; intros H; [reflexivity|].
  apply andb_true_iff in H as [Hc Hs]. apply negb_true_iff in Hc.
  rewrite Hc, (IH Hs). reflexivity.
Qed.

Lemma LastIndexByte_last a b rest :
  b < 256 ->
  forallb (fun c => negb (code c =? b)) rest = true ->
  LastIndexByte (a ++ ch b :: rest) b = Some (length a).
Proof.
  intros Hb Hr. induction a as [|c a IH]; simpl.
  - by rewrite (LastIndexByte_absent _ _ Hr), code_ch, N.eqb_refl.
  - by rewrite IH.
Qed.

Lemma forallb_app_intro {A} (f : A -> bool) a b :
  forallb f a = true -> forallb f b = true -> forallb f (a ++ b) = true.
Proof. intros. rewrite forallb_app. by apply andb_true_iff. Qed.

End TextFacts.

(** The white space [strings.TrimSpace] removes, for ASCII text. *)
Section TrimSpaceFacts.
Import golib.
Local Open Scope N_scope.

Lemma space_prefix_blank c r : blank c = true -> space_prefix (c :: r) = Some r.
Proof. unfold blank. intros H. simpl. by rewrite H. Qed.

Lemma space_prefix_graphic c r : graphic c = true -> space_prefix (c :: r) = None.
Proof.
  unfold graphic, in_range. intros H. bools. unfold space_prefix.
  destruct r as [|c1 [|c2 r2]]; repeat decide_if; reflexivity.
Qed.

Lemma trim_left_blanks pre rest fuel :
  forallb blank pre = true ->
  (length pre <= fuel)%nat ->
  space_prefix rest = None ->
  trim_left fuel (pre ++ rest) = rest.
Proof.
  revert fuel. induction pre as [|c pre IH]; intros fuel Hp Hf Hr; simpl in *.
  - destruct fuel; simpl; [reflexivity|]. by rewrite Hr.
  - apply andb_true_iff in Hp as [Hc Hp].
    destruct fuel as [|fuel]; [lia|].
    cbn [trim_left]. rewrite (space_prefix_blank _ _ Hc). apply IH; [done|lia|done].
Qed.

Lemma space_suffix_blank s c : blank c = true -> space_suffix (s ++ [c]) = Some s.
Proof.
  unfold blank. intros H. unfold space_suffix. rewrite reverse_app. simpl.
  rewrite H. by rewrite reverse_involutive.
Qed.

Lemma space_suffix_graphic s c : graphic c = true -> space_suffix (s ++ [c]) = None.
Proof.
  unfold graphic, in_range. intros H. bools.
  unfold space_suffix. rewrite reverse_app. simpl.
  destruct (reverse s) as [|c1 [|c2 r2]]; unfold space_prefix;
    repeat decide_if; reflexivity.
Qed.

Lemma trim_right_blanks s post fuel :
  forallb blank post = true ->
  (length post <= fuel)%nat ->
  space_suffix s = None ->
  trim_right fuel (s ++ post) = s.
Proof.
  revert fuel. induction post as [|c post IH] using rev_ind; intros fuel Hp Hf Hs.
  - rewrite app_nil_r. destruct fuel; simpl; [reflexivity|]. by rewrite Hs.
  - rewrite forallb_app in Hp. apply andb_true_iff in Hp as [Hp Hc]. simpl in Hc.
    rewrite andb_true_r in Hc. rewrite length_app in Hf. simpl in Hf.
    destruct fuel as [|fuel]; [lia|].
    cbn [trim_right]. rewrite app_assoc, (space_suffix_blank _ _ Hc).
    apply IH; [done|lia|done].
Qed.

Lemma space_suffix_nil : space_suffix [] = None.
Proof. reflexivity. Qed.

(** TrimSpace strips the ASCII white space around a text that starts
    and ends with a visible byte, and nothing else. *)
Lemma space_prefix_blanks post :
  forallb blank post = true -> space_prefix post = None -> post = [].
Proof.
  destruct post as [|p post]; [done|]. simpl forallb. intros H.
  apply andb_true_iff in H as [Hp _]. by rewrite (space_prefix_blank _ _ Hp).
Qed.

Lemma trim_left_all pre fuel :
  forallb blank pre = true -> (length pre <= fuel)%nat -> trim_left fuel pre = [].
Proof.
  revert fuel. induction pre as [|c pre IH]; intros fuel Hp Hf.
  - destruct fuel; reflexivity.
  - simpl in Hp, Hf. apply andb_true_iff in Hp as [Hc Hp].
    destruct fuel as [|fuel]; [lia|].
    cbn [trim_left]. rewrite (space_prefix_blank _ _ Hc). apply IH; [done|lia].
Qed.

Lemma trim_right_nil fuel : trim_right fuel [] = [].
Proof. destruct fuel; reflexivity. Qed.

(** TrimSpace strips the ASCII white space around a text that starts
    and ends with a visible byte, and nothing else. *)
Lemma TrimSpace_blanks pre core post :
  forallb blank pre = true ->
  forallb blank post = true ->
  match core, reverse core with
  | c :: _, c' :: _ => graphic c && graphic c'
  | _, _ => true
  end = true ->
  TrimSpace (str (pre ++ core ++ post)) = str core.
Proof.
  intros Hpre Hpost Hcore. unfold TrimSpace. rewrite txt_str. f_equal.
  destruct core as [|c core].
  - simpl. rewrite trim_left_all; [apply trim_right_nil | by apply forallb_app_intro | done].
  - destruct (reverse (c :: core)) as [|c' rc] eqn:Hrev.
    { apply (f_equal length) in Hrev. rewrite length_reverse in Hrev. simpl in Hrev. lia. }
    apply andb_true_iff in Hcore as [Hc Hc'].
    rewrite trim_left_blanks;
      [| done | rewrite !length_app; lia | simpl; apply (space_prefix_graphic _ _ Hc)].
    apply trim_right_blanks; [done | rewrite !length_app; lia |].
    apply (f_equal reverse) in Hrev. rewrite reverse_involutive in Hrev.
    rewrite Hrev, reverse_cons. by apply space_suffix_graphic.
Qed.

End TrimSpaceFacts.
Section HeaderFacts.
Import golib.
Local Open Scope string_scope.

Lemma Header_Get_Set (h : Header) key value : Header_Get (Header_Set h key value) key = value.
Proof. unfold Header_Get, Header_Set. by rewrite lookup_insert_eq. Qed.

Lemma Header_Get_Set_other (h : Header) key key' value :
  CanonicalMIMEHeaderKey key <> CanonicalMIMEHeaderKey key' ->
  Header_Get (Header_Set h key value) key' = Header_Get h key'.
Proof. intros H. unfold Header_Get, Header_Set. by rewrite lookup_insert_ne. Qed.

End HeaderFacts.

Section SplitHostPortFacts.
Import golib.
Local Open Scope N_scope.

Lemma plain_no (b : N) s :
  b = 0x3A \/ b = 0x5B \/ b = 0x5D ->
  forallb plain s = true -> forallb (fun c => negb (code c =? b)) s = true.
Proof.
  intros Hb. induction s as [|c s IH]; simpl; [done|]. intros H.
  apply andb_true_iff in H as [Hc Hs]. rewrite (IH Hs), andb_true_r.
  unfold plain in Hc. apply andb_true_iff in Hc as [Hc H3]. apply andb_true_iff in Hc as [H1 H2].
  destruct Hb as [->|[->| ->]]; done.
Qed.

(** [host:port] *)
Lemma SplitHostPort_plain host port :
  forallb plain host = true ->
  forallb plain port = true ->
  SplitHostPort (str (host ++ ch 0x3A :: port)) = Some (str host).
Proof.
  intros Hh Hp. unfold SplitHostPort. rewrite txt_str.
  rewrite (LastIndexByte_last host 0x3A port); [|lia|by apply plain_no; auto].
  assert (Hb : match host ++ ch 0x3A :: port with
               | c :: _ => code c =? 0x5B
               | [] => false
               end = false).
  { destruct host as [|c host]; [reflexivity|]. simpl. simpl in Hh.
    apply andb_true_iff in Hh as [Hc _]. unfold plain in Hc.
    apply andb_true_iff in Hc as [Hc _]. apply andb_true_iff in Hc as [_ Hc].
    by apply negb_true_iff in Hc. }
  rewrite Hb. rewrite take_app_length.
  rewrite (IndexByte_absent host 0x3A) by (apply plain_no; auto).
  simpl drop.
  assert (Hall : forall b, b = 0x5B \/ b = 0x5D ->
                 forallb (fun c => negb (code c =? b)) (host ++ ch 0x3A :: port) = true).
  { intros b Hb'. apply forallb_app_intro; [apply plain_no; tauto|].
    simpl. rewrite (plain_no b port) by tauto. rewrite andb_true_r.
    destruct Hb' as [-> | ->]; reflexivity. }
  rewrite !IndexByte_absent by (apply Hall; auto). reflexivity.
Qed.

(** [[host]:port], the host free of brackets (colons allowed). *)
Lemma SplitHostPort_bracketed host port :
  forallb (fun c => negb (code c =? 0x5B) && negb (code c =? 0x5D)) host = true ->
  forallb plain port = true ->
  SplitHostPort (str (ch 0x5B :: host ++ ch 0x5D :: ch 0x3A :: port)) = Some (str host).
Proof.
  intros Hh Hp. unfold SplitHostPort. rewrite txt_str.
  assert (Hh1 : forallb (fun c => negb (code c =? 0x5B)) host = true).
  { clear -Hh. induction host as [|c host IH]; simpl in *; [done|].
    apply andb_true_iff in Hh as [Hc Hh]. apply andb_true_iff in Hc as [-> _]. by apply IH. }
  assert (Hh2 : forallb (fun c => negb (code c =? 0x5D)) host = true).
  { clear -Hh. induction host as [|c host IH]; simpl in *; [done|].
    apply andb_true_iff in Hh as [Hc Hh]. apply andb_true_iff in Hc as [_ ->]. by apply IH. }
  assert (Heq : ch 0x5B :: host ++ ch 0x5D :: ch 0x3A :: port
                = (ch 0x5B :: host ++ [ch 0x5D]) ++ ch 0x3A :: port).
  { simpl. by rewrite <- app_assoc. }
  rewrite Heq at 1.
  rewrite (LastIndexByte_last _ 0x3A port); [|lia|by apply plain_no; auto].
  cbn [code]. replace (code (ch 0x5B) =? 0x5B) with true by reflexivity.
  change (ch 0x5B :: host ++ ch 0x5D :: ch 0x3A :: port)
    with ((ch 0x5B :: host) ++ ch 0x5D :: ch 0x3A :: port).
  rewrite (IndexByte_first (ch 0x5B :: host) 0x5D); [|lia|by simpl; rewrite Hh2].
  simpl length.
  rewrite length_app. simpl length.
  replace (length host + 1)%nat with (S (length host)) by lia.
  rewrite Nat.eqb_refl.
  cbv beta iota.
  replace (S (length host) - 1)%nat with (length host) by lia.
  change (drop 1 ((ch 0x5B :: host) ++ ch 0x5D :: ch 0x3A :: port))
    with (host ++ ch 0x5D :: ch 0x3A :: port).
  rewrite take_app_length.
  assert (drop (S (S (length host))) ((ch 0x5B :: host) ++ ch 0x5D :: ch 0x3A :: port)
          = ch 0x3A :: port) as ->.
  { change (drop (S (length host)) (host ++ ch 0x5D :: ch 0x3A :: port) = ch 0x3A :: port).
    replace (S (length host)) with (length host + 1)%nat by lia.
    by rewrite drop_app_add. }
  rewrite (IndexByte_absent (host ++ _) 0x5B).
  2:{ apply forallb_app_intro; [done|]. simpl. by rewrite (plain_no 0x5B port) by auto. }
  rewrite (IndexByte_absent (_ :: port) 0x5D).
  2:{ simpl. by rewrite (plain_no 0x5D port) by auto. }
  reflexivity.
Qed.

(** No colon: no port. *)
Lemma SplitHostPort_no_colon s :
  forallb (fun c => negb (code c =? 0x3A)) (txt s) = true -> SplitHostPort s = None.
Proof. intros H. unfold SplitHostPort. by rewrite LastIndexByte_absent. Qed.

End SplitHostPortFacts.
(** ** The client address *)

Section ClientAddress.
Import golib.
Local Open Scope string_scope.

Lemma address_no_comma s :
  forallb address_byte s = true -> forallb (fun c => negb (code c =? 0x2C)%N) s = true.
Proof.
  induction s as [|c s IH]; simpl; [done|]. intros H.
  apply andb_true_iff in H as [Hc Hs]. apply andb_true_iff in Hc as [_ ->]. by apply IH.
Qed.

Lemma blank_no_comma s :
  forallb blank s = true -> forallb (fun c => negb (code c =? 0x2C)%N) s = true.
Proof.
  induction s as [|c s IH]; simpl; [done|]. intros H.
  apply andb_true_iff in H as [Hc Hs]. rewrite (IH Hs), andb_true_r.
  unfold blank, in_range in Hc. apply negb_true_iff, N.eqb_neq. bools; lia.
Qed.

Lemma address_graphic s : forallb address_byte s = true -> forallb graphic s = true.
Proof.
  induction s as [|c s IH]; simpl; [done|]. intros H.
  apply andb_true_iff in H as [Hc Hs]. apply andb_true_iff in Hc as [-> _]. by apply IH.
Qed.

Lemma graphic_ends s :
  forallb graphic s = true ->
  match s, reverse s with
  | c :: _, c' :: _ => graphic c && graphic c'
  | _, _ => true
  end = true.
Proof.
  intros H. destruct s as [|c s]; [done|].
  destruct (reverse (c :: s)) as [|c' rs] eqn:Hrev; [done|].
  assert (Hin : c' ∈ c :: s).
  { apply elem_of_reverse. rewrite Hrev. apply list_elem_of_here. }
  assert (Hall : forall x, x ∈ c :: s -> graphic x = true).
  { intros x Hx. apply list_elem_of_In in Hx.
    exact (proj1 (forallb_forall _ _) H x Hx). }
  rewrite (Hall c) by apply list_elem_of_here. by rewrite (Hall c' Hin).
Qed.

Lemma padded_nonempty (pre ip rest : string) : ip <> "" -> pre +:+ ip +:+ rest <> "".
Proof.
  intros Hip H. apply (f_equal txt) in H. rewrite !txt_app in H.
  change (txt "") with (@nil ascii) in H.
  apply app_eq_nil in H as [_ H]. apply app_eq_nil in H as [H _].
  apply Hip. apply txt_inj. exact H.
Qed.

Lemma nonempty_eqb s : s <> "" -> String.eqb s "" = false.
Proof. apply String.eqb_neq. Qed.

(** The first element of a forwarding list, trimmed. *)
Lemma first_forwarded (pre ip post rest : string) (more : bool) :
  forallb blank (txt pre) = true ->
  forallb blank (txt post) = true ->
  forallb address_byte (txt ip) = true ->
  let xff := pre +:+ ip +:+ post +:+ (if more then "," +:+ rest else "") in
  match cut 0x2C (txt xff) with
  | (first, Some _) => TrimSpace (str first)
  | (_, None) => TrimSpace xff
  end = ip.
Proof.
  intros Hpre Hpost Hip xff.
  assert (Hno : forallb (fun c => negb (code c =? 0x2C)%N) (txt pre ++ txt ip ++ txt post) = true).
  { repeat apply forallb_app_intro; auto using blank_no_comma, address_no_comma. }
  assert (Htrim : TrimSpace (str (txt pre ++ txt ip ++ txt post)) = ip).
  { rewrite TrimSpace_blanks; [apply str_txt|done|done|by apply graphic_ends, address_graphic]. }
  subst xff. destruct more.
  - rewrite !txt_app. change (txt ",") with [ch 0x2C].
    replace (txt pre ++ txt ip ++ txt post ++ [ch 0x2C] ++ txt rest)%list
      with ((txt pre ++ txt ip ++ txt post) ++ ch 0x2C :: txt rest)%list
      by (by rewrite <- !app_assoc).
    rewrite cut_found by (done || lia). exact Htrim.
  - assert (Htxt : txt (pre +:+ ip +:+ post +:+ "") = (txt pre ++ txt ip ++ txt post)%list).
    { rewrite !txt_app. change (txt "") with (@nil ascii). by rewrite app_nil_r. }
    rewrite Htxt, cut_absent by done.
    rewrite <- (str_txt (pre +:+ ip +:+ post +:+ "")), Htxt. exact Htrim.
Qed.

(** X1. X-Forwarded-For decides the client address whenever it is
    there: getClientIP (both versions) returns the first element of
    the list, the white space around it removed, whatever X-Real-IP
    and RemoteAddr say. The header is taken on trust. *)
Theorem getClientIP_forwarded_for (h : Header) (remote pre ip post rest : string)
    (more : bool) :
  forallb blank (txt pre) = true ->
  forallb blank (txt post) = true ->
  forallb address_byte (txt ip) = true ->
  ip <> "" ->
  let xff := pre +:+ ip +:+ post +:+ (if more then "," +:+ rest else "") in
  let r := http.mkInbound (Header_Set h "X-Forwarded-For" xff) remote in
  Cached.getClientIP r = ip /\ Direct.getClientIP r = ip.
Proof.
  intros Hpre Hpost Hip Hne xff r.
  pose proof (first_forwarded pre ip post rest more Hpre Hpost Hip) as Hfirst.
  cbv zeta in Hfirst. fold xff in Hfirst.
  assert (Hx : String.eqb xff "" = false) by (apply nonempty_eqb, padded_nonempty, Hne).
  unfold Cached.getClientIP, Direct.getClientIP. subst r. cbn [http.InHeader].
  rewrite Header_Get_Set, Hx. cbn [negb]. by rewrite Hfirst.
Qed.

Lemma getClientIP_forwarded_for_witness :
  let r := http.mkInbound
             (Header_Set (Header_Set ∅ "X-Real-IP" "198.51.100.1") "X-Forwarded-For"
                "100.64.0.5 , 203.0.113.7")
             "192.0.2.1:4711" in
  Cached.getClientIP r = "100.64.0.5" /\ Direct.getClientIP r = "100.64.0.5".
Proof.
  exact (getClientIP_forwarded_for (Header_Set ∅ "X-Real-IP" "198.51.100.1")
           "192.0.2.1:4711" "" "100.64.0.5" " " " 203.0.113.7" true
           eq_refl eq_refl eq_refl ltac:(discriminate)).
Defined.

(** X2. Without X-Forwarded-For, X-Real-IP decides, whatever
    RemoteAddr says; the cached handler takes the header as it stands,
    white space included, while the whois handler trims it. *)
Theorem getClientIP_real_ip (r : http.Inbound) (pre ip post : string) :
  Header_Get (http.InHeader r) "X-Forwarded-For" = "" ->
  Header_Get (http.InHeader r) "X-Real-IP" = pre +:+ ip +:+ post ->
  forallb blank (txt pre) = true ->
  forallb blank (txt post) = true ->
  forallb graphic (txt ip) = true ->
  ip <> "" ->
  Cached.getClientIP r = pre +:+ ip +:+ post /\ Direct.getClientIP r = ip.
Proof.
  intros Hxff Hxri Hpre Hpost Hip Hne.
  unfold Cached.getClientIP, Direct.getClientIP. rewrite Hxff, Hxri.
  rewrite (nonempty_eqb _ (padded_nonempty pre ip post Hne)). cbn.
  split; [reflexivity|].
  rewrite <- (str_txt (pre +:+ ip +:+ post)), !txt_app.
  rewrite TrimSpace_blanks; [apply str_txt|done|done|by apply graphic_ends].
Qed.

Lemma getClientIP_real_ip_witness :
  let r := http.mkInbound (Header_Set ∅ "X-Real-IP" " 100.64.0.5") "192.0.2.1:4711" in
  Cached.getClientIP r = " 100.64.0.5" /\ Direct.getClientIP r = "100.64.0.5".
Proof.
  exact (getClientIP_real_ip
           (http.mkInbound (Header_Set ∅ "X-Real-IP" " 100.64.0.5") "192.0.2.1:4711")
           " " "100.64.0.5" "" eq_refl eq_refl eq_refl eq_refl eq_refl ltac:(discriminate)).
Defined.

(** X3. With neither header, RemoteAddr decides: of [host:port] the
    host, of [[host]:port] the host without its brackets, and an
    address without a colon as it stands. Both versions agree. *)
Theorem getClientIP_remote_addr (r : http.Inbound) (host port : string) :
  Header_Get (http.InHeader r) "X-Forwarded-For" = "" ->
  Header_Get (http.InHeader r) "X-Real-IP" = "" ->
  forallb plain (txt port) = true ->
  (forallb plain (txt host) = true ->
   http.RemoteAddr r = host +:+ ":" +:+ port ->
   Cached.getClientIP r = host /\ Direct.getClientIP r = host)
  /\ (forallb (fun c => negb (code c =? 0x5B)%N && negb (code c =? 0x5D)%N) (txt host) = true ->
      http.RemoteAddr r = "[" +:+ host +:+ "]:" +:+ port ->
      Cached.getClientIP r = host /\ Direct.getClientIP r = host)
  /\ (forallb (fun c => negb (code c =? 0x3A)%N) (txt (http.RemoteAddr r)) = true ->
      Cached.getClientIP r = http.RemoteAddr r /\ Direct.getClientIP r = http.RemoteAddr r).
Proof.
  intros Hxff Hxri Hport.
  unfold Cached.getClientIP, Direct.getClientIP. rewrite Hxff, Hxri. cbn.
  split; [|split].
  - intros Hhost ->.
    replace (host +:+ ":" +:+ port) with (str (txt host ++ ch 0x3A :: txt port))
      by (rewrite <- (str_txt (host +:+ ":" +:+ port)), !txt_app; reflexivity).
    rewrite SplitHostPort_plain by done. by rewrite str_txt.
  - intros Hhost ->.
    replace ("[" +:+ host +:+ "]:" +:+ port)
      with (str (ch 0x5B :: txt host ++ ch 0x5D :: ch 0x3A :: txt port))
      by (rewrite <- (str_txt ("[" +:+ host +:+ "]:" +:+ port)), !txt_app; reflexivity).
    rewrite SplitHostPort_bracketed by done. by rewrite str_txt.
  - intros Hno. by rewrite SplitHostPort_no_colon.
Qed.

Lemma getClientIP_remote_addr_witness :
  Cached.getClientIP (http.mkInbound ∅ "100.64.0.5:41000") = "100.64.0.5"
  /\ Cached.getClientIP (http.mkInbound ∅ "[fd7a:115c:a1e0::1]:41000") = "fd7a:115c:a1e0::1"
  /\ Cached.getClientIP (http.mkInbound ∅ "100.64.0.5") = "100.64.0.5".
Proof.
  split; [|split].
  - exact (proj1 (proj1 (getClientIP_remote_addr (http.mkInbound ∅ "100.64.0.5:41000")
                           "100.64.0.5" "41000" eq_refl eq_refl eq_refl) eq_refl eq_refl)).
  - exact (proj1 (proj1 (proj2 (getClientIP_remote_addr
                                  (http.mkInbound ∅ "[fd7a:115c:a1e0::1]:41000")
                                  "fd7a:115c:a1e0::1" "41000" eq_refl eq_refl eq_refl))
                    eq_refl eq_refl)).
  - exact (proj1 (proj2 (proj2 (getClientIP_remote_addr (http.mkInbound ∅ "100.64.0.5")
                                  "" "" eq_refl eq_refl eq_refl)) eq_refl)).
Defined.

End ClientAddress.
(** ** The cached handler, request by request *)

Section CachedRequests.
Import golib json jsondec Cached.
Local Open Scope string_scope.

Lemma idle_unlocked s : idle s -> cacheMutex (auth s) = sync.unlocked.
Proof. intros H. exact H. Qed.

Lemma logf_auth l msg s : auth (final (logf l msg s)) = auth s.
Proof. reflexivity. Qed.

(** X4. A hit at the level of the handler: when the client address is
    known to the cache, ServeHTTP hands the request downstream with
    the headers of the cached record set, and the state the downstream
    handler starts in is the one the request found: nothing sent,
    nothing logged, the mutex released. *)
Theorem ServeHTTP_hit {A} (r : http.Inbound) (next : http.Inbound -> M A) (s : State)
    (device : Device) :
  getClientIP r <> "" ->
  sync.writer (mutex_of s) = false ->
  IPToDevice (cache_of s) !! getClientIP r = Some (Some device) ->
  ServeHTTP r next s = next (addDeviceHeaders (auth s) r device) s.
Proof.
  intros Hip Hw Hhit. unfold ServeHTTP.
  rewrite (proj2 (String.eqb_neq _ _) Hip).
  unfold getDeviceByIP, bind at 1 2.
  rewrite (lookup_locked_free _ _ Hw), Hhit. reflexivity.
Qed.

Lemma ServeHTTP_hit_witness :
  ServeHTTP (Examples.inbound "100.64.0.5:41000") (fun r => ret (http.InHeader r)) Examples.warm
  = Ret (http.InHeader
           (addDeviceHeaders (auth Examples.warm) (Examples.inbound "100.64.0.5:41000")
              Examples.d1))
        Examples.warm.
Proof.
  exact (ServeHTTP_hit (Examples.inbound "100.64.0.5:41000") (fun r => ret (http.InHeader r))
           Examples.warm Examples.d1 ltac:(discriminate) eq_refl eq_refl).
Defined.

Lemma loadDeviceCache_idle s r s' :
  idle s -> loadDeviceCache s = Ret r s' -> idle s'.
Proof.
  unfold idle, mutex_of. intros Hi.
  unfold loadDeviceCache, bind, get_auth, os_ReadFile, Lock, get_cache, set_cache, logf,
    Unlock, ret.
  destruct (os.ReadFile _ _) as [data|e].
  - cbn -[Unmarshal_DeviceCache]. rewrite Hi. cbn -[Unmarshal_DeviceCache].
    destruct (Unmarshal_DeviceCache _ _) as [c' [e|]]; intros [= <- <-]; reflexivity.
  - destruct (os.IsNotExist e); intros [= <- <-]; exact Hi.
Qed.

Lemma saveDeviceCache_idle s r s' :
  idle s -> saveDeviceCache s = Ret r s' -> idle s'.
Proof.
  destruct s as [[k tn hp cf c mu] w]. unfold idle, mutex_of. simpl. intros ->.
  unfold saveDeviceCache, bind, get_auth, os_MkdirAll, RLock, RUnlock, get_cache,
    os_WriteFile, ret, getCacheFilePath. simpl.
  destruct (os.MkdirAll (fs w) _) as [f|e]; simpl.
  - destruct (os.WriteFile f _ _) as [f'|e']; simpl; intros [= <- <-]; reflexivity.
  - intros [= <- <-]. reflexivity.
Qed.

Lemma refreshDeviceCache_idle s r s' :
  idle s -> refreshDeviceCache s = Ret r s' -> idle s'.
Proof.
  intros Hi Hr.
  destruct (fetchDevices_returns s) as (a & s1 & Hf & Ha & _).
  destruct a as [[resp dr]|e].
  - destruct (refresh_fetch_ok s resp dr s1 Hf Hi) as (s2 & _ & _ & _ & Hcase).
    destruct (cache_dir_ok s).
    + destruct Hcase as [Hb _]. congruence.
    + destruct Hcase as [Hret Hm]. rewrite Hret in Hr. injection Hr as <- <-. exact Hm.
  - rewrite (refresh_fetch_failed s e s1 Hf) in Hr. injection Hr as <- <-.
    unfold idle, mutex_of. rewrite Ha. exact Hi.
Qed.

Lemma getDeviceByIP_idle clientIP s r s' :
  idle s -> getDeviceByIP clientIP s = Ret r s' -> idle s'.
Proof.
  intros Hi. unfold getDeviceByIP, bind at 1.
  rewrite (lookup_locked_free _ _ (idle_writer _ Hi)).
  assert (Hmiss : refresh_and_recheck clientIP s = Ret r s' -> idle s').
  { unfold refresh_and_recheck, bind at 1. rewrite logf_final.
    set (s0 := mkState _ _). assert (Hi0 : idle s0) by exact Hi.
    unfold bind. destruct (refreshDeviceCache s0) as [e s1| |] eqn:Hr; [|done|done].
    pose proof (refreshDeviceCache_idle _ _ _ Hi0 Hr) as Hi1.
    destruct e as [e|].
    - intros [= <- <-]. exact Hi1.
    - intros Hc. apply recheck_result in Hc as [-> _]. exact Hi1. }
  destruct (IPToDevice (cache_of s) !! clientIP) as [[device|]|]; auto.
  intros [= <- <-]. exact Hi.
Qed.

(** X5. The mutex is released on every return: whenever
    loadDeviceCache, saveDeviceCache, refreshDeviceCache or
    getDeviceByIP returns from a state in which no one holds the
    mutex, no one holds it afterwards, and ServeHTTP hands such a
    state to the downstream handler. The only way a call leaves the
    mutex held is by never returning. *)
Theorem mutex_released_on_return (s : State) :
  idle s ->
  (forall r s', loadDeviceCache s = Ret r s' -> idle s')
  /\ (forall r s', saveDeviceCache s = Ret r s' -> idle s')
  /\ (forall r s', refreshDeviceCache s = Ret r s' -> idle s')
  /\ (forall clientIP r s', getDeviceByIP clientIP s = Ret r s' -> idle s')
  /\ (forall A (r : http.Inbound) (next : http.Inbound -> M A),
        (exists r' s', ServeHTTP r next s = next r' s' /\ idle s')
        \/ (exists s', ServeHTTP r next s = Blocked s')).
Proof.
  intros Hi. repeat split.
  - intros r s'. by apply loadDeviceCache_idle.
  - intros r s'. by apply saveDeviceCache_idle.
  - intros r s'. by apply refreshDeviceCache_idle.
  - intros ip r s'. by apply getDeviceByIP_idle.
  - intros A r next. unfold ServeHTTP.
    destruct (String.eqb (getClientIP r) "").
    + left. unfold bind. rewrite logf_final. do 2 eexists. split; [reflexivity|exact Hi].
    + unfold bind.
      destruct (getDeviceByIP (getClientIP r) s) as [res s1| s1 | s1] eqn:Hg.
      * pose proof (getDeviceByIP_idle _ _ _ _ Hi Hg) as Hi1.
        destruct (getDeviceByIP_pair _ _ _ _ Hg) as [[device ->]|[e ->]].
        -- left. do 2 eexists. split; [reflexivity|exact Hi1].
        -- left. rewrite logf_final. do 2 eexists.
           split; [reflexivity|exact Hi1].
      * right. eexists. reflexivity.
      * by apply getDeviceByIP_no_panic in Hg.
Qed.

Lemma mutex_released_on_return_witness :
  idle Examples.cold_nodir
  /\ exists r s', getDeviceByIP "100.64.0.9" Examples.cold_nodir = Ret r s' /\ idle s'.
Proof.
  assert (Hi : idle Examples.cold_nodir) by reflexivity.
  split; [exact Hi|].
  assert (Hg : exists r s', getDeviceByIP "100.64.0.9" Examples.cold_nodir = Ret r s')
    by (eexists _, _; vm_compute; reflexivity).
  destruct Hg as (r & s' & Hg). exists r, s'. split; [exact Hg|].
  exact (proj1 (proj2 (proj2 (proj2 (mutex_released_on_return Examples.cold_nodir Hi))))
           "100.64.0.9" r s' Hg).
Defined.

(** X6. When does a refresh come back? From a state in which no one
    holds the mutex, refreshDeviceCache waits for ever exactly when
    its fetch succeeds and the directory of the cache file is there or
    can be made: saveDeviceCache then asks for the read lock under the
    write lock of its caller. It then holds the write lock for good.
    In every other case it returns. *)
Theorem refreshDeviceCache_blocks_iff (s : State) :
  idle s ->
  ((exists s', refreshDeviceCache s = Blocked s')
   <-> (exists a s1, fetchDevices s = Ret (inl a) s1) /\ cache_dir_ok s = true)
  /\ (forall s', refreshDeviceCache s = Blocked s' -> sync.writer (mutex_of s') = true)
  /\ ((exists r s', refreshDeviceCache s = Ret r s')
      \/ (exists s', refreshDeviceCache s = Blocked s')).
Proof.
  intros Hi.
  destruct (fetchDevices_returns s) as (a & s1 & Hf & _).
  destruct a as [[resp dr]|e].
  - destruct (refresh_fetch_ok s resp dr s1 Hf Hi) as (s2 & _ & _ & _ & Hcase).
    destruct (cache_dir_ok s) eqn:Hdir.
    + destruct Hcase as [Hb Hm]. repeat split.
      * eexists _, _. exact Hf.
      * intros _. eexists. exact Hb.
      * intros s' Hs'. rewrite Hb in Hs'. injection Hs' as <-. by rewrite Hm.
      * right. eexists. exact Hb.
    + destruct Hcase as [Hr Hm].
      split; [split|split].
      * intros [s' Hs']. congruence.
      * intros [_ ?]. done.
      * intros s' Hs'. congruence.
      * left. eexists _, _. exact Hr.
  - pose proof (refresh_fetch_failed s e s1 Hf) as Hr.
    split; [split|split].
    + intros [s' Hs']. congruence.
    + intros [(a & s1' & Ha) _]. congruence.
    + intros s' Hs'. congruence.
    + left. eexists _, _. exact Hr.
Qed.

Lemma refreshDeviceCache_blocks_iff_witness :
  (exists s', refreshDeviceCache Examples.cold = Blocked s')
  /\ (exists r s', refreshDeviceCache Examples.cold_nodir = Ret r s').
Proof.
  split.
  - apply (proj2 (proj1 (refreshDeviceCache_blocks_iff Examples.cold eq_refl))).
    split; [|vm_compute; reflexivity]. eexists _, _. vm_compute. reflexivity.
  - destruct (proj2 (proj2 (refreshDeviceCache_blocks_iff Examples.cold_nodir eq_refl)))
      as [H|[s' H]]; [exact H|].
    exfalso.
    destruct (proj1 (proj1 (refreshDeviceCache_blocks_iff Examples.cold_nodir eq_refl))
                (ex_intro _ s' H)) as [_ Hdir].
    vm_compute in Hdir. discriminate Hdir.
Defined.

(** X7. Once the write lock is held for good, the handler is stuck:
    every later request whose client address can be determined waits
    in getDeviceByIP for the read lock, an address in the cache
    included, and never reaches the downstream handler. Only a request
    without a client address still gets through. *)
Theorem ServeHTTP_blocked_while_locked {A} (r : http.Inbound) (next : http.Inbound -> M A)
    (s : State) :
  sync.writer (mutex_of s) = true ->
  (getClientIP r <> "" -> ServeHTTP r next s = Blocked s)
  /\ (getClientIP r = "" -> exists s', ServeHTTP r next s = next r s' /\ auth s' = auth s).
Proof.
  intros Hw. split; intros Hip; unfold ServeHTTP.
  - rewrite (proj2 (String.eqb_neq _ _) Hip). unfold bind at 1.
    by rewrite (getDeviceByIP_blocked_after _ _ Hw).
  - rewrite Hip, String.eqb_refl. unfold bind. rewrite logf_final.
    eexists. split; reflexivity.
Qed.

Lemma ServeHTTP_blocked_while_locked_witness :
  let s := final (refreshDeviceCache Examples.cold) in
  ServeHTTP (Examples.inbound "100.64.0.5:41000") (fun r => ret r) s = Blocked s.
Proof.
  intros s.
  apply (ServeHTTP_blocked_while_locked (Examples.inbound "100.64.0.5:41000")
           (fun r => ret r) s).
  - vm_compute. reflexivity.
  - vm_compute. discriminate.
Defined.

End CachedRequests.
(** ** What the downstream handler reads *)

Section HeaderNames.
Import golib.
Local Open Scope string_scope.

Lemma canonical_go_app a : forall upper,
  exists upper', forall b,
    canonical_go upper (a ++ b) = (canonical_go upper a ++ canonical_go upper' b)%list.
Proof.
  induction a as [|c a IH]; intros upper.
  - exists upper. reflexivity.
  - cbn [app canonical_go]. cbv zeta.
    destruct (IH (((if upper && in_range 97 122 (code c) then (code c - 32)%N
                    else if negb upper && in_range 65 90 (code c) then (code c + 32)%N
                         else code c) =? 45)%N)) as [u' Hu'].
    exists u'. intros b. by rewrite Hu'.
Qed.

Lemma str_inj a b : str a = str b -> a = b.
Proof. intros H. rewrite <- (txt_str a), <- (txt_str b). by rewrite H. Qed.

Lemma NoDup_fmap_inj_on {A B} (f : A -> B) (l : list A) :
  (forall x y, x ∈ l -> y ∈ l -> f x = f y -> x = y) -> NoDup l -> NoDup (f <$> l).
Proof.
  intros Hinj Hnd. induction Hnd as [|x l Hx Hnd IH]; [constructor|].
  rewrite fmap_cons. constructor.
  - intros Hin. apply list_elem_of_fmap in Hin as (y & Hxy & Hy).
    apply Hx. rewrite (Hinj x y); [done|apply list_elem_of_here|by apply list_elem_of_further|done].
  - apply IH. intros a b Ha Hb. apply Hinj; by apply list_elem_of_further.
Qed.

Lemma NoDup_fmap_eq {A B} (f : A -> B) (l : list A) x y :
  NoDup (f <$> l) -> x ∈ l -> y ∈ l -> f x = f y -> x = y.
Proof.
  induction l as [|a l IH]; intros Hnd Hx Hy Hxy.
  - by apply elem_of_nil in Hx.
  - rewrite fmap_cons in Hnd. apply NoDup_cons in Hnd as [Ha Hnd].
    apply elem_of_cons in Hx as [->|Hx]; apply elem_of_cons in Hy as [->|Hy].
    + reflexivity.
    + exfalso. apply Ha. rewrite Hxy. apply list_elem_of_fmap. by exists y.
    + exfalso. apply Ha. rewrite <- Hxy. apply list_elem_of_fmap. by exists x.
    + by apply IH.
Qed.

(** Names that differ beyond the case of their letters stay apart
    under a common prefix once CanonicalMIMEHeaderKey has been applied,
    whatever the prefix. *)
Lemma canonical_prefixed_NoDup (prefix : string) (names : list string) :
  forallb (fun s => forallb (fun c => validHeaderFieldByte (code c)) (txt s)) names = true ->
  NoDup ((fun s => canonical_go true (txt s)) <$> names) ->
  NoDup ((fun s => canonical_go false (txt s)) <$> names) ->
  NoDup ((fun s => CanonicalMIMEHeaderKey (prefix +:+ s)) <$> names).
Proof.
  intros Hvalid Ht Hf.
  assert (Hnd : NoDup names).
  { apply (NoDup_fmap_1 (fun s => canonical_go true (txt s))). exact Ht. }
  apply NoDup_fmap_inj_on; [|exact Hnd].
  intros x y Hx Hy. unfold CanonicalMIMEHeaderKey. rewrite !txt_app, !forallb_app.
  rewrite forallb_forall in Hvalid.
  rewrite (Hvalid x), (Hvalid y) by (by apply list_elem_of_In).
  rewrite !andb_true_r.
  destruct (forallb _ (txt prefix)).
  - destruct (canonical_go_app (txt prefix) true) as [u Hu]. rewrite !Hu.
    intros H. apply str_inj, app_inv_head in H.
    destruct u.
    + by apply (NoDup_fmap_eq (fun s => canonical_go true (txt s)) names).
    + by apply (NoDup_fmap_eq (fun s => canonical_go false (txt s)) names).
  - apply prefixed_inj.
Qed.

(** The last of several [Header.Set] calls under one canonical name
    decides; with all names apart, each call does. *)
Lemma fold_Header_Set_other (kvs : list (string * string)) (h : Header) key :
  CanonicalMIMEHeaderKey key ∉ (fun kv => CanonicalMIMEHeaderKey kv.1) <$> kvs ->
  fold_left (fun h kv => Header_Set h kv.1 kv.2) kvs h !! CanonicalMIMEHeaderKey key
  = h !! CanonicalMIMEHeaderKey key.
Proof.
  revert h. induction kvs as [|[k v] kvs IH]; intros h Hnot; [reflexivity|].
  rewrite fmap_cons in Hnot. apply not_elem_of_cons in Hnot as [Hk Hnot].
  cbn [fold_left]. rewrite IH by done. unfold Header_Set. by rewrite lookup_insert_ne.
Qed.

Lemma fold_Header_Set_get (kvs : list (string * string)) (h : Header) name value :
  NoDup ((fun kv => CanonicalMIMEHeaderKey kv.1) <$> kvs) ->
  (name, value) ∈ kvs ->
  Header_Get (fold_left (fun h kv => Header_Set h kv.1 kv.2) kvs h) name = value.
Proof.
  revert h. induction kvs as [|[k v] kvs IH]; intros h Hnd Hin.
  - by apply elem_of_nil in Hin.
  - rewrite fmap_cons in Hnd. apply NoDup_cons in Hnd as [Hk Hnd].
    cbn [fold_left]. apply elem_of_cons in Hin as [[= -> ->]|Hin].
    + unfold Header_Get. rewrite fold_Header_Set_other by exact Hk.
      unfold Header_Set. cbn. by rewrite lookup_insert_eq.
    + by apply IH.
Qed.

End HeaderNames.
Section AnnotatedRequest.
Import golib.
Local Open Scope string_scope.

Lemma deviceHeaders_names (t : Cached.TailscaleAuth) (device : Cached.Device) :
  (fun kv : string * string => CanonicalMIMEHeaderKey kv.1) <$> Cached.deviceHeaders t device
  = canonical_name (Cached.HeaderPrefix t)
      <$> device_names (0 <? length (Cached.Addresses device))%nat.
Proof.
  unfold Cached.deviceHeaders, device_names. destruct (0 <? _)%nat; reflexivity.
Qed.

Lemma userHeaders_names (t : Direct.TailscaleAuth) (whois : Direct.WhoIsResponse) :
  (fun kv : string * string => CanonicalMIMEHeaderKey kv.1) <$> Direct.userHeaders t whois
  = canonical_name (Direct.HeaderPrefix t)
      <$> user_names (0 <? length (Direct.Addresses (Direct.node whois)))%nat
            (0 <? length (Direct.Tags (Direct.node whois)))%nat.
Proof.
  unfold Direct.userHeaders, user_names. do 2 destruct (0 <? _)%nat; reflexivity.
Qed.

Lemma device_names_apart prefix b : NoDup (canonical_name prefix <$> device_names b).
Proof.
  apply canonical_prefixed_NoDup; destruct b;
    first [reflexivity | apply (bool_decide_eq_true_1 _); vm_compute; reflexivity].
Qed.

Lemma user_names_apart prefix a b : NoDup (canonical_name prefix <$> user_names a b).
Proof.
  apply canonical_prefixed_NoDup; destruct a, b;
    first [reflexivity | apply (bool_decide_eq_true_1 _); vm_compute; reflexivity].
Qed.

(** X8. Whatever addDeviceHeaders (or addUserHeaders) sets can be read
    back by the downstream handler under the same name: every pair of
    the annotator is in the request it leaves, the case of the name
    apart as usual for headers, and a value the client had sent under
    that name is gone. This holds for every prefix: no two names of
    the annotator fall together. *)
Theorem annotation_can_be_read :
  (forall (t : Cached.TailscaleAuth) (r : http.Inbound) (device : Cached.Device)
          (name value : string),
      (name, value) ∈ Cached.deviceHeaders t device ->
      Header_Get (http.InHeader (Cached.addDeviceHeaders t r device)) name = value)
  /\ (forall (t : Direct.TailscaleAuth) (r : http.Inbound) (whois : Direct.WhoIsResponse)
             (name value : string),
        (name, value) ∈ Direct.userHeaders t whois ->
        Header_Get (http.InHeader (Direct.addUserHeaders t r whois)) name = value).
Proof.
  split.
  - intros t r device name value Hin. unfold Cached.addDeviceHeaders. cbn [http.InHeader].
    apply fold_Header_Set_get; [|exact Hin].
    rewrite deviceHeaders_names. apply device_names_apart.
  - intros t r whois name value Hin. unfold Direct.addUserHeaders. cbn [http.InHeader].
    apply fold_Header_Set_get; [|exact Hin].
    rewrite userHeaders_names. apply user_names_apart.
Qed.

Lemma annotation_can_be_read_witness :
  Header_Get
    (http.InHeader
       (Cached.addDeviceHeaders (Examples.config "tailscale_devices.json" Examples.empty_snapshot)
          (http.mkInbound (Header_Set ∅ "x-tailscale-device-id" "forged") "100.64.0.5:41000")
          Examples.d1))
    "X-Tailscale-Device-ID"
  = "d1".
Proof.
  apply (proj1 annotation_can_be_read). apply list_elem_of_here.
Defined.

Lemma not_in_names (prefix : string) (names : list string) (kvs : list (string * string)) key :
  (fun kv : string * string => CanonicalMIMEHeaderKey kv.1) <$> kvs
  = canonical_name prefix <$> names ->
  (forall name value, (name, value) ∈ kvs ->
     CanonicalMIMEHeaderKey name <> CanonicalMIMEHeaderKey key) ->
  CanonicalMIMEHeaderKey key ∉ (fun kv : string * string => CanonicalMIMEHeaderKey kv.1) <$> kvs.
Proof.
  intros _ Hother Hin. apply list_elem_of_fmap in Hin as ([name value] & Heq & Hin).
  by apply (Hother name value Hin).
Qed.

(** What the annotators leave alone, name by name. *)
Lemma addDeviceHeaders_frame (t : Cached.TailscaleAuth) (r : http.Inbound)
    (device : Cached.Device) (key : string) :
  (forall name value, (name, value) ∈ Cached.deviceHeaders t device ->
     CanonicalMIMEHeaderKey name <> CanonicalMIMEHeaderKey key) ->
  Header_Get (http.InHeader (Cached.addDeviceHeaders t r device)) key
  = Header_Get (http.InHeader r) key.
Proof.
  intros Hother. unfold Header_Get, Cached.addDeviceHeaders. cbn [http.InHeader].
  rewrite fold_Header_Set_other; [reflexivity|].
  by apply (not_in_names _ _ _ _ (deviceHeaders_names t device)).
Qed.

Lemma addUserHeaders_frame (t : Direct.TailscaleAuth) (r : http.Inbound)
    (whois : Direct.WhoIsResponse) (key : string) :
  (forall name value, (name, value) ∈ Direct.userHeaders t whois ->
     CanonicalMIMEHeaderKey name <> CanonicalMIMEHeaderKey key) ->
  Header_Get (http.InHeader (Direct.addUserHeaders t r whois)) key
  = Header_Get (http.InHeader r) key.
Proof.
  intros Hother. unfold Header_Get, Direct.addUserHeaders. cbn [http.InHeader].
  rewrite fold_Header_Set_other; [reflexivity|].
  by apply (not_in_names _ _ _ _ (userHeaders_names t whois)).
Qed.

(** X9. The annotators touch nothing else: a header whose canonical
    name is none of those the annotator sets reaches the downstream
    handler with the values it came with, and so does RemoteAddr. No
    header is ever removed. *)
Theorem annotation_leaves_the_rest :
  (forall (t : Cached.TailscaleAuth) (r : http.Inbound) (device : Cached.Device) (key : string),
      (forall name value, (name, value) ∈ Cached.deviceHeaders t device ->
         CanonicalMIMEHeaderKey name <> CanonicalMIMEHeaderKey key) ->
      http.InHeader (Cached.addDeviceHeaders t r device) !! CanonicalMIMEHeaderKey key
      = http.InHeader r !! CanonicalMIMEHeaderKey key
      /\ Header_Get (http.InHeader (Cached.addDeviceHeaders t r device)) key
         = Header_Get (http.InHeader r) key
      /\ http.RemoteAddr (Cached.addDeviceHeaders t r device) = http.RemoteAddr r)
  /\ (forall (t : Direct.TailscaleAuth) (r : http.Inbound) (whois : Direct.WhoIsResponse)
             (key : string),
        (forall name value, (name, value) ∈ Direct.userHeaders t whois ->
           CanonicalMIMEHeaderKey name <> CanonicalMIMEHeaderKey key) ->
        http.InHeader (Direct.addUserHeaders t r whois) !! CanonicalMIMEHeaderKey key
        = http.InHeader r !! CanonicalMIMEHeaderKey key
        /\ Header_Get (http.InHeader (Direct.addUserHeaders t r whois)) key
           = Header_Get (http.InHeader r) key
        /\ http.RemoteAddr (Direct.addUserHeaders t r whois) = http.RemoteAddr r).
Proof.
  split.
  - intros t r device key Hother.
    assert (H : http.InHeader (Cached.addDeviceHeaders t r device) !! CanonicalMIMEHeaderKey key
                = http.InHeader r !! CanonicalMIMEHeaderKey key).
    { unfold Cached.addDeviceHeaders. cbn [http.InHeader]. apply fold_Header_Set_other.
      by apply (not_in_names _ _ _ _ (deviceHeaders_names t device)). }
    split; [exact H|]. split; [|reflexivity]. unfold Header_Get. by rewrite H.
  - intros t r whois key Hother.
    assert (H : http.InHeader (Direct.addUserHeaders t r whois) !! CanonicalMIMEHeaderKey key
                = http.InHeader r !! CanonicalMIMEHeaderKey key).
    { unfold Direct.addUserHeaders. cbn [http.InHeader]. apply fold_Header_Set_other.
      by apply (not_in_names _ _ _ _ (userHeaders_names t whois)). }
    split; [exact H|]. split; [|reflexivity]. unfold Header_Get. by rewrite H.
Qed.

Lemma annotation_leaves_the_rest_witness :
  Header_Get
    (http.InHeader
       (Cached.addDeviceHeaders (Examples.config "tailscale_devices.json" Examples.empty_snapshot)
          (http.mkInbound (Header_Set ∅ "Cookie" "sid=1") "100.64.0.5:41000") Examples.d1))
    "Cookie"
  = "sid=1".
Proof.
  refine (proj1 (proj2 (proj1 annotation_leaves_the_rest
                          (Examples.config "tailscale_devices.json" Examples.empty_snapshot)
                          (http.mkInbound (Header_Set ∅ "Cookie" "sid=1") "100.64.0.5:41000")
                          Examples.d1 "Cookie" _))).
  intros name value Hin.
  vm_compute in Hin.
  repeat (apply elem_of_cons in Hin as [Hin|Hin];
          [injection Hin as -> _; vm_compute; discriminate|]).
  by apply elem_of_nil in Hin.
Defined.

Lemma name_apart prefix (names : list string) name other :
  NoDup (canonical_name prefix <$> names) ->
  name ∈ names -> other ∈ names -> name <> other ->
  canonical_name prefix name <> canonical_name prefix other.
Proof.
  intros Hnd Hn Ho Hne Heq. apply Hne.
  by apply (NoDup_fmap_eq (canonical_name prefix) names).
Qed.

Lemma pair_name (prefix : string) (names : list string) (kvs : list (string * string)) n v :
  kvs.*1 = (fun s => prefix +:+ s) <$> names ->
  (n, v) ∈ kvs -> exists s, s ∈ names /\ n = prefix +:+ s.
Proof.
  intros Hnames Hin.
  assert (Hn : n ∈ kvs.*1) by (apply list_elem_of_fmap; by exists (n, v)).
  rewrite Hnames in Hn. apply list_elem_of_fmap in Hn as (s & -> & Hs). by exists s.
Qed.

(** X10. The other side of an omitted pair: when the record has no
    addresses (or the whois record no tags), the annotator leaves
    whatever the request carried under that name, so a value supplied
    by the client reaches the downstream handler as if it were the
    annotator's. *)
Theorem omitted_pair_keeps_inbound_value :
  (forall (t : Cached.TailscaleAuth) (r : http.Inbound) (device : Cached.Device),
      Cached.Addresses device = [] ->
      Header_Get (http.InHeader (Cached.addDeviceHeaders t r device))
        (Cached.HeaderPrefix t +:+ "Device-Addresses")
      = Header_Get (http.InHeader r) (Cached.HeaderPrefix t +:+ "Device-Addresses"))
  /\ (forall (t : Direct.TailscaleAuth) (r : http.Inbound) (whois : Direct.WhoIsResponse),
        (Direct.Addresses (Direct.node whois) = [] ->
         Header_Get (http.InHeader (Direct.addUserHeaders t r whois))
           (Direct.HeaderPrefix t +:+ "Node-Addresses")
         = Header_Get (http.InHeader r) (Direct.HeaderPrefix t +:+ "Node-Addresses"))
        /\ (Direct.Tags (Direct.node whois) = [] ->
            Header_Get (http.InHeader (Direct.addUserHeaders t r whois))
              (Direct.HeaderPrefix t +:+ "Node-Tags")
            = Header_Get (http.InHeader r) (Direct.HeaderPrefix t +:+ "Node-Tags"))).
Proof.
  assert (Hin_dec : forall (x : string) (l : list string), bool_decide (x ∈ l) = true -> x ∈ l)
    by (intros x l; apply bool_decide_eq_true_1).
  split; [|split].
  - intros t r device Hempty.
    apply addDeviceHeaders_frame. intros name value Hin.
    assert (Hnames : (Cached.deviceHeaders t device).*1
                     = (fun s => Cached.HeaderPrefix t +:+ s) <$> device_names false).
    { unfold Cached.deviceHeaders. by rewrite Hempty. }
    destruct (pair_name _ _ _ _ _ Hnames Hin) as (s & Hs & ->).
    apply (name_apart (Cached.HeaderPrefix t) (device_names true));
      [apply device_names_apart | | by apply Hin_dec | ].
    + clear -Hs Hin_dec. unfold device_names in Hs. cbn [app] in Hs.
      repeat (apply elem_of_cons in Hs as [->|Hs]; [by apply Hin_dec|]).
      by apply elem_of_nil in Hs.
    + intros ->. revert Hs. change (~ ("Device-Addresses" ∈ device_names false)).
      apply (bool_decide_eq_false_1 _). reflexivity.
  - intros Hempty.
    apply addUserHeaders_frame. intros name value Hin.
    assert (Hnames : (Direct.userHeaders t whois).*1
                     = (fun s => Direct.HeaderPrefix t +:+ s)
                         <$> user_names false (0 <? length (Direct.Tags (Direct.node whois)))%nat).
    { unfold Direct.userHeaders, user_names. rewrite Hempty.
      change (0 <? length (@nil string))%nat with false.
      by destruct (0 <? _)%nat. }
    destruct (pair_name _ _ _ _ _ Hnames Hin) as (s & Hs & ->).
    apply (name_apart (Direct.HeaderPrefix t) (user_names true true));
      [apply user_names_apart | | by apply Hin_dec | ].
    + clear -Hs Hin_dec. unfold user_names in Hs.
      destruct (0 <? _)%nat; cbn [app] in Hs;
        repeat (apply elem_of_cons in Hs as [->|Hs]; [by apply Hin_dec|]);
        by apply elem_of_nil in Hs.
    + intros ->. revert Hs.
      destruct (0 <? _)%nat;
        match goal with |- ?P -> False => change (~ P) end;
        apply (bool_decide_eq_false_1 _); reflexivity.
  - intros Hempty.
    apply addUserHeaders_frame. intros name value Hin.
    assert (Hnames : (Direct.userHeaders t whois).*1
                     = (fun s => Direct.HeaderPrefix t +:+ s)
                         <$> user_names (0 <? length (Direct.Addresses (Direct.node whois)))%nat
                               false).
    { unfold Direct.userHeaders, user_names. rewrite Hempty.
      change (0 <? length (@nil string))%nat with false.
      by destruct (0 <? _)%nat. }
    destruct (pair_name _ _ _ _ _ Hnames Hin) as (s & Hs & ->).
    apply (name_apart (Direct.HeaderPrefix t) (user_names true true));
      [apply user_names_apart | | by apply Hin_dec | ].
    + clear -Hs Hin_dec. unfold user_names in Hs.
      destruct (0 <? _)%nat; cbn [app] in Hs;
        repeat (apply elem_of_cons in Hs as [->|Hs]; [by apply Hin_dec|]);
        by apply elem_of_nil in Hs.
    + intros ->. revert Hs.
      destruct (0 <? _)%nat;
        match goal with |- ?P -> False => change (~ P) end;
        apply (bool_decide_eq_false_1 _); reflexivity.
Qed.

Lemma omitted_pair_keeps_inbound_value_witness :
  Header_Get
    (http.InHeader
       (Cached.addDeviceHeaders (Examples.config "tailscale_devices.json" Examples.empty_snapshot)
          (http.mkInbound (Header_Set ∅ "X-Tailscale-Device-Addresses" "100.64.0.1")
             "100.64.0.5:41000")
          (Examples.device "d3" [] true)))
    "X-Tailscale-Device-Addresses"
  = "100.64.0.1".
Proof.
  exact (proj1 omitted_pair_keeps_inbound_value
           (Examples.config "tailscale_devices.json" Examples.empty_snapshot)
           (http.mkInbound (Header_Set ∅ "X-Tailscale-Device-Addresses" "100.64.0.1")
              "100.64.0.5:41000")
           (Examples.device "d3" [] true) eq_refl).
Defined.

End AnnotatedRequest.
(** ** The whois handler, request by request *)

Section DirectRequests.
Import golib json jsondec.
Local Open Scope string_scope.

Lemma getTailscaleUser_world t clientIP w :
  Direct.net (Direct.getTailscaleUser t clientIP w).2 = Direct.net w
  /\ Direct.log (Direct.getTailscaleUser t clientIP w).2 = Direct.log w
  /\ Direct.sent (Direct.getTailscaleUser t clientIP w).2
     = (Direct.sent w ++ whois_requests t clientIP)%list.
Proof.
  unfold Direct.getTailscaleUser, whois_requests.
  destruct (Direct.whois_request t clientIP) as [req|]; cbn [snd].
  - unfold Direct.client_Do.
    destruct (Direct.net w _ req) as [e|resp]; [done|].
    destruct (negb _); [done|].
    destruct (http.Body resp) as [body|]; [|done].
    destruct (Direct.Unmarshal_WhoIsResponse body) as [whois [e|]]; done.
  - by rewrite app_nil_r.
Qed.

(** X11. The whois handler keeps nothing between requests: every
    request whose client address can be determined costs exactly one
    whois query (none if the URL cannot be built), a request without
    one costs none, and in every case the request goes downstream,
    either as it came or with the headers of the answer just
    received. *)
Theorem Direct_ServeHTTP_asks_every_time {A} (t : Direct.TailscaleAuth) (r : http.Inbound)
    (next : http.Inbound -> Direct.World -> A) (w : Direct.World) :
  let clientIP := Direct.getClientIP r in
  exists r' w',
    Direct.ServeHTTP t r next w = Some (next r' w')
    /\ Direct.net w' = Direct.net w
    /\ Direct.sent w'
       = (Direct.sent w ++ if String.eqb clientIP "" then [] else whois_requests t clientIP)%list
    /\ (r' = r
        \/ exists whois,
             (Direct.getTailscaleUser t clientIP w).1 = (Some whois, None)
             /\ r' = Direct.addUserHeaders t r whois).
Proof.
  intros clientIP. unfold Direct.ServeHTTP. fold clientIP.
  destruct (String.eqb clientIP "").
  - eexists _, _. split; [reflexivity|]. cbn. rewrite app_nil_r. auto.
  - pose proof (getTailscaleUser_world t clientIP w) as (Hn & _ & Hs).
    destruct (Direct.getTailscaleUser t clientIP w) as [res w1] eqn:Hg.
    destruct (getTailscaleUser_pair _ _ _ _ _ Hg) as [[whois ->]|[e ->]]; cbn [snd] in *.
    + eexists _, _. split; [reflexivity|]. repeat split; [done..|].
      right. by exists whois.
    + eexists _, _. split; [reflexivity|]. cbn. auto.
Qed.

End DirectRequests.

(** ** Provision and Validate *)

Section Setup.
Import golib json jsondec Cached.
Local Open Scope string_scope.

Lemma Provision_defaults s :
  Provision s
  = (if String.eqb (Tailnet (auth s)) "" then ret (Some ErrTailnetRequired)
     else if String.eqb (APIKey (auth s)) "" then ret (Some ErrAPIKeyRequired)
     else
       set_cache (mkDeviceCache ∅ "") >>
       let! err := loadDeviceCache in
       (match err with
        | Some _ => logf Warn "failed to load device cache, starting with empty cache"
        | None => ret tt
        end) >>
       ret None)
      (mkState (defaulted (auth s)) (world s)).
Proof.
  destruct s as [[k tn hp cf c mu] w]. unfold Provision, defaulted, bind, get_auth, set_auth.
  simpl.
  destruct (String.eqb hp "") eqn:E1; simpl; destruct (String.eqb cf "") eqn:E2; simpl;
    rewrite ?E1, ?E2; simpl;
    destruct (String.eqb tn "") eqn:E3; simpl; rewrite ?E3; try reflexivity;
    destruct (String.eqb k "") eqn:E4; simpl; rewrite ?E4; reflexivity.
Qed.

(** What loadDeviceCache does to a handler whose mutex is free. *)
Lemma loadDeviceCache_outcome s :
  idle s ->
  loadDeviceCache s
  = match os.ReadFile (fs (world s)) (getCacheFilePath (auth s)) with
    | inr e => Ret (if os.IsNotExist e then None else Some (ErrReadCache e)) s
    | inl data =>
      let r := Unmarshal_DeviceCache data (cache_of s) in
      match r.2 with
      | Some e => Ret (Some (ErrUnmarshalCache e)) (mkState (with_cache (auth s) r.1) (world s))
      | None =>
        Ret None
          (mkState (with_cache (auth s) r.1)
             (mkWorld (net (world s)) (sent (world s)) (fs (world s))
                (log (world s) ++ [(Info, "loaded device cache")])))
      end
    end.
Proof.
  destruct s as [[k tn hp cf c mu] w]. unfold idle, mutex_of. simpl. intros ->.
  unfold loadDeviceCache, bind, get_auth, os_ReadFile, Lock, get_cache, set_cache, Unlock,
    logf, ret, cache_of. simpl.
  destruct (os.ReadFile (fs w) _) as [data|e]; simpl.
  - destruct (Unmarshal_DeviceCache data c) as [c' [e|]]; reflexivity.
  - destruct (os.IsNotExist e); reflexivity.
Qed.

Lemma getCacheFilePath_CacheFile t : getCacheFilePath t = CacheFile t.
Proof. unfold getCacheFilePath. by destruct (IsAbs _). Qed.

(** Provision, for a configuration that has its two required settings. *)
Lemma Provision_valid s :
  idle s ->
  Validate (auth s) = None ->
  let t := defaulted (auth s) in
  let w := world s in
  exists s',
    Provision s = Ret None s'
    /\ with_cache (auth s') (deviceCache t) = t
    /\ net (world s') = net w /\ sent (world s') = sent w /\ fs (world s') = fs w
    /\ match os.ReadFile (fs w) (CacheFile t) with
       | inr e =>
         cache_of s' = mkDeviceCache ∅ ""
         /\ log (world s') = (log w ++ if os.IsNotExist e then [] else [load_warning])%list
       | inl data =>
         match parse data with
         | None =>
           cache_of s' = mkDeviceCache ∅ ""
           /\ log (world s') = (log w ++ [load_warning])%list
         | Some v =>
           cache_of s' = store_DeviceCache (mkDeviceCache ∅ "") v
           /\ log (world s')
              = (log w ++ [if ok_DeviceCache v then (Info, "loaded device cache")
                           else load_warning])%list
         end
       end.
Proof.
  intros Hi Hv t w. rewrite Provision_defaults.
  unfold Validate in Hv.
  destruct (String.eqb (Tailnet (auth s)) ""); [done|].
  destruct (String.eqb (APIKey (auth s)) ""); [done|].
  unfold bind at 1. unfold set_cache at 1. cbn [auth world].
  set (s0 := mkState _ _).
  assert (Hi0 : idle s0) by exact Hi.
  unfold bind at 1. rewrite (loadDeviceCache_outcome s0 Hi0).
  rewrite getCacheFilePath_CacheFile.
  change (fs (world s0)) with (fs w). change (CacheFile (auth s0)) with (CacheFile t).
  destruct (os.ReadFile (fs w) (CacheFile t)) as [data|e].
  - unfold Unmarshal_DeviceCache. change (cache_of s0) with (mkDeviceCache ∅ "").
    destruct (parse data) as [v|]; cbn [fst snd].
    + destruct (ok_DeviceCache v); unfold bind, ret; [|rewrite logf_final];
        eexists; (split; [reflexivity|]); cbn; subst t w; unfold defaulted; cbn;
        destruct (auth s); auto 10.
    + unfold bind, ret. rewrite logf_final.
      eexists; (split; [reflexivity|]); cbn; subst t w; unfold defaulted; cbn;
        destruct (auth s); auto 10.
  - destruct (os.IsNotExist e); unfold bind, ret; [|rewrite logf_final];
      eexists; (split; [reflexivity|]); cbn; subst t w; unfold defaulted; cbn;
      rewrite ?app_nil_r; destruct (auth s); destruct (world s); auto 10.
Qed.

(** X12. Provision returns what Validate returns: it fails exactly
    when the tailnet or the API key is missing (the tailnet is checked
    first), never over the cache file, whatever the disk holds.
    It leaves the two required settings alone, puts the defaults in
    for an empty header prefix or cache file name, sends nothing,
    writes nothing and releases the mutex; afterwards Validate still
    gives the same answer. The whois version agrees. *)
Theorem Provision_fails_as_Validate :
  (forall s : State,
      idle s ->
      exists s',
        Provision s = Ret (Validate (auth s)) s'
        /\ with_cache (auth s') (deviceCache (auth s)) = defaulted (auth s)
        /\ HeaderPrefix (auth s') <> "" /\ CacheFile (auth s') <> ""
        /\ Validate (auth s') = Validate (auth s)
        /\ idle s'
        /\ sent (world s') = sent (world s) /\ fs (world s') = fs (world s))
  /\ (forall t : Direct.TailscaleAuth,
        (Direct.Provision t).2 = Direct.Validate t
        /\ Direct.Validate (Direct.Provision t).1 = Direct.Validate t
        /\ Direct.HeaderPrefix (Direct.Provision t).1 <> ""
        /\ Direct.APIKey (Direct.Provision t).1 = Direct.APIKey t
        /\ Direct.Tailnet (Direct.Provision t).1 = Direct.Tailnet t).
Proof.
  assert (Hdef : forall t, HeaderPrefix (defaulted t) <> "" /\ CacheFile (defaulted t) <> "").
  { intros t. unfold defaulted. cbn.
    split; [destruct (String.eqb (HeaderPrefix t) "") eqn:E
           |destruct (String.eqb (CacheFile t) "") eqn:E];
      first [discriminate | by apply String.eqb_neq]. }
  split.
  - intros s Hi. destruct (Validate (auth s)) as [e|] eqn:Hv.
    + rewrite Provision_defaults. unfold Validate in Hv.
      exists (mkState (defaulted (auth s)) (world s)).
      destruct (Hdef (auth s)) as [Hp Hc].
      destruct (String.eqb (Tailnet (auth s)) "") eqn:Et.
      * injection Hv as <-. unfold Validate. cbn. rewrite Et.
        repeat split; try done; try (unfold defaulted; by destruct (auth s)).
      * destruct (String.eqb (APIKey (auth s)) "") eqn:Ek; [|done].
        injection Hv as <-. unfold Validate. cbn. rewrite Et, Ek.
        repeat split; try done; try (unfold defaulted; by destruct (auth s)).
    + destruct (Provision_valid s Hi Hv) as (s' & Hp & Ht & _ & Hs & Hf & _).
      exists s'. split; [exact Hp|].
      assert (Ha : forall c, with_cache (auth s') c = with_cache (defaulted (auth s)) c).
      { intros c. rewrite <- Ht. by destruct (auth s'). }
      assert (Hfields : HeaderPrefix (auth s') = HeaderPrefix (defaulted (auth s))
                        /\ CacheFile (auth s') = CacheFile (defaulted (auth s))
                        /\ Tailnet (auth s') = Tailnet (auth s)
                        /\ APIKey (auth s') = APIKey (auth s)
                        /\ cacheMutex (auth s') = cacheMutex (auth s)).
      { pose proof (Ha (deviceCache (auth s))) as H. revert H.
        unfold with_cache, defaulted. cbn. intros [= -> -> -> -> ->]. auto. }
      destruct Hfields as (Hhp & Hcf & Htn & Hk & Hmu).
      destruct (Hdef (auth s)) as [Hp' Hc'].
      split. { rewrite Ha. unfold with_cache, defaulted. cbn. by destruct (auth s). }
      split. { by rewrite Hhp. }
      split. { by rewrite Hcf. }
      split. { unfold Validate. by rewrite Htn, Hk. }
      split. { unfold idle, mutex_of. rewrite Hmu. exact Hi. }
      split; done.
  - intros t. unfold Direct.Provision, Direct.Validate.
    destruct (String.eqb (Direct.HeaderPrefix t) "") eqn:Ep; cbn;
      destruct (String.eqb (Direct.Tailnet t) "") eqn:Et; cbn; rewrite ?Et;
      destruct (String.eqb (Direct.APIKey t) "") eqn:Ek; cbn; rewrite ?Et, ?Ek;
      repeat split; first [discriminate | by apply String.eqb_neq].
Qed.

Lemma Provision_fails_as_Validate_witness :
  exists s',
    Provision (Examples.state "" Examples.snapshot1 (Examples.respond 200 []) Examples.blocked_fs)
    = Ret None s'
    /\ CacheFile (auth s') = "tailscale_devices.json".
Proof.
  destruct (proj1 Provision_fails_as_Validate
              (Examples.state "" Examples.snapshot1 (Examples.respond 200 [])
                 Examples.blocked_fs) eq_refl)
    as (s' & Hp & Ht & _).
  exists s'. split; [exact Hp|].
  apply (f_equal CacheFile) in Ht. exact Ht.
Defined.

(** X13. What Provision makes of the cache file. A file that is not
    there leaves the cache empty without a word; a file that cannot be
    read or is not JSON leaves it empty with a warning. A file that
    is JSON is decoded into the cache as far as its values fit, and if
    one does not fit the same warning (starting with empty cache) is
    logged although the entries that did fit are in the cache. *)
Theorem Provision_cache_file (s : State) :
  idle s ->
  Validate (auth s) = None ->
  exists s',
    Provision s = Ret None s'
    /\ match os.ReadFile (fs (world s)) (CacheFile (defaulted (auth s))) with
       | inr e =>
         cache_of s' = mkDeviceCache ∅ ""
         /\ log (world s')
            = (log (world s) ++ if os.IsNotExist e then [] else [load_warning])%list
       | inl data =>
         match parse data with
         | None =>
           cache_of s' = mkDeviceCache ∅ ""
           /\ log (world s') = (log (world s) ++ [load_warning])%list
         | Some v =>
           cache_of s' = store_DeviceCache (mkDeviceCache ∅ "") v
           /\ log (world s')
              = (log (world s) ++ [if ok_DeviceCache v then (Info, "loaded device cache")
                                   else load_warning])%list
         end
       end.
Proof.
  intros Hi Hv. destruct (Provision_valid s Hi Hv) as (s' & Hp & _ & _ & _ & _ & H).
  exists s'. split; [exact Hp|exact H].
Qed.

Lemma Provision_cache_file_witness :
  let data := Examples.quoted "{'ip_to_device':{'100.64.0.5':{'id':'d1'}},'last_update':7}" in
  let s := Examples.state "" Examples.empty_snapshot (Examples.respond 200 [])
             (os.mkFS {["tailscale_devices.json" := data]} ∅ ∅) in
  exists s',
    Provision s = Ret None s'
    /\ is_Some (IPToDevice (cache_of s') !! "100.64.0.5")
    /\ log (world s') = [load_warning].
Proof.
  intros data s.
  destruct (Provision_cache_file s eq_refl eq_refl) as (s' & Hp & H).
  exists s'. split; [exact Hp|].
  do 2 match type of H with
       | match ?a with _ => _ end =>
         let a' := eval vm_compute in a in change a with a' in H; cbv beta iota in H
       end.
  destruct H as [Hc Hl]. rewrite Hc, Hl.
  split; [vm_compute; eexists; reflexivity | vm_compute; reflexivity].
Defined.

End Setup.
(** ** Requests to the directory service *)

Section OutgoingRequests.
Import golib json jsondec.
Local Open Scope string_scope.

Lemma url_plain_facts c :
  url_plain c = true ->
  isCTL (code c) = false /\ (code c =? 0x23)%N = false /\ (code c =? 0x25)%N = false
  /\ (code c =? 0x3F)%N = false.
Proof.
  unfold url_plain. intros H.
  apply andb_true_iff in H as [H H3]. apply andb_true_iff in H as [H H2].
  apply andb_true_iff in H as [H H1].
  apply negb_true_iff in H1, H2, H3. repeat split; try done.
  unfold graphic, isCTL, in_range in *. bools.
  apply orb_false_iff. split; [apply N.ltb_ge|apply N.eqb_neq]; lia.
Qed.

Lemma validEscapes_plain s : forallb url_plain s = true -> validEscapes s = true.
Proof.
  induction s as [|c s IH]; [done|]. cbn [forallb validEscapes]. intros H.
  apply andb_true_iff in H as [Hc Hs].
  destruct (url_plain_facts c Hc) as (_ & _ & -> & _). by apply IH.
Qed.

Lemma url_Parse_ok_plain url : forallb url_plain (txt url) = true -> url_Parse_ok url = true.
Proof.
  intros H. unfold url_Parse_ok.
  assert (Hno : forall b, (b = 0x23 \/ b = 0x3F)%N ->
                forallb (fun c => negb (code c =? b)%N) (txt url) = true).
  { intros b Hb. clear -H Hb. induction (txt url) as [|c s IH]; [done|].
    cbn [forallb] in *. apply andb_true_iff in H as [Hc Hs].
    destruct (url_plain_facts c Hc) as (_ & H1 & _ & H2).
    rewrite (IH Hs), andb_true_r. destruct Hb as [-> | ->]; [by rewrite H1|by rewrite H2]. }
  rewrite (cut_absent 0x23) by (apply Hno; auto).
  rewrite (cut_absent 0x3F) by (apply Hno; auto).
  rewrite (validEscapes_plain _ H), !andb_true_r.
  apply negb_true_iff. clear -H. induction (txt url) as [|c s IH]; [done|].
  cbn [forallb existsb] in *. apply andb_true_iff in H as [Hc Hs].
  destruct (url_plain_facts c Hc) as (-> & _). by apply IH.
Qed.

(** X14. What goes out: for a tailnet name (and, for the whois query,
    a client address) of plain bytes the request is built, it is a GET
    of the URL with the name spliced in as it stands, and it carries
    exactly two headers: the API key as a bearer token in
    Authorization, and the User-Agent. The key appears nowhere else. *)
Theorem requests_are_built :
  (forall t : Cached.TailscaleAuth,
      forallb url_plain (txt (Cached.Tailnet t)) = true ->
      Cached.devices_request t
      = Some (http.mkRequest "GET"
                ("https://api.tailscale.com/api/v2/tailnet/" +:+ Cached.Tailnet t +:+ "/devices")
                (<["User-Agent" := ["Caddy-Tailscale-Auth/1.0"]]>
                   (<["Authorization" := ["Bearer " +:+ Cached.APIKey t]]> ∅))))
  /\ (forall (t : Direct.TailscaleAuth) (clientIP : string),
        forallb url_plain (txt (Direct.Tailnet t)) = true ->
        forallb url_plain (txt clientIP) = true ->
        Direct.whois_request t clientIP
        = Some (http.mkRequest "GET"
                  ("https://api.tailscale.com/api/v2/tailnet/" +:+ Direct.Tailnet t
                   +:+ "/whois?addr=" +:+ clientIP)
                  (<["User-Agent" := ["Caddy-Tailscale-Auth/1.0"]]>
                     (<["Authorization" := ["Bearer " +:+ Direct.APIKey t]]> ∅)))).
Proof.
  split.
  - intros t Ht. unfold Cached.devices_request, http.NewRequest, Cached.devices_url.
    rewrite url_Parse_ok_plain; [reflexivity|].
    rewrite !txt_app. repeat apply forallb_app_intro; done.
  - intros t clientIP Ht Hip. unfold Direct.whois_request, http.NewRequest, Direct.whois_url.
    assert (Hok : url_Parse_ok ("https://api.tailscale.com/api/v2/tailnet/" +:+ Direct.Tailnet t
                                +:+ "/whois?addr=" +:+ clientIP) = true).
    { unfold url_Parse_ok. rewrite !txt_app.
      set (pre := txt "https://api.tailscale.com/api/v2/tailnet/").
      assert (Hpre : forallb url_plain pre = true) by reflexivity.
      assert (Hpath : forallb url_plain (pre ++ txt (Direct.Tailnet t) ++ txt "/whois") = true)
        by (repeat apply forallb_app_intro; done).
      assert (Hq : forallb url_plain (txt "addr=" ++ txt clientIP) = true)
        by (apply forallb_app_intro; done).
      assert (Hno23 : forall s, forallb url_plain s = true ->
                      forallb (fun c => negb (code c =? 0x23)%N) s = true).
      { clear. induction s as [|c s IH]; [done|]. cbn [forallb]. intros H.
        apply andb_true_iff in H as [Hc Hs].
        destruct (url_plain_facts c Hc) as (_ & -> & _). by apply IH. }
      assert (Hno3F : forall s, forallb url_plain s = true ->
                      forallb (fun c => negb (code c =? 0x3F)%N) s = true).
      { clear. induction s as [|c s IH]; [done|]. cbn [forallb]. intros H.
        apply andb_true_iff in H as [Hc Hs].
        destruct (url_plain_facts c Hc) as (_ & _ & _ & ->). by apply IH. }
      assert (Hctl : forall s, forallb url_plain s = true ->
                     existsb (fun c => isCTL (code c)) s = false).
      { clear. induction s as [|c s IH]; [done|]. cbn [forallb existsb]. intros H.
        apply andb_true_iff in H as [Hc Hs].
        destruct (url_plain_facts c Hc) as (-> & _). by apply IH. }
      replace (pre ++ txt (Direct.Tailnet t) ++ txt "/whois?addr=" ++ txt clientIP)%list
        with ((pre ++ txt (Direct.Tailnet t) ++ txt "/whois")
              ++ ch 0x3F :: (txt "addr=" ++ txt clientIP))%list
        by (rewrite <- !app_assoc; reflexivity).
      rewrite (cut_absent 0x23).
      2:{ apply forallb_app_intro; [by apply Hno23|].
          cbn [forallb]. rewrite (Hno23 _ Hq). reflexivity. }
      rewrite (cut_found 0x3F) by (lia || by apply Hno3F).
      rewrite (validEscapes_plain _ Hpath), !andb_true_r.
      apply negb_true_iff. rewrite existsb_app, (Hctl _ Hpath). cbn [existsb orb].
      rewrite (Hctl _ Hq). reflexivity. }
    rewrite Hok. reflexivity.
Qed.

Lemma requests_are_built_witness :
  http.URL <$> Cached.devices_request (Examples.config "c.json" Examples.empty_snapshot)
  = Some "https://api.tailscale.com/api/v2/tailnet/example.com/devices"
  /\ http.URL <$> Direct.whois_request Examples.direct_config "100.64.0.5"
     = Some "https://api.tailscale.com/api/v2/tailnet/example.com/whois?addr=100.64.0.5".
Proof.
  split.
  - by rewrite (proj1 requests_are_built (Examples.config "c.json" Examples.empty_snapshot)
                  eq_refl).
  - by rewrite (proj2 requests_are_built Examples.direct_config "100.64.0.5" eq_refl eq_refl).
Defined.

End OutgoingRequests.
Section RefreshEdges.
Import golib json jsondec Cached.
Local Open Scope string_scope.

Lemma no_hash_cut (pre mid post : text) :
  forallb (fun c => negb (code c =? 0x23)%N) (pre ++ mid ++ post) = true ->
  cut 0x23 (pre ++ mid ++ post) = (pre ++ mid ++ post, None)%list.
Proof. apply cut_absent. Qed.

Lemma devices_request_control_byte t :
  existsb (fun c => isCTL (code c)) (txt (Tailnet t)) = true ->
  forallb (fun c => negb (code c =? 0x23)%N) (txt (Tailnet t)) = true ->
  devices_request t = None.
Proof.
  intros Hctl Hno. unfold devices_request, http.NewRequest, devices_url, url_Parse_ok.
  rewrite !txt_app. rewrite no_hash_cut by (repeat apply forallb_app_intro; done).
  destruct (cut 0x3F _) as [path q].
  rewrite !existsb_app, Hctl, orb_true_r. reflexivity.
Qed.

(** X15. Neither Validate nor Provision looks at what the tailnet name
    is made of, and the name goes into the URL as it stands. A name
    with a control byte in it passes both, and then no lookup can ever
    succeed: the request cannot be built, so every miss ends in
    "failed to create request" with nothing sent and the cache as it
    was. *)
Theorem control_byte_in_tailnet (s : State) (clientIP : string) :
  existsb (fun c => isCTL (code c)) (txt (Tailnet (auth s))) = true ->
  forallb (fun c => negb (code c =? 0x23)%N) (txt (Tailnet (auth s))) = true ->
  (APIKey (auth s) <> "" -> Validate (auth s) = None)
  /\ devices_request (auth s) = None
  /\ (sync.writer (mutex_of s) = false ->
      IPToDevice (cache_of s) !! clientIP = None ->
      exists s',
        getDeviceByIP clientIP s = Ret (None, Some (ErrRefresh ErrCreateRequest)) s'
        /\ sent (world s') = sent (world s)
        /\ cache_of s' = cache_of s).
Proof.
  intros Hctl Hno.
  pose proof (devices_request_control_byte _ Hctl Hno) as Hreq.
  split; [|split; [exact Hreq|]].
  - intros Hk. unfold Validate.
    destruct (Tailnet (auth s)) as [|c tn]; [discriminate Hctl|]. cbn.
    by rewrite (proj2 (String.eqb_neq _ _) Hk).
  - intros Hw Hmiss.
    assert (Hf : fetchDevices s = Ret (inr ErrCreateRequest) s).
    { unfold fetchDevices, bind, get_auth. by rewrite Hreq. }
    destruct (refresh_and_recheck_failed clientIP s _ _ Hf) as (s' & Hr & Ha & _).
    exists s'. rewrite (getDeviceByIP_miss clientIP s Hw (or_introl Hmiss)).
    split; [exact Hr|].
    pose proof (refresh_and_recheck_sent clientIP s) as Hs.
    rewrite Hr in Hs. cbn [final] in Hs. unfold refresh_requests in Hs.
    rewrite Hreq, app_nil_r in Hs. split; [exact Hs|].
    unfold cache_of. by rewrite Ha.
Qed.

Lemma control_byte_in_tailnet_witness :
  let s := mkState
             (mkTailscaleAuth "tskey-api" (String (ch 0x0A) "example.com") "X-Tailscale-"
                "tailscale_devices.json" Examples.empty_snapshot sync.unlocked)
             (mkWorld (fun _ _ => Examples.respond 200 Examples.directory_body) []
                Examples.empty_fs []) in
  Validate (auth s) = None
  /\ exists s', getDeviceByIP "100.64.0.5" s
                = Ret (None, Some (ErrRefresh ErrCreateRequest)) s'
                /\ sent (world s') = [].
Proof.
  intros s.
  destruct (control_byte_in_tailnet s "100.64.0.5" eq_refl eq_refl) as (Hv & _ & Hg).
  split; [apply Hv; discriminate|].
  destruct (Hg eq_refl eq_refl) as (s' & Hr & Hs & _).
  exists s'. split; [exact Hr|exact Hs].
Defined.

Lemma Unmarshal_no_devices body v :
  parse body = Some v -> no_devices v = true ->
  Unmarshal_DevicesResponse body = (mkDevicesResponse [], None).
Proof.
  intros Hp Hn. unfold Unmarshal_DevicesResponse. rewrite Hp.
  destruct v as [| | | | |kvs]; try discriminate Hn; [reflexivity|].
  cbn [store_DevicesResponse ok_DevicesResponse Devices no_devices] in *.
  assert (H : field (store_slice store_Device zeroDevice) "devices" kvs [] = []
              /\ field_ok (ok_slice ok_Device) "devices" kvs = true).
  { clear Hp. induction kvs as [|[k x] kvs IH]; [done|].
    cbn [forallb fst snd] in Hn. apply andb_true_iff in Hn as [Hk Hn].
    rewrite field_cons, field_ok_cons.
    destruct (IH Hn) as [IH1 IH2]. rewrite IH2.
    destruct (is_field "devices" k); cbn [negb orb] in Hk; [|done].
    by destruct x as [| | | |[|x xs]|]; try discriminate Hk. }
  destruct H as [-> ->]. reflexivity.
Qed.

(** X16. A 200 answer that names no device empties the cache: when the
    body is null, or an object without devices (the empty object
    included), the fetch counts as a success and the refresh replaces
    the whole mapping by the empty one, with the Date of the answer as
    the new freshness marker. Every address known before is a miss
    afterwards. *)
Theorem answer_without_devices_empties_cache (s : State) (req : http.Request)
    (resp : http.Response) (body : text) (v : value) :
  idle s ->
  devices_request (auth s) = Some req ->
  net (world s) (length (sent (world s))) req = http.DoResponse resp ->
  http.StatusCode resp = http.StatusOK ->
  http.Body resp = Some body ->
  parse body = Some v ->
  no_devices v = true ->
  cache_of (final (refreshDeviceCache s))
  = mkDeviceCache ∅ (Header_Get (http.RespHeader resp) "Date").
Proof.
  intros Hi Hreq Hnet Hst Hbody Hp Hn.
  pose proof (Unmarshal_no_devices body v Hp Hn) as Hu.
  assert (Hf : fetchDevices s
               = Ret (inl (resp, mkDevicesResponse []))
                   (mkState (auth s)
                      (mkWorld (net (world s)) (sent (world s) ++ [req]) (fs (world s))
                         (log (world s))))).
  { apply fetchDevices_ok_iff. exists req, body. auto 10. }
  destruct (refresh_fetch_ok s _ _ _ Hf Hi) as (s2 & Hc & _ & _ & Hcase).
  destruct (cache_dir_ok s); destruct Hcase as [-> _]; exact Hc.
Qed.

Lemma answer_without_devices_empties_cache_witness :
  let s := Examples.state "tailscale_devices.json" Examples.snapshot1
             (Examples.respond 200 (txt "{}")) Examples.empty_fs in
  IPToDevice (cache_of s) !! "100.64.0.5" = Some (Some Examples.d1)
  /\ cache_of (final (refreshDeviceCache s)) = mkDeviceCache ∅ Examples.date.
Proof.
  intros s. split; [reflexivity|].
  replace Examples.date
    with (Header_Get (Header_Set ∅ "Date" Examples.date) "Date") at 1
    by (vm_compute; reflexivity).
  apply (answer_without_devices_empties_cache s
           (http.mkRequest "GET" "https://api.tailscale.com/api/v2/tailnet/example.com/devices"
              (<["User-Agent" := ["Caddy-Tailscale-Auth/1.0"]]>
                 (<["Authorization" := ["Bearer tskey-api"]]> ∅)))
           (http.mkResponse 200 (Header_Set ∅ "Date" Examples.date) (Some (txt "{}")))
           (txt "{}") (JObject []) eq_refl);
    [vm_compute; reflexivity | reflexivity | reflexivity | reflexivity
    | vm_compute; reflexivity | reflexivity].
Defined.

End RefreshEdges.
(** ** The dispenser, token by token *)

Section DispenserFacts.
Import golib caddyfile.
Local Open Scope string_scope.
Local Open Scope Z_scope.
Local Open Scope list_scope.

Lemma CountByte_nonneg s b : 0 <= CountByte s b.
Proof. induction s as [|c s IH]; simpl; [lia|]. destruct (code c =? b)%N; lia. Qed.

Lemma word_same_line l a b : isNextOnNewLine (word l a) (word l b) = false.
Proof.
  unfold isNextOnNewLine, word, NumLineBreaks. simpl.
  pose proof (CountByte_nonneg (txt a) 0x0A). apply Z.ltb_ge. lia.
Qed.

Lemma word_next_line l l' a b :
  l + CountByte (txt a) 0x0A < l' -> isNextOnNewLine (word l a) (word l' b) = true.
Proof.
  intros H. unfold isNextOnNewLine, word, NumLineBreaks. simpl. apply Z.ltb_lt. lia.
Qed.

Lemma move_same d : move d (cursor d) = d.
Proof. by destruct d. Qed.

Lemma move_back d : move (move d (cursor d + 1)) (cursor (move d (cursor d + 1)) - 1) = d.
Proof. destruct d as [ts c n]. unfold move. simpl. f_equal. lia. Qed.

Lemma at_pos_Val d seen cur rest : at_pos d (seen ++ [cur]) rest -> Val d = Text cur.
Proof.
  intros [Ht Hc]. unfold Val, len. rewrite Ht, Hc.
  rewrite !length_app. simpl length.
  destruct (Z.ltb_spec (Z.of_nat (length seen + 1) - 1) 0); [lia|].
  destruct (Z.leb_spec (Z.of_nat (length seen + 1 + length rest))
              (Z.of_nat (length seen + 1) - 1)); [lia|].
  simpl orb. cbv iota.
  replace (Z.to_nat (Z.of_nat (length seen + 1) - 1)) with (length seen) by lia.
  rewrite <- app_assoc. simpl. by rewrite list_lookup_middle.
Qed.

Lemma at_pos_move d seen nxt rest :
  at_pos d seen (nxt :: rest) -> at_pos (move d (cursor d + 1)) (seen ++ [nxt]) rest.
Proof.
  intros [Ht Hc]. split; simpl.
  - by rewrite <- app_assoc.
  - rewrite Hc, length_app. simpl. lia.
Qed.

Lemma at_pos_eq d seen rest :
  at_pos d seen rest -> d = mkDispenser (seen ++ rest) (Z.of_nat (length seen) - 1) (nesting d).
Proof. destruct d as [ts c n]. intros [Ht Hc]. simpl in *. by subst. Qed.

Lemma at_pos_nest d n seen rest : at_pos d seen rest -> at_pos (nest d n) seen rest.
Proof. intros [Ht Hc]. by split. Qed.

Lemma at_pos_Next d seen nxt rest :
  at_pos d seen (nxt :: rest) -> Next d = (true, move d (cursor d + 1)).
Proof.
  intros [Ht Hc]. unfold Next, len. rewrite Ht, Hc, length_app. simpl length.
  destruct (Z.ltb_spec (Z.of_nat (length seen) - 1)
              (Z.of_nat (length seen + S (length rest)) - 1)); [reflexivity|lia].
Qed.

Lemma at_pos_Next_end d seen : at_pos d seen [] -> Next d = (false, d).
Proof.
  intros [Ht Hc]. unfold Next, len. rewrite Ht, Hc, app_nil_r.
  destruct (Z.ltb_spec (Z.of_nat (length seen) - 1) (Z.of_nat (length seen) - 1));
    [lia|reflexivity].
Qed.

Lemma at_pos_same_line d seen cur nxt rest :
  at_pos d (seen ++ [cur]) (nxt :: rest) ->
  nextOnSameLine d
  = if isNextOnNewLine cur nxt then (false, d) else (true, move d (cursor d + 1)).
Proof.
  intros [Ht Hc]. unfold nextOnSameLine, len. rewrite Ht, Hc.
  rewrite !length_app. simpl length.
  destruct (Z.ltb_spec (Z.of_nat (length seen + 1) - 1) 0); [lia|].
  destruct (Z.leb_spec (Z.of_nat (length seen + 1 + S (length rest)) - 1)
              (Z.of_nat (length seen + 1) - 1)); [lia|].
  replace (Z.to_nat (Z.of_nat (length seen + 1) - 1)) with (length seen) by lia.
  replace (Z.to_nat (Z.of_nat (length seen + 1) - 1 + 1)) with (S (length seen)) by lia.
  rewrite <- app_assoc. simpl.
  rewrite list_lookup_middle by done.
  replace (seen ++ cur :: nxt :: rest) with ((seen ++ [cur]) ++ nxt :: rest)
    by (by rewrite <- app_assoc).
  rewrite list_lookup_middle by (rewrite length_app; simpl; lia).
  by destruct (isNextOnNewLine cur nxt).
Qed.

Lemma at_pos_same_line_end d seen cur :
  at_pos d (seen ++ [cur]) [] -> nextOnSameLine d = (false, d).
Proof.
  intros [Ht Hc]. unfold nextOnSameLine, len. rewrite Ht, Hc, app_nil_r.
  rewrite !length_app. simpl length.
  destruct (Z.ltb_spec (Z.of_nat (length seen + 1) - 1) 0); [lia|].
  destruct (Z.leb_spec (Z.of_nat (length seen + 1) - 1)
              (Z.of_nat (length seen + 1) - 1)); [reflexivity|lia].
Qed.

(** NextArg takes the next token of the line as an argument. *)
Lemma at_pos_NextArg d seen cur nxt rest :
  at_pos d (seen ++ [cur]) (nxt :: rest) ->
  isNextOnNewLine cur nxt = false -> Text nxt <> "{" ->
  NextArg d = (true, move d (cursor d + 1)).
Proof.
  intros Hp Hl Hb. unfold NextArg. rewrite (at_pos_same_line _ _ _ _ _ Hp), Hl. simpl.
  rewrite (at_pos_Val _ _ _ _ (at_pos_move _ _ _ _ Hp)).
  by rewrite (proj2 (String.eqb_neq _ _) Hb).
Qed.

(** NextArg finds no argument: the line or the tokens end, or a block
    opens. The cursor is where it was. *)
Lemma at_pos_NextArg_none d seen cur rest :
  at_pos d (seen ++ [cur]) rest ->
  match rest with
  | [] => True
  | nxt :: _ => isNextOnNewLine cur nxt = true \/ Text nxt = "{"
  end ->
  NextArg d = (false, d).
Proof.
  intros Hp Hr. unfold NextArg. destruct rest as [|nxt rest].
  - by rewrite (at_pos_same_line_end _ _ _ Hp).
  - rewrite (at_pos_same_line _ _ _ _ _ Hp).
    destruct (isNextOnNewLine cur nxt) eqn:Hl; [reflexivity|].
    destruct Hr as [Hr|Hr]; [done|]. simpl.
    rewrite (at_pos_Val _ _ _ _ (at_pos_move _ _ _ _ Hp)), Hr. simpl.
    by rewrite move_back.
Qed.

(** NextBlock in front of a block that opens on the line and is not
    empty: the brace is consumed, the first token of the block loaded. *)
Lemma at_pos_NextBlock_open d seen cur brace first rest :
  at_pos d (seen ++ [cur]) (brace :: first :: rest) ->
  nesting d = 0 ->
  isNextOnNewLine cur brace = false -> Text brace = "{" -> Text first <> "}" ->
  exists d', NextBlock d 0 = (true, d')
             /\ at_pos d' (seen ++ [cur; brace; first]) rest /\ nesting d' = 1.
Proof.
  intros Hp Hn Hl Hb Hf. unfold NextBlock. rewrite Hn. simpl.
  rewrite (at_pos_same_line _ _ _ _ _ Hp), Hl. simpl.
  pose proof (at_pos_move _ _ _ _ Hp) as Hp1.
  rewrite (at_pos_Val _ _ _ _ Hp1), Hb. simpl.
  rewrite (at_pos_Next _ _ _ _ Hp1).
  pose proof (at_pos_move _ _ _ _ Hp1) as Hp2.
  rewrite (at_pos_Val _ _ _ _ Hp2), (proj2 (String.eqb_neq _ _) Hf).
  eexists. split; [reflexivity|]. split.
  - apply at_pos_nest. by rewrite <- !app_assoc in Hp2.
  - simpl. lia.
Qed.

(** The same in front of an empty block. *)
Lemma at_pos_NextBlock_open_empty d seen cur brace first rest :
  at_pos d (seen ++ [cur]) (brace :: first :: rest) ->
  nesting d = 0 ->
  isNextOnNewLine cur brace = false -> Text brace = "{" -> Text first = "}" ->
  exists d', NextBlock d 0 = (false, d')
             /\ at_pos d' (seen ++ [cur; brace; first]) rest /\ nesting d' = 0.
Proof.
  intros Hp Hn Hl Hb Hf. unfold NextBlock. rewrite Hn. simpl.
  rewrite (at_pos_same_line _ _ _ _ _ Hp), Hl. simpl.
  pose proof (at_pos_move _ _ _ _ Hp) as Hp1.
  rewrite (at_pos_Val _ _ _ _ Hp1), Hb. simpl.
  rewrite (at_pos_Next _ _ _ _ Hp1).
  pose proof (at_pos_move _ _ _ _ Hp1) as Hp2.
  rewrite (at_pos_Val _ _ _ _ Hp2), Hf. simpl.
  eexists. split; [reflexivity|]. split.
  - by rewrite <- !app_assoc in Hp2.
  - simpl. lia.
Qed.

(** NextBlock inside the block, in front of a token that is no brace. *)
Lemma at_pos_NextBlock_inside d seen nxt rest :
  at_pos d seen (nxt :: rest) ->
  nesting d = 1 ->
  Text nxt <> "{" -> Text nxt <> "}" ->
  NextBlock d 0 = (true, move d (cursor d + 1)).
Proof.
  intros Hp Hn Ho Hc. unfold NextBlock. rewrite Hn. simpl.
  rewrite (at_pos_Next _ _ _ _ Hp). simpl.
  pose proof (at_pos_move _ _ _ _ Hp) as Hp1.
  rewrite (at_pos_Val _ _ _ _ Hp1), (proj2 (String.eqb_neq _ _) Hc).
  unfold block_opens. rewrite (at_pos_Val _ _ _ _ Hp1), (proj2 (String.eqb_neq _ _) Ho).
  simpl. by rewrite Hn.
Qed.

(** NextBlock in front of the brace that closes the block and ends
    the tokens. *)
Lemma at_pos_NextBlock_close d seen brace :
  at_pos d seen [brace] ->
  nesting d = 1 -> Text brace = "}" ->
  exists d', NextBlock d 0 = (false, d') /\ at_pos d' (seen ++ [brace]) [] /\ nesting d' = 0.
Proof.
  intros Hp Hn Hb. unfold NextBlock. rewrite Hn. simpl.
  rewrite (at_pos_Next _ _ _ _ Hp). simpl.
  pose proof (at_pos_move _ _ _ _ Hp) as Hp1.
  rewrite (at_pos_Val _ _ _ _ Hp1), Hb. simpl.
  rewrite (at_pos_same_line_end _ _ _ Hp1). simpl. rewrite Hn. simpl.
  eexists. split; [reflexivity|]. split; [by apply at_pos_nest|reflexivity].
Qed.

Lemma setting_lines_length line kvs :
  length (setting_lines line kvs) = (2 * length kvs)%nat.
Proof. revert line. induction kvs as [|kv kvs IH]; intros line; simpl; [done|]. rewrite IH. lia. Qed.

(** One round of each loop. *)
Lemma for_NextBlock_round {T} (body : Dispenser -> T -> Dispenser * T * option error)
    fuel d t ok d1 :
  NextBlock d 0 = (ok, d1) ->
  for_NextBlock (S fuel) body d t
  = if negb ok then Some (d1, t, None)
    else match body d1 t with
         | (d2, t2, Some e) => Some (d2, t2, Some e)
         | (d2, t2, None) => for_NextBlock fuel body d2 t2
         end.
Proof. intros H. cbn [for_NextBlock]. rewrite H. reflexivity. Qed.

Lemma for_Next_round {T} (body : Dispenser -> T -> option (Dispenser * T * option error))
    fuel d t ok d1 :
  Next d = (ok, d1) ->
  for_Next (S fuel) body d t
  = if negb ok then Some (d1, t, None)
    else match body d1 t with
         | None => None
         | Some (d2, t2, Some e) => Some (d2, t2, Some e)
         | Some (d2, t2, None) => for_Next fuel body d2 t2
         end.
Proof. intros H. cbn [for_Next]. rewrite H. reflexivity. Qed.

(** More rounds than a loop needs change nothing. *)
Lemma for_NextBlock_more {T} (body : Dispenser -> T -> Dispenser * T * option error)
    fuel fuel' d t r :
  for_NextBlock fuel body d t = Some r -> (fuel <= fuel')%nat ->
  for_NextBlock fuel' body d t = Some r.
Proof.
  revert fuel' d t. induction fuel as [|fuel IH]; intros fuel' d t; [done|].
  destruct fuel' as [|fuel']; [lia|]. simpl.
  destruct (NextBlock d 0) as [ok d1]. destruct (negb ok); [done|].
  destruct (body d1 t) as [[d2 t2] [e|]]; [done|].
  intros H Hle. apply IH; [exact H|lia].
Qed.

Lemma for_Next_more {T} (body : Dispenser -> T -> option (Dispenser * T * option error))
    fuel fuel' d t r :
  for_Next fuel body d t = Some r -> (fuel <= fuel')%nat ->
  for_Next fuel' body d t = Some r.
Proof.
  revert fuel' d t. induction fuel as [|fuel IH]; intros fuel' d t; [done|].
  destruct fuel' as [|fuel']; [lia|]. simpl.
  destruct (Next d) as [ok d1]. destruct (negb ok); [done|].
  destruct (body d1 t) as [[[d2 t2] [e|]]|]; [done| |done].
  intros H Hle. apply IH; [exact H|lia].
Qed.

(** The inner loop in front of the brace that closes the block. *)
Lemma closing_round {T} (body : Dispenser -> T -> Dispenser * T * option error)
    d seen l t :
  at_pos d seen [word l "}"] -> nesting d = 1 ->
  for_NextBlock 1 body d t
  = Some (mkDispenser (seen ++ [word l "}"]) (Z.of_nat (length seen)) 0, t, None).
Proof.
  intros Hp Hn.
  destruct (at_pos_NextBlock_close d seen _ Hp Hn eq_refl) as (d' & Hr & Hp' & Hn').
  rewrite (for_NextBlock_round body _ d t _ _ Hr). cbn [negb].
  rewrite (at_pos_eq _ _ _ Hp'), Hn', app_nil_r, length_app. simpl length.
  do 4 f_equal. lia.
Qed.

(** The rounds of the inner loop in front of a token that makes
    the switch return an error. *)
Lemma failing_round {T} (body : Dispenser -> T -> Dispenser * T * option error)
    d seen bad rest t e :
  at_pos d seen (bad :: rest) -> nesting d = 1 ->
  Text bad <> "{" -> Text bad <> "}" ->
  (forall d1, at_pos d1 (seen ++ [bad]) rest -> body d1 t = (d1, t, Some e)) ->
  for_NextBlock 1 body d t
  = Some (mkDispenser (seen ++ bad :: rest) (Z.of_nat (length seen)) 1, t, Some e).
Proof.
  intros Hp Hn Ho Hc Hbody.
  pose proof (at_pos_move _ _ _ _ Hp) as Hp1.
  rewrite (for_NextBlock_round body _ d t _ _ (at_pos_NextBlock_inside d seen _ _ Hp Hn Ho Hc)).
  cbn [negb]. rewrite (Hbody _ Hp1).
  rewrite (at_pos_eq _ _ _ Hp1), <- app_assoc, length_app. cbn [nesting move app length].
  rewrite Hn. do 4 f_equal. lia.
Qed.

End DispenserFacts.
(** ** The loops over a block *)

Section BlockRuns.
Import golib caddyfile.
Local Open Scope string_scope.
Local Open Scope Z_scope.
Local Open Scope list_scope.

Context {T : Type}.
Variable body : Dispenser -> T -> Dispenser * T * option error.
Variable assign : T -> string * string -> T.
Variables known ignored : string -> bool.

Hypothesis body_known : forall d t d1,
  known (Val d) = true -> NextArg d = (true, d1) ->
  body d t = (d1, assign t (Val d, Val d1), None).
Hypothesis body_ignored : forall d t, ignored (Val d) = true -> body d t = (d, t, None).
Hypothesis assign_ignored : forall t k v, ignored k = true -> assign t (k, v) = t.
Hypothesis known_word : forall k, known k = true -> k <> "{" /\ k <> "}".
Hypothesis ignored_word : forall k, ignored k = true -> k <> "{" /\ k <> "}".

(** The rounds of the inner loop over lines it can read, up to what
    follows them. *)
Lemma settings_run kvs : forall line d seen rest t fuel r,
  Forall (line_ok known ignored) kvs ->
  at_pos d seen (setting_lines line kvs ++ rest) -> nesting d = 1 ->
  (forall d', at_pos d' (seen ++ setting_lines line kvs) rest -> nesting d' = 1 ->
     for_NextBlock fuel body d' (fold_left assign kvs t) = Some r) ->
  for_NextBlock (2 * length kvs + fuel) body d t = Some r.
Proof.
  induction kvs as [|[k v] kvs IH]; intros line d seen rest t fuel r Hok Hp Hn Hrest.
  { simpl in *. apply Hrest; [by rewrite app_nil_r|done]. }
  apply Forall_cons in Hok as [Hkv Hok].
  replace (2 * length ((k, v) :: kvs) + fuel)%nat
    with (S (S (2 * length kvs + fuel))) by (simpl; lia).
  cbn [setting_lines fst snd app] in Hp.
  assert (Hrec : forall d2, at_pos d2 (seen ++ [word line k; word line v])
                              (setting_lines (line + 1) kvs ++ rest) ->
                            nesting d2 = 1 ->
                            for_NextBlock (2 * length kvs + fuel) body d2 (assign t (k, v))
                            = Some r).
  { intros d2 Hp2 Hn2. apply (IH (line + 1) d2 (seen ++ [word line k; word line v]) rest); [done|done|done|].
    intros d' Hp' Hn'. apply Hrest; [|done].
    cbn [setting_lines fst snd]. by rewrite <- app_assoc in Hp'. }
  pose proof (at_pos_move _ _ _ _ Hp) as Hp1.
  set (d1 := move d (cursor d + 1)) in *.
  assert (Hn1 : nesting d1 = 1) by exact Hn.
  assert (Hv1 : Val d1 = k) by apply (at_pos_Val _ _ _ _ Hp1).
  pose proof (at_pos_move _ _ _ _ Hp1) as Hp2.
  set (d2 := move d1 (cursor d1 + 1)) in *.
  assert (Hv2 : Val d2 = v) by apply (at_pos_Val _ _ _ _ Hp2).
  rewrite <- app_assoc in Hp2. cbn [app] in Hp2.
  destruct Hkv as [[Hk Hv]|[Hk Hv]]; cbn [fst snd] in *.
  - destruct (known_word k Hk) as [Ho Hc].
    rewrite (for_NextBlock_round body _ d t true d1)
      by (by apply (at_pos_NextBlock_inside d seen _ _ Hp Hn)).
    cbn [negb].
    rewrite (body_known d1 t d2).
    + rewrite Hv1, Hv2. apply (for_NextBlock_more _ (2 * length kvs + fuel)); [|lia].
      by apply Hrec.
    + by rewrite Hv1.
    + apply (at_pos_NextArg d1 seen _ _ _ Hp1); [apply word_same_line|done].
  - destruct (ignored_word k Hk) as [Ho Hc]. destruct (ignored_word v Hv) as [Ho' Hc'].
    rewrite (for_NextBlock_round body _ d t true d1)
      by (by apply (at_pos_NextBlock_inside d seen _ _ Hp Hn)).
    cbn [negb].
    rewrite (body_ignored d1 t) by (by rewrite Hv1).
    rewrite (for_NextBlock_round body _ d1 t true d2)
      by (by apply (at_pos_NextBlock_inside d1 _ _ _ Hp1 Hn1)).
    cbn [negb].
    rewrite (body_ignored d2 t) by (by rewrite Hv2).
    rewrite <- (assign_ignored t k v Hk). by apply Hrec.
Qed.

(** The first round of the inner loop, which consumes the opening
    brace, leaves the dispenser as a round from inside the block
    would. *)
Lemma open_as_inside name brace first rest t fuel :
  isNextOnNewLine name brace = false -> Text brace = "{" -> Text first <> "{" ->
  (Text first = "}" -> rest = []) ->
  let toks := name :: brace :: first :: rest in
  for_NextBlock fuel body (mkDispenser toks 0 0) t
  = for_NextBlock fuel body (inside_block toks) t.
Proof.
  intros Hl Hb Ho Hc toks. destruct fuel as [|fuel]; [reflexivity|].
  assert (Hp : at_pos (mkDispenser toks 0 0) ([] ++ [name]) (brace :: first :: rest))
    by (by split).
  assert (Hq : at_pos (inside_block toks) [name; brace] (first :: rest)) by (by split).
  destruct (String.eqb (Text first) "}") eqn:Hf.
  - apply String.eqb_eq in Hf. specialize (Hc Hf). subst rest.
    destruct (at_pos_NextBlock_open_empty _ _ _ _ _ _ Hp eq_refl Hl Hb Hf)
      as (d1 & Hr1 & Hp1 & Hn1).
    destruct (at_pos_NextBlock_close _ _ _ Hq eq_refl Hf) as (d2 & Hr2 & Hp2 & Hn2).
    rewrite (for_NextBlock_round body _ _ t _ _ Hr1),
      (for_NextBlock_round body _ _ t _ _ Hr2).
    cbn [negb]. do 3 f_equal.
    destruct d1 as [ts1 c1 n1], d2 as [ts2 c2 n2], Hp1 as [Ht1 Hc1], Hp2 as [Ht2 Hc2].
    simpl in *. subst. first [reflexivity | f_equal; lia].
  - apply String.eqb_neq in Hf.
    destruct (at_pos_NextBlock_open _ _ _ _ _ _ Hp eq_refl Hl Hb Hf) as (d1 & Hr1 & Hp1 & Hn1).
    rewrite (for_NextBlock_round body _ _ t _ _ Hr1),
      (for_NextBlock_round body _ _ t _ _
         (at_pos_NextBlock_inside _ _ _ _ Hq eq_refl Ho Hf)).
    replace d1 with (move (inside_block toks) (cursor (inside_block toks) + 1)); [reflexivity|].
    destruct d1 as [ts1 c1 n1], Hp1 as [Ht1 Hc1]. simpl in *. subst. reflexivity.
Qed.

(** The two loops over a directive with a block, from the rounds of
    the inner loop inside the block. *)
Lemma directive_loops_block name brace first rest t fuel dE tE oe :
  isNextOnNewLine name brace = false -> Text brace = "{" -> Text first <> "{" ->
  (Text first = "}" -> rest = []) ->
  let toks := name :: brace :: first :: rest in
  for_NextBlock fuel body (inside_block toks) t = Some (dE, tE, oe) ->
  (fuel <= length toks)%nat ->
  (oe = None -> at_pos dE toks []) ->
  directive_loops body (NewDispenser toks) t = Some (dE, tE, oe).
Proof.
  intros Hl Hb Ho Hc toks Hrun Hfuel Hend. unfold directive_loops.
  apply (for_Next_more _ 2).
  2:{ unfold rounds, NewDispenser, len. simpl. lia. }
  assert (Hp0 : at_pos (NewDispenser toks) [] (name :: brace :: first :: rest)) by (by split).
  rewrite (for_Next_round _ _ _ t _ _ (at_pos_Next _ _ _ _ Hp0)). cbn [negb].
  change (move (NewDispenser toks) (cursor (NewDispenser toks) + 1))
    with (mkDispenser toks 0 0).
  pose proof (open_as_inside name brace first rest t (rounds (mkDispenser toks 0 0))
                Hl Hb Ho Hc) as Hopen.
  cbv zeta in Hopen. fold toks in Hopen. rewrite Hopen.
  rewrite (for_NextBlock_more body fuel _ _ _ _ Hrun).
  2:{ unfold rounds, len. cbn [tokens cursor]. lia. }
  destruct oe as [e|]; [reflexivity|].
  by rewrite (for_Next_round _ _ _ tE _ _ (at_pos_Next_end _ _ (Hend eq_refl))).
Qed.

(** A directive written as a block of lines the handler can read:
    the two loops come to what the inner loop does with the tokens
    after the lines. *)
Lemma block_run_then kvs rest t fuel dE tE oe :
  Forall (line_ok known ignored) kvs ->
  match rest with
  | [] => False
  | first :: rest' => Text first <> "{" /\ (Text first = "}" -> rest' = [])
  end ->
  let toks := directive_block kvs rest in
  (forall d', at_pos d' ([word 1 "tailscale_auth"; word 1 "{"] ++ setting_lines 2 kvs) rest ->
              nesting d' = 1 ->
              for_NextBlock fuel body d' (fold_left assign kvs t) = Some (dE, tE, oe)) ->
  (fuel <= 2 + length rest)%nat ->
  (oe = None -> at_pos dE toks []) ->
  directive_loops body (NewDispenser toks) t = Some (dE, tE, oe).
Proof.
  intros Hok Hrest toks Hrun Hfuel Hend.
  assert (Hinner : for_NextBlock (2 * length kvs + fuel) body (inside_block toks) t
                   = Some (dE, tE, oe)).
  { apply (settings_run kvs 2 _ [word 1 "tailscale_auth"; word 1 "{"] rest); try done. }
  assert (Hlen : (2 * length kvs + fuel <= length toks)%nat).
  { unfold toks, directive_block. cbn [length]. rewrite length_app, setting_lines_length. lia. }
  assert (Hshape : exists first rest', setting_lines 2 kvs ++ rest = first :: rest'
                     /\ Text first <> "{" /\ (Text first = "}" -> rest' = [])).
  { destruct kvs as [|[k v] kvs].
    - destruct rest as [|first rest']; [done|]. by exists first, rest'.
    - apply Forall_cons in Hok as [Hkv _]. eexists _, _. split; [reflexivity|].
      cbn [fst snd word Text].
      destruct Hkv as [[Hk _]|[Hk _]]; cbn [fst] in Hk;
        [destruct (known_word k Hk)|destruct (ignored_word k Hk)]; done. }
  destruct Hshape as (first & rest' & Heq & Ho & Hc).
  unfold toks, directive_block in *. rewrite Heq in *.
  apply (directive_loops_block _ _ first rest' t (2 * length kvs + fuel));
    try done.
Qed.

End BlockRuns.
(** ** The Caddyfile of the cached handler *)

Section CachedCaddyfile.
Import golib caddyfile Cached.
Local Open Scope string_scope.
Local Open Scope Z_scope.
Local Open Scope list_scope.

Lemma known_word k : known k = true -> k <> "{" /\ k <> "}".
Proof. intros H. split; intros ->; discriminate H. Qed.

Lemma passed_over_word k : passed_over k = true -> k <> "{" /\ k <> "}".
Proof.
  unfold passed_over. intros H.
  apply andb_true_iff in H as [H Hc]. apply andb_true_iff in H as [_ Ho].
  apply negb_true_iff in Ho, Hc. by split; apply String.eqb_neq.
Qed.

Lemma passed_over_unknown k : passed_over k = true -> known k = false.
Proof.
  unfold passed_over. intros H.
  apply andb_true_iff in H as [H _]. apply andb_true_iff in H as [H _].
  by apply negb_true_iff in H.
Qed.

Lemma unknown_tests k :
  known k = false ->
  String.eqb k "api_key" = false /\ String.eqb k "tailnet" = false
  /\ String.eqb k "header_prefix" = false /\ String.eqb k "cache_file" = false.
Proof.
  unfold known. intros H.
  apply orb_false_iff in H as [H H4]. apply orb_false_iff in H as [H H3].
  apply orb_false_iff in H as [H1 H2]. auto.
Qed.

Lemma assign_passed_over t k v : passed_over k = true -> assign t (k, v) = t.
Proof.
  intros H. apply passed_over_unknown, unknown_tests in H as (H1 & H2 & H3 & H4).
  unfold assign. cbn [fst]. by rewrite H1, H2, H3, H4.
Qed.

Lemma parseCaddyfile_switch_known d t d1 :
  known (Val d) = true -> NextArg d = (true, d1) ->
  parseCaddyfile_switch d t = (d1, assign t (Val d, Val d1), None).
Proof.
  intros Hk Ha. unfold parseCaddyfile_switch, required_arg, assign, known in *.
  rewrite Ha. cbn [fst snd negb].
  destruct (String.eqb (Val d) "api_key"); [reflexivity|].
  destruct (String.eqb (Val d) "tailnet"); [reflexivity|].
  destruct (String.eqb (Val d) "header_prefix"); [reflexivity|].
  destruct (String.eqb (Val d) "cache_file"); [reflexivity|discriminate Hk].
Qed.

Lemma UnmarshalCaddyfile_switch_known d t d1 :
  known (Val d) = true -> NextArg d = (true, d1) ->
  UnmarshalCaddyfile_switch d t = (d1, assign t (Val d, Val d1), None).
Proof.
  intros Hk Ha. unfold UnmarshalCaddyfile_switch, required_arg, assign, known in *.
  rewrite Ha. cbn [fst snd negb].
  destruct (String.eqb (Val d) "api_key"); [reflexivity|].
  destruct (String.eqb (Val d) "tailnet"); [reflexivity|].
  destruct (String.eqb (Val d) "header_prefix"); [reflexivity|].
  destruct (String.eqb (Val d) "cache_file"); [reflexivity|discriminate Hk].
Qed.

Lemma parseCaddyfile_switch_unknown d t :
  known (Val d) = false ->
  parseCaddyfile_switch d t = (d, t, Some (Errf_unrecognized (Val d))).
Proof.
  intros H. apply unknown_tests in H as (H1 & H2 & H3 & H4).
  unfold parseCaddyfile_switch. cbv zeta. by rewrite H1, H2, H3, H4.
Qed.

Lemma UnmarshalCaddyfile_switch_passed_over d t :
  passed_over (Val d) = true -> UnmarshalCaddyfile_switch d t = (d, t, None).
Proof.
  intros H. apply passed_over_unknown, unknown_tests in H as (H1 & H2 & H3 & H4).
  unfold UnmarshalCaddyfile_switch. cbv zeta. by rewrite H1, H2, H3, H4.
Qed.

(** A subdirective without its argument. *)
Lemma switch_missing_argument d t :
  known (Val d) = true -> NextArg d = (false, d) ->
  let e := "wrong argument count or unexpected line ending after '" +:+ Val d +:+ "'" in
  parseCaddyfile_switch d t = (d, t, Some e)
  /\ UnmarshalCaddyfile_switch d t
     = if String.eqb (Val d) "header_prefix"
       then (d, set_HeaderPrefix t "X-Tailscale-", None)
       else (d, t, Some e).
Proof.
  intros Hk Ha e.
  assert (He : ArgErr d = e).
  { unfold ArgErr. destruct (known_word _ Hk) as [Ho _].
    by rewrite (proj2 (String.eqb_neq _ _) Ho). }
  unfold parseCaddyfile_switch, UnmarshalCaddyfile_switch, required_arg, known in *.
  rewrite Ha, He. cbn [negb].
  destruct (String.eqb (Val d) "api_key") eqn:E1.
  { apply String.eqb_eq in E1. rewrite E1. done. }
  destruct (String.eqb (Val d) "tailnet") eqn:E2.
  { apply String.eqb_eq in E2. rewrite E2. done. }
  destruct (String.eqb (Val d) "header_prefix") eqn:E3; [done|].
  destruct (String.eqb (Val d) "cache_file") eqn:E4; [done|discriminate Hk].
Qed.

Lemma settings_ok (ignored : string -> bool) kvs :
  Forall (fun kv : string * string => known kv.1 = true /\ kv.2 <> "{") kvs ->
  Forall (line_ok known ignored) kvs.
Proof. intros H. apply (Forall_impl _ _ _ H). intros kv Hkv. by left. Qed.

(** X17. A block of settings, one to a line, read by parseCaddyfile:
    the handler it returns holds the settings in the order of the
    lines, a later line overriding an earlier one of the same name,
    and nothing else is set. An argument may be any token but an
    opening brace. *)
Theorem parseCaddyfile_reads_block (kvs : list (string * string)) :
  Forall (fun kv : string * string => known kv.1 = true /\ kv.2 <> "{") kvs ->
  parseCaddyfile (NewDispenser (directive_block kvs [word (next_line kvs) "}"]))
  = Some (inl (fold_left assign kvs zeroTailscaleAuth)).
Proof.
  intros Hok. unfold parseCaddyfile.
  set (seen := [word 1 "tailscale_auth"; word 1 "{"] ++ setting_lines 2 kvs).
  rewrite (block_run_then parseCaddyfile_switch assign known (fun _ => false)
             parseCaddyfile_switch_known ltac:(done) ltac:(done) known_word ltac:(done)
             kvs [word (next_line kvs) "}"] zeroTailscaleAuth 1
             (mkDispenser (seen ++ [word (next_line kvs) "}"]) (Z.of_nat (length seen)) 0)
             (fold_left assign kvs zeroTailscaleAuth) None).
  - reflexivity.
  - by apply settings_ok.
  - done.
  - intros d' Hp Hn. by apply closing_round.
  - simpl. lia.
  - intros _. split; simpl.
    + by rewrite app_nil_r.
    + rewrite length_app. simpl. lia.
Qed.

Lemma parseCaddyfile_reads_block_witness :
  parseCaddyfile
    (NewDispenser
       [word 1 "tailscale_auth"; word 1 "{";
        word 2 "api_key"; word 2 "key-1";
        word 3 "tailnet"; word 3 "example.com";
        word 4 "api_key"; word 4 "key-2";
        word 5 "}"])
  = Some (inl (mkTailscaleAuth "key-2" "example.com" "" "" (mkDeviceCache ∅ "")
                 sync.unlocked)).
Proof.
  apply (parseCaddyfile_reads_block
           [("api_key", "key-1"); ("tailnet", "example.com"); ("api_key", "key-2")]).
  repeat constructor; discriminate.
Defined.

(** X18. parseCaddyfile accepts the four subdirectives and nothing
    else: at the first token in the place of a subdirective that is
    none of them, it returns no handler and the error "unrecognized
    subdirective" with that token, whatever follows. *)
Theorem parseCaddyfile_rejects_unknown (kvs : list (string * string)) (bad : Token)
    (rest : list Token) :
  Forall (fun kv : string * string => known kv.1 = true /\ kv.2 <> "{") kvs ->
  passed_over (Text bad) = true ->
  parseCaddyfile (NewDispenser (directive_block kvs (bad :: rest)))
  = Some (inr (Errf_unrecognized (Text bad))).
Proof.
  intros Hok Hbad. unfold parseCaddyfile.
  destruct (passed_over_word _ Hbad) as [Ho Hc].
  set (seen := [word 1 "tailscale_auth"; word 1 "{"] ++ setting_lines 2 kvs).
  rewrite (block_run_then parseCaddyfile_switch assign known (fun _ => false)
             parseCaddyfile_switch_known ltac:(done) ltac:(done) known_word ltac:(done)
             kvs (bad :: rest) zeroTailscaleAuth 1
             (mkDispenser (seen ++ bad :: rest) (Z.of_nat (length seen)) 1)
             (fold_left assign kvs zeroTailscaleAuth) (Some (Errf_unrecognized (Text bad)))).
  - reflexivity.
  - by apply settings_ok.
  - done.
  - intros d' Hp Hn. apply failing_round; try done.
    intros d1 Hp1. rewrite <- (at_pos_Val _ _ _ _ Hp1).
    apply parseCaddyfile_switch_unknown.
    rewrite (at_pos_Val _ _ _ _ Hp1). by apply passed_over_unknown.
  - simpl. lia.
  - done.
Qed.

Lemma parseCaddyfile_rejects_unknown_witness :
  parseCaddyfile
    (NewDispenser
       [word 1 "tailscale_auth"; word 1 "{";
        word 2 "api_key"; word 2 "key-1";
        word 3 "refresh"; word 3 "5m";
        word 4 "}"])
  = Some (inr "unrecognized subdirective: refresh").
Proof.
  apply (parseCaddyfile_rejects_unknown [("api_key", "key-1")] (word 3 "refresh")
           [word 3 "5m"; word 4 "}"]).
  - repeat constructor; discriminate.
  - reflexivity.
Defined.

(** X19. UnmarshalCaddyfile is lenient where parseCaddyfile is not:
    in a block whose lines are settings or pairs of words that are no
    subdirectives, it assigns the settings in order and passes over the
    other lines without an error. *)
Theorem UnmarshalCaddyfile_passes_over_unknown (kvs : list (string * string))
    (m : TailscaleAuth) :
  Forall (line_ok known passed_over) kvs ->
  exists d',
    UnmarshalCaddyfile (NewDispenser (directive_block kvs [word (next_line kvs) "}"])) m
    = Some (d', fold_left assign kvs m, None).
Proof.
  intros Hok. unfold UnmarshalCaddyfile.
  set (seen := [word 1 "tailscale_auth"; word 1 "{"] ++ setting_lines 2 kvs).
  eexists.
  apply (block_run_then UnmarshalCaddyfile_switch assign known passed_over
           UnmarshalCaddyfile_switch_known UnmarshalCaddyfile_switch_passed_over
           assign_passed_over known_word passed_over_word
           kvs [word (next_line kvs) "}"] m 1
           (mkDispenser (seen ++ [word (next_line kvs) "}"]) (Z.of_nat (length seen)) 0)).
  - done.
  - done.
  - intros d' Hp Hn. by apply closing_round.
  - simpl. lia.
  - intros _. split; simpl.
    + by rewrite app_nil_r.
    + rewrite length_app. simpl. lia.
Qed.

Lemma UnmarshalCaddyfile_passes_over_unknown_witness :
  exists d',
    UnmarshalCaddyfile
      (NewDispenser
         [word 1 "tailscale_auth"; word 1 "{";
          word 2 "api_key"; word 2 "key-1";
          word 3 "refresh"; word 3 "5m";
          word 4 "tailnet"; word 4 "example.com";
          word 5 "}"])
      zeroTailscaleAuth
    = Some (d', mkTailscaleAuth "key-1" "example.com" "" "" (mkDeviceCache ∅ "")
                  sync.unlocked, None).
Proof.
  apply (UnmarshalCaddyfile_passes_over_unknown
           [("api_key", "key-1"); ("refresh", "5m"); ("tailnet", "example.com")]
           zeroTailscaleAuth).
  apply Forall_cons_2; [left; split; [reflexivity|discriminate]|].
  apply Forall_cons_2; [right; split; reflexivity|].
  apply Forall_cons_2; [left; split; [reflexivity|discriminate]|].
  apply Forall_nil_2.
Defined.

(** X20. A subdirective that stands alone on its line has no
    argument. parseCaddyfile returns the error "wrong argument count or
    unexpected line ending after" with its name, for each of the four;
    UnmarshalCaddyfile does the same for api_key, tailnet and
    cache_file, but reads a bare header_prefix as the default prefix
    X-Tailscale- and goes on. *)
Theorem subdirective_without_argument (kvs : list (string * string)) (k : string)
    (l l' : Z) (m : TailscaleAuth) :
  Forall (fun kv : string * string => known kv.1 = true /\ kv.2 <> "{") kvs ->
  known k = true ->
  l < l' ->
  let d := NewDispenser (directive_block kvs [word l k; word l' "}"]) in
  let e := "wrong argument count or unexpected line ending after '" +:+ k +:+ "'" in
  parseCaddyfile d = Some (inr e)
  /\ exists d',
       UnmarshalCaddyfile d m
       = Some (d',
               if String.eqb k "header_prefix"
               then set_HeaderPrefix (fold_left assign kvs m) "X-Tailscale-"
               else fold_left assign kvs m,
               if String.eqb k "header_prefix" then None else Some e).
Proof.
  intros Hok Hk Hl d e. subst d.
  destruct (known_word _ Hk) as [Ho Hc].
  set (seen := [word 1 "tailscale_auth"; word 1 "{"] ++ setting_lines 2 kvs).
  assert (Hnew : isNextOnNewLine (word l k) (word l' "}") = true).
  { apply word_next_line.
    replace (CountByte (txt k) 10) with 0; [lia|].
    revert Hk. unfold known. intros Hk.
    repeat (apply orb_true_iff in Hk as [Hk|Hk]); apply String.eqb_eq in Hk; by subst k. }
  assert (Hsw : forall d1 t, at_pos d1 (seen ++ [word l k]) [word l' "}"] ->
                  parseCaddyfile_switch d1 t = (d1, t, Some e)
                  /\ UnmarshalCaddyfile_switch d1 t
                     = if String.eqb k "header_prefix"
                       then (d1, set_HeaderPrefix t "X-Tailscale-", None)
                       else (d1, t, Some e)).
  { intros d1 t Hp1.
    pose proof (at_pos_Val _ _ _ _ Hp1) as Hv. cbn [word Text] in Hv.
    pose proof (switch_missing_argument d1 t) as Hm. rewrite Hv in Hm.
    apply Hm; [done|].
    apply (at_pos_NextArg_none d1 seen (word l k) [word l' "}"] Hp1). by left. }
  split.
  - unfold parseCaddyfile.
    rewrite (block_run_then parseCaddyfile_switch assign known (fun _ => false)
               parseCaddyfile_switch_known ltac:(done) ltac:(done) known_word ltac:(done)
               kvs [word l k; word l' "}"] zeroTailscaleAuth 1
               (mkDispenser (seen ++ [word l k; word l' "}"]) (Z.of_nat (length seen)) 1)
               (fold_left assign kvs zeroTailscaleAuth) (Some e)).
    + reflexivity.
    + by apply settings_ok.
    + done.
    + intros d' Hp Hn. apply failing_round; try done.
      intros d1 Hp1. by apply Hsw.
    + simpl. lia.
    + done.
  - unfold UnmarshalCaddyfile.
    destruct (String.eqb k "header_prefix") eqn:Ehp.
    + eexists.
      apply (block_run_then UnmarshalCaddyfile_switch assign known passed_over
               UnmarshalCaddyfile_switch_known UnmarshalCaddyfile_switch_passed_over
               assign_passed_over known_word passed_over_word
               kvs [word l k; word l' "}"] m 2
               (mkDispenser ((seen ++ [word l k]) ++ [word l' "}"])
                  (Z.of_nat (length (seen ++ [word l k]))) 0)).
      * by apply settings_ok.
      * done.
      * intros d' Hp Hn.
        pose proof (at_pos_move _ _ _ _ Hp) as Hp1.
        rewrite (for_NextBlock_round _ _ d' _ _ _
                   (at_pos_NextBlock_inside d' seen _ _ Hp Hn Ho Hc)).
        cbn [negb]. rewrite (proj2 (Hsw _ _ Hp1)).
        by apply closing_round.
      * simpl. lia.
      * intros _. split; simpl.
        -- by rewrite app_nil_r, <- !app_assoc.
        -- rewrite !length_app. simpl. lia.
    + eexists.
      apply (block_run_then UnmarshalCaddyfile_switch assign known passed_over
               UnmarshalCaddyfile_switch_known UnmarshalCaddyfile_switch_passed_over
               assign_passed_over known_word passed_over_word
               kvs [word l k; word l' "}"] m 1
               (mkDispenser (seen ++ [word l k; word l' "}"]) (Z.of_nat (length seen)) 1)).
      * by apply settings_ok.
      * done.
      * intros d' Hp Hn. apply failing_round; try done.
        intros d1 Hp1. by apply Hsw.
      * simpl. lia.
      * done.
Qed.

Lemma subdirective_without_argument_witness :
  let d := NewDispenser
             [word 1 "tailscale_auth"; word 1 "{";
              word 2 "tailnet"; word 2 "example.com";
              word 3 "header_prefix";
              word 4 "}"] in
  parseCaddyfile d
  = Some (inr "wrong argument count or unexpected line ending after 'header_prefix'")
  /\ exists d',
       UnmarshalCaddyfile d zeroTailscaleAuth
       = Some (d', mkTailscaleAuth "" "example.com" "X-Tailscale-" "" (mkDeviceCache ∅ "")
                     sync.unlocked, None).
Proof.
  apply (subdirective_without_argument [("tailnet", "example.com")] "header_prefix" 3 4
           zeroTailscaleAuth).
  - repeat constructor; discriminate.
  - reflexivity.
  - lia.
Defined.

End CachedCaddyfile.
(** ** The loops end *)

Section DispenserBounds.
Import golib caddyfile.
Local Open Scope string_scope.
Local Open Scope Z_scope.
Local Open Scope list_scope.

Lemma steps_on_refl d : steps_on d d.
Proof. unfold steps_on. auto with zarith. Qed.

Lemma steps_on_trans d1 d2 d3 : steps_on d1 d2 -> steps_on d2 d3 -> steps_on d1 d3.
Proof.
  intros (Ht1 & Hr1 & Hc1) (Ht2 & Hr2 & Hc2). unfold steps_on.
  split; [congruence|]. split; [auto|lia].
Qed.

Lemma steps_on_nest d n : steps_on d (nest d n).
Proof. unfold steps_on, in_range_cursor, len. simpl. auto with zarith. Qed.

Lemma Next_steps d ok d' :
  Next d = (ok, d') ->
  steps_on d d' /\ nesting d' = nesting d
  /\ (if ok then cursor d' = cursor d + 1 else cursor d' = cursor d).
Proof.
  unfold Next, steps_on, in_range_cursor, len.
  destruct (Z.ltb_spec (cursor d) (Z.of_nat (length (tokens d)) - 1));
    intros [= <- <-]; simpl; repeat split; lia.
Qed.

Lemma nextOnSameLine_steps d ok d' :
  nextOnSameLine d = (ok, d') ->
  steps_on d d' /\ nesting d' = nesting d
  /\ (if ok then cursor d' = cursor d + 1 else cursor d' = cursor d).
Proof.
  unfold nextOnSameLine, steps_on, in_range_cursor, len.
  destruct (Z.ltb_spec (cursor d) 0).
  { intros [= <- <-]; simpl; repeat split; lia. }
  destruct (Z.leb_spec (Z.of_nat (length (tokens d)) - 1) (cursor d)).
  { intros [= <- <-]; simpl; repeat split; lia. }
  destruct (tokens d !! Z.to_nat (cursor d)) as [curr|].
  2:{ intros [= <- <-]; simpl; repeat split; lia. }
  destruct (tokens d !! Z.to_nat (cursor d + 1)) as [next|].
  2:{ intros [= <- <-]; simpl; repeat split; lia. }
  destruct (negb (isNextOnNewLine curr next));
    intros [= <- <-]; simpl; repeat split; lia.
Qed.

Lemma move_back_steps d d1 :
  steps_on d d1 -> cursor d1 = cursor d + 1 -> steps_on d (move d1 (cursor d1 - 1)).
Proof.
  intros (Ht & Hr & Hc) Heq. unfold steps_on, in_range_cursor, len in *. simpl.
  rewrite Ht. split; [done|]. split; lia.
Qed.

Lemma NextArg_steps d ok d' : NextArg d = (ok, d') -> steps_on d d'.
Proof.
  unfold NextArg. destruct (nextOnSameLine d) as [same d1] eqn:Hs.
  apply nextOnSameLine_steps in Hs as (Hst & _ & Hc).
  destruct same; simpl.
  - destruct (String.eqb (Val d1) "{"); intros [= <- <-]; [|done].
    by apply move_back_steps.
  - by intros [= <- <-].
Qed.

Lemma block_opens_steps d :
  steps_on d (block_opens d).
Proof.
  unfold block_opens. destruct (String.eqb (Val d) "{"); [|apply steps_on_refl].
  destruct (nextOnSameLine d) as [same d1] eqn:Hs.
  apply nextOnSameLine_steps in Hs as (Hst & _ & _).
  destruct same; simpl; [done|].
  eapply steps_on_trans; [exact Hst|apply steps_on_nest].
Qed.

(** NextBlock never moves the cursor back, and a round it grants has
    moved it on. *)
Lemma NextBlock_steps d ok d' :
  NextBlock d 0 = (ok, d') ->
  steps_on d d' /\ (ok = true -> cursor d < cursor d').
Proof.
  unfold NextBlock. destruct (0 <? nesting d).
  - destruct (Next d) as [ok1 d1] eqn:Hn.
    apply Next_steps in Hn as (Hst1 & _ & Hc1).
    destruct ok1; simpl.
    2:{ intros [= <- <-]. done. }
    assert (Hlt : forall d2, steps_on d1 d2 ->
                    steps_on d d2 /\ (ok = true -> cursor d < cursor d2)).
    { intros d2 Hst2. split; [by eapply steps_on_trans|].
      destruct Hst2 as (_ & _ & Hc2). lia. }
    destruct (String.eqb (Val d1) "}").
    + destruct (nextOnSameLine d1) as [same d2] eqn:Hs.
      apply nextOnSameLine_steps in Hs as (Hst2 & _ & _).
      destruct same; simpl; intros [= _ <-]; apply Hlt.
      * eapply steps_on_trans; [exact Hst2|apply block_opens_steps].
      * eapply steps_on_trans; [exact Hst2|apply steps_on_nest].
    + intros [= _ <-]. apply Hlt, block_opens_steps.
  - destruct (nextOnSameLine d) as [ok1 d1] eqn:Hs.
    apply nextOnSameLine_steps in Hs as (Hst1 & _ & Hc1).
    destruct ok1; simpl.
    2:{ intros [= <- <-]. done. }
    destruct (String.eqb (Val d1) "{"); simpl.
    2:{ intros [= <- <-]. split; [by apply move_back_steps|done]. }
    destruct (Next d1) as [ok2 d2] eqn:Hn.
    apply Next_steps in Hn as (Hst2 & _ & Hc2).
    assert (Hlt : cursor d < cursor d2) by (destruct ok2; lia).
    destruct (String.eqb (Val d2) "}"); intros [= <- <-].
    + split; [by eapply steps_on_trans|done].
    + split; [|simpl; lia].
      eapply steps_on_trans; [exact Hst1|].
      eapply steps_on_trans; [exact Hst2|apply steps_on_nest].
Qed.

Section Loops.
Context {T : Type}.
Variable body : Dispenser -> T -> Dispenser * T * option error.
Hypothesis body_steps : forall d t d' t' oe, body d t = (d', t', oe) -> steps_on d d'.

(** The rounds left to a loop: the tokens after the cursor. *)
Lemma rounds_bound d d' :
  steps_on d d' -> in_range_cursor d -> cursor d < cursor d' ->
  (Z.to_nat (Z.max (len d') 1 - cursor d') < Z.to_nat (Z.max (len d) 1 - cursor d))%nat.
Proof.
  intros (Ht & Hr & _) Hin Hlt. specialize (Hr Hin).
  unfold in_range_cursor, len in *. rewrite Ht in *. lia.
Qed.

Lemma rounds_le d d' :
  steps_on d d' ->
  (Z.to_nat (Z.max (len d') 1 - cursor d') <= Z.to_nat (Z.max (len d) 1 - cursor d))%nat.
Proof.
  intros (Ht & _ & Hc). unfold len. rewrite Ht. lia.
Qed.

Lemma for_NextBlock_returns fuel : forall d t,
  in_range_cursor d ->
  (Z.to_nat (Z.max (len d) 1 - cursor d) < fuel)%nat ->
  exists d' t' oe, for_NextBlock fuel body d t = Some (d', t', oe) /\ steps_on d d'.
Proof.
  induction fuel as [|fuel IH]; intros d t Hin Hfuel; [lia|].
  destruct (NextBlock d 0) as [ok d1] eqn:Hnb.
  rewrite (for_NextBlock_round body fuel d t ok d1 Hnb).
  apply NextBlock_steps in Hnb as (Hst1 & Hlt).
  destruct ok; cbn [negb].
  2:{ by eexists _, _, _. }
  specialize (Hlt eq_refl).
  destruct (body d1 t) as [[d2 t2] oe] eqn:Hb.
  pose proof (body_steps _ _ _ _ _ Hb) as Hst2.
  assert (Hst : steps_on d d2) by (by eapply steps_on_trans).
  destruct oe as [e|]; [by eexists _, _, _|].
  destruct (IH d2 t2) as (d' & t' & oe & Hrun & Hst').
  - by apply Hst.
  - assert (Hlt2 : cursor d < cursor d2) by (destruct Hst2 as (_ & _ & ?); lia).
    pose proof (rounds_bound d d2 Hst Hin Hlt2). lia.
  - exists d', t', oe. split; [exact Hrun|by eapply steps_on_trans].
Qed.

Lemma for_Next_returns fuel : forall d t,
  in_range_cursor d ->
  (Z.to_nat (Z.max (len d) 1 - cursor d) < fuel)%nat ->
  is_Some (for_Next fuel (fun d t => for_NextBlock (rounds d) body d t) d t).
Proof.
  induction fuel as [|fuel IH]; intros d t Hin Hfuel; [lia|].
  destruct (Next d) as [ok d1] eqn:Hn.
  rewrite (for_Next_round _ fuel d t ok d1 Hn).
  apply Next_steps in Hn as (Hst1 & _ & Hc1).
  destruct ok; cbn [negb]; [|done]. cbv beta.
  destruct (for_NextBlock_returns (rounds d1) d1 t) as (d2 & t2 & oe & -> & Hst2).
  - by apply Hst1.
  - unfold rounds. lia.
  - destruct oe as [e|]; [done|].
    assert (Hst : steps_on d d2) by (by eapply steps_on_trans).
    apply IH; [by apply Hst|].
    assert (Hlt2 : cursor d < cursor d2) by (destruct Hst2 as (_ & _ & ?); lia).
    pose proof (rounds_bound d d2 Hst Hin Hlt2). lia.
Qed.

(** The two loops return on every list of tokens. *)
Lemma directive_loops_returns toks t :
  is_Some (directive_loops body (NewDispenser toks) t).
Proof.
  unfold directive_loops. apply for_Next_returns.
  - unfold in_range_cursor, NewDispenser. simpl. lia.
  - unfold rounds. lia.
Qed.

End Loops.

End DispenserBounds.

Section ReadersReturn.
Import golib caddyfile.
Local Open Scope string_scope.

Lemma required_arg_steps_Cached set d t d' t' oe :
  Cached.required_arg set d t = (d', t', oe) -> steps_on d d'.
Proof.
  unfold Cached.required_arg. destruct (NextArg d) as [ok d1] eqn:Ha.
  apply NextArg_steps in Ha. by destruct ok; intros [= <- _ _].
Qed.

Lemma required_arg_steps_Direct set d t d' t' oe :
  Direct.required_arg set d t = (d', t', oe) -> steps_on d d'.
Proof.
  unfold Direct.required_arg. destruct (NextArg d) as [ok d1] eqn:Ha.
  apply NextArg_steps in Ha. by destruct ok; intros [= <- _ _].
Qed.

(** X21. Reading the configuration ends: on every list of tokens,
    well formed or not, the loops of parseCaddyfile and
    UnmarshalCaddyfile (both versions) come to an end and the function
    returns, with a handler or with an error. Every round of a loop
    moves the cursor on, and the cursor never leaves the tokens. *)
Theorem caddyfile_readers_return (toks : list Token) :
  is_Some (Cached.parseCaddyfile (NewDispenser toks))
  /\ (forall m, is_Some (Cached.UnmarshalCaddyfile (NewDispenser toks) m))
  /\ is_Some (Direct.parseCaddyfile (NewDispenser toks))
  /\ (forall m, is_Some (Direct.UnmarshalCaddyfile (NewDispenser toks) m)).
Proof.
  assert (H1 : forall d t d' t' oe,
             Cached.parseCaddyfile_switch d t = (d', t', oe) -> steps_on d d').
  { intros d t d' t' oe. unfold Cached.parseCaddyfile_switch. cbv zeta.
    repeat case_match; try apply required_arg_steps_Cached.
    intros [= <- _ _]. apply steps_on_refl. }
  assert (H2 : forall d t d' t' oe,
             Cached.UnmarshalCaddyfile_switch d t = (d', t', oe) -> steps_on d d').
  { intros d t d' t' oe. unfold Cached.UnmarshalCaddyfile_switch. cbv zeta.
    destruct (String.eqb _ "api_key"); [apply required_arg_steps_Cached|].
    destruct (String.eqb _ "tailnet"); [apply required_arg_steps_Cached|].
    destruct (String.eqb _ "header_prefix").
    { destruct (NextArg d) as [ok d1] eqn:Ha. apply NextArg_steps in Ha.
      by destruct ok; intros [= <- _ _]. }
    destruct (String.eqb _ "cache_file"); [apply required_arg_steps_Cached|].
    intros [= <- _ _]. apply steps_on_refl. }
  assert (H3 : forall d t d' t' oe,
             Direct.parseCaddyfile_switch d t = (d', t', oe) -> steps_on d d').
  { intros d t d' t' oe. unfold Direct.parseCaddyfile_switch. cbv zeta.
    repeat case_match; try apply required_arg_steps_Direct.
    intros [= <- _ _]. apply steps_on_refl. }
  assert (H4 : forall d t d' t' oe,
             Direct.UnmarshalCaddyfile_switch d t = (d', t', oe) -> steps_on d d').
  { intros d t d' t' oe. unfold Direct.UnmarshalCaddyfile_switch. cbv zeta.
    destruct (String.eqb _ "api_key"); [apply required_arg_steps_Direct|].
    destruct (String.eqb _ "tailnet"); [apply required_arg_steps_Direct|].
    destruct (String.eqb _ "header_prefix").
    { destruct (NextArg d) as [ok d1] eqn:Ha. apply NextArg_steps in Ha.
      by destruct ok; intros [= <- _ _]. }
    intros [= <- _ _]. apply steps_on_refl. }
  split; [|split; [|split]].
  - unfold Cached.parseCaddyfile.
    destruct (directive_loops_returns _ H1 toks Cached.zeroTailscaleAuth) as [[[d t] oe] ->].
    by destruct oe.
  - intros m. unfold Cached.UnmarshalCaddyfile. by apply directive_loops_returns.
  - unfold Direct.parseCaddyfile.
    destruct (directive_loops_returns _ H3 toks Direct.zeroTailscaleAuth) as [[[d t] oe] ->].
    by destruct oe.
  - intros m. unfold Direct.UnmarshalCaddyfile. by apply directive_loops_returns.
Qed.

End ReadersReturn.
(** ** The Caddyfile of the whois handler *)

Section DirectCaddyfile.
Import golib caddyfile Direct.
Local Open Scope string_scope.
Local Open Scope Z_scope.
Local Open Scope list_scope.

Lemma whois_known_word k : whois_known k = true -> k <> "{" /\ k <> "}".
Proof. intros H. split; intros ->; discriminate H. Qed.

Lemma whois_unknown_tests k :
  whois_known k = false ->
  String.eqb k "api_key" = false /\ String.eqb k "tailnet" = false
  /\ String.eqb k "header_prefix" = false.
Proof.
  unfold whois_known. intros H.
  apply orb_false_iff in H as [H H3]. apply orb_false_iff in H as [H1 H2]. auto.
Qed.

Lemma whois_parseCaddyfile_switch_known d t d1 :
  whois_known (Val d) = true -> NextArg d = (true, d1) ->
  parseCaddyfile_switch d t = (d1, whois_assign t (Val d, Val d1), None).
Proof.
  intros Hk Ha. unfold parseCaddyfile_switch, required_arg, whois_assign, whois_known in *.
  rewrite Ha. cbn [fst snd negb].
  destruct (String.eqb (Val d) "api_key"); [reflexivity|].
  destruct (String.eqb (Val d) "tailnet"); [reflexivity|].
  destruct (String.eqb (Val d) "header_prefix"); [reflexivity|discriminate Hk].
Qed.

Lemma whois_parseCaddyfile_switch_unknown d t :
  whois_known (Val d) = false ->
  parseCaddyfile_switch d t = (d, t, Some (Errf_unrecognized (Val d))).
Proof.
  intros H. apply whois_unknown_tests in H as (H1 & H2 & H3).
  unfold parseCaddyfile_switch. cbv zeta. by rewrite H1, H2, H3.
Qed.

(** X22. The whois version of parseCaddyfile knows three
    subdirectives: it reads a block of api_key, tailnet and
    header_prefix lines into the handler, in order, and rejects every
    other name as an unrecognized subdirective, cache_file included: a
    block written for the cached handler does not load. *)
Theorem whois_parseCaddyfile (kvs : list (string * string)) :
  Forall (fun kv : string * string => whois_known kv.1 = true /\ kv.2 <> "{") kvs ->
  parseCaddyfile (NewDispenser (directive_block kvs [word (next_line kvs) "}"]))
  = Some (inl (fold_left whois_assign kvs zeroTailscaleAuth))
  /\ forall (bad : Token) (rest : list Token),
       whois_known (Text bad) = false -> Text bad <> "{" -> Text bad <> "}" ->
       parseCaddyfile (NewDispenser (directive_block kvs (bad :: rest)))
       = Some (inr (Errf_unrecognized (Text bad))).
Proof.
  intros Hok.
  assert (Hlines : Forall (line_ok whois_known (fun _ => false)) kvs).
  { apply (Forall_impl _ _ _ Hok). intros kv Hkv. by left. }
  set (seen := [word 1 "tailscale_auth"; word 1 "{"] ++ setting_lines 2 kvs).
  split.
  - unfold parseCaddyfile.
    rewrite (block_run_then parseCaddyfile_switch whois_assign whois_known (fun _ => false)
               whois_parseCaddyfile_switch_known ltac:(done) ltac:(done) whois_known_word
               ltac:(done)
               kvs [word (next_line kvs) "}"] zeroTailscaleAuth 1
               (mkDispenser (seen ++ [word (next_line kvs) "}"]) (Z.of_nat (length seen)) 0)
               (fold_left whois_assign kvs zeroTailscaleAuth) None).
    + reflexivity.
    + done.
    + done.
    + intros d' Hp Hn. by apply closing_round.
    + simpl. lia.
    + intros _. split; simpl.
      * by rewrite app_nil_r.
      * rewrite length_app. simpl. lia.
  - intros bad rest Hbad Ho Hc. unfold parseCaddyfile.
    rewrite (block_run_then parseCaddyfile_switch whois_assign whois_known (fun _ => false)
               whois_parseCaddyfile_switch_known ltac:(done) ltac:(done) whois_known_word
               ltac:(done)
               kvs (bad :: rest) zeroTailscaleAuth 1
               (mkDispenser (seen ++ bad :: rest) (Z.of_nat (length seen)) 1)
               (fold_left whois_assign kvs zeroTailscaleAuth)
               (Some (Errf_unrecognized (Text bad)))).
    + reflexivity.
    + done.
    + done.
    + intros d' Hp Hn. apply failing_round; try done.
      intros d1 Hp1. rewrite <- (at_pos_Val _ _ _ _ Hp1).
      apply whois_parseCaddyfile_switch_unknown.
      by rewrite (at_pos_Val _ _ _ _ Hp1).
    + simpl. lia.
    + done.
Qed.

Lemma whois_parseCaddyfile_witness :
  parseCaddyfile
    (NewDispenser
       [word 1 "tailscale_auth"; word 1 "{";
        word 2 "api_key"; word 2 "key-1";
        word 3 "}"])
  = Some (inl (mkTailscaleAuth "key-1" "" ""))
  /\ parseCaddyfile
       (NewDispenser
          [word 1 "tailscale_auth"; word 1 "{";
           word 2 "api_key"; word 2 "key-1";
           word 3 "cache_file"; word 3 "devices.json";
           word 4 "}"])
     = Some (inr "unrecognized subdirective: cache_file").
Proof.
  assert (Hok : Forall (fun kv : string * string => whois_known kv.1 = true /\ kv.2 <> "{")
                  [("api_key", "key-1")]) by (repeat constructor; discriminate).
  split.
  - exact (proj1 (whois_parseCaddyfile _ Hok)).
  - exact (proj2 (whois_parseCaddyfile _ Hok) (word 3 "cache_file")
             [word 3 "devices.json"; word 4 "}"] eq_refl ltac:(discriminate)
             ltac:(discriminate)).
Defined.

End DirectCaddyfile.
